(** * GrayNorm: reference-gene ranking (graynorm.py)

    A shallow embedding of the statistical core of [graynorm.py], a
    Python 2 program: the [Data] table with its condition groups ([add]),
    the normalization factors ([compute_nf], [compute_inv_nf],
    [compute_inv_nf_vs_control]), the statistics per condition group and
    overall ([compute_stats], [compute_condition_stats],
    [compute_overall_stats]) and the ranking of all gene combinations
    ([compute_all]); beside it the checks of the column names
    ([check_input], [check_column], [unknown_columns]), the selection of
    the genes ([genes], [compute_gene_idx]) and the rows of the result
    file ([header_row], [output_row], [write_results]).  Reading the file
    ([read_file], with the [csv] module), the command line ([main]) and
    the text of the CSV output are not modelled.

    Number models.  The computation is embedded twice.  The first
    embedding idealises Python's floats as exact real numbers ([R]): it
    states what the formulas of the program compute in exact arithmetic,
    and knows no rounding, overflow, infinity, NaN or sign of zero.  What
    Python raises on exact values is kept: division by zero raises
    [ZeroDivisionError], [math.sqrt] of a negative number and a negative
    base under a fractional exponent raise [ValueError], arithmetic on a
    string cell raises [TypeError], an index out of range raises
    [IndexError].  The second embedding (module [F64]) follows the same
    source lines on IEEE 754 binary64 numbers ([spec_float], precision 53,
    round to nearest even): there sums, products and quotients round,
    overflow and underflow, [x ** y] raises [OverflowError] on a range
    error, NaN compares false with everything, [0.0 == -0.0], and
    [list.sort] is CPython's run detection followed by binary insertion.
    A property is stated on the floats wherever the two embeddings
    differ; properties said to hold in exact arithmetic are stated on
    [R].

    Builtins.  [float] on a string and [str] on a list of condition values
    are parameters of the model ([float_of_string], [str_vals]), and so
    is C's [pow] on floats ([libm_pow]); the worked tables instantiate
    them.  What the program writes
    to [sys.stderr] is returned as a list of messages beside the result;
    [sys.exit(n)] is the exception [SystemExit n].  The regular
    expressions of [compute_gene_idx] are modelled on lists of characters
    ([re_split_commas], [match_number], [match_range]). *)

From Stdlib Require Import Reals Lra Psatz Ascii String SpecFloat.
From stdpp Require Import gmap strings list fin_maps sorting pretty.

(** ** Exceptions and the result monad *)

Inductive exn : Type :=
  | ZeroDivisionError
  | ValueError
  | TypeError
  | IndexError
  | AttributeError
  | OverflowError
  | SystemExit (status : nat).

Inductive result (A : Type) : Type :=
  | Ok (a : A)
  | Raise (e : exn).
Arguments Ok {A} a.
Arguments Raise {A} e.

Global Instance result_ret : MRet result := λ A a, Ok a.
Global Instance result_bind : MBind result :=
  λ A B f m, match m with Ok a => f a | Raise e => Raise e end.
Global Instance result_fmap : FMap result :=
  λ A B f m, match m with Ok a => Ok (f a) | Raise e => Raise e end.

Global Instance R_eq_dec : EqDecision R := Req_dec_T.

(** ** Python values held in a row: a float or a string *)

Inductive pyval : Type :=
  | PFloat (x : R)
  | PStr (s : string).

Global Instance pyval_eq_dec : EqDecision pyval.
Proof.
  intros [x|s] [y|t].
  - destruct (decide (x = y)) as [->|N]; [left; reflexivity|right; congruence].
  - right; discriminate.
  - right; discriminate.
  - destruct (decide (s = t)) as [->|N]; [left; reflexivity|right; congruence].
Defined.

(** ** Float arithmetic as Python performs it *)

(** [x / y] *)
Definition py_div (x y : R) : result R :=
  if decide (y = 0%R) then Raise ZeroDivisionError else Ok (x / y)%R.

(** [math.sqrt(x)] *)
Definition py_sqrt (x : R) : result R :=
  if Rlt_dec x 0 then Raise ValueError else Ok (sqrt x).

(** [x ** y] on floats (CPython 2 [float_pow]): a zero exponent gives 1.0;
    a zero base gives 0.0, or raises for a negative exponent; a negative
    base needs an integral exponent. *)
Definition py_pow (x y : R) : result R :=
  if decide (y = 0%R) then Ok 1%R
  else if decide (x = 0%R) then
    (if Rlt_dec y 0 then Raise ZeroDivisionError else Ok 0%R)
  else if Rlt_dec x 0 then
    (if decide (frac_part y = 0%R) then Ok (powerRZ x (Int_part y))
     else Raise ValueError)
  else Ok (Rpower x y).

(** [sum(numbers)]: a left fold starting at 0 *)
Definition py_sum (numbers : list R) : R := fold_left Rplus numbers 0%R.

(** [x * y] where the accumulator [x] is a float and [y] is a cell *)
Definition py_mul (x : R) (y : pyval) : result R :=
  match y with
  | PFloat v => Ok (x * v)%R
  | PStr _ => Raise TypeError
  end.

(** [reduce(lambda x, y: x*y, cells, init)]: the exact product
    ([F64.reduce_mul] is the product as the floats round it) *)
Fixpoint reduce_mul (cells : list pyval) (init : R) : result R :=
  match cells with
  | [] => Ok init
  | y :: rest => acc ← py_mul init y; reduce_mul rest acc
  end.

(** [itertools.compress(data, selectors)] *)
Fixpoint compress {A : Type} (data : list A) (selectors : list bool) : list A :=
  match data, selectors with
  | d :: data', s :: selectors' =>
      if s then d :: compress data' selectors' else compress data' selectors'
  | _, _ => []
  end.

(** ** compute_stats *)

(** [n] is [len(numbers)]; [x**2] is written [x ^ 2].  The standard
    deviation is computed first, so its exceptions come first.  This is
    the computation in exact arithmetic, where the radicand of two or more
    numbers is never negative and nothing overflows; [F64.compute_stats]
    is the same code on floats. *)
Definition compute_stats (numbers : list R) : result (R * R * R) :=
  let n := INR (length numbers) in
  let s := py_sum numbers in
  let s2 := py_sum (map (λ x, x ^ 2)%R numbers) in
  q ← py_div (s ^ 2)%R n;
  v ← py_div (s2 - q)%R (n - 1)%R;
  stddev ← py_sqrt v;
  avg ← py_div s n;
  rn ← py_sqrt n;
  stderr ← py_div stddev rn;
  Ok (avg, stddev, stderr).

(** [seq[idx]] for a non-negative index *)
Definition py_index {A : Type} (l : list A) (idx : nat) : result A :=
  match l !! idx with
  | Some x => Ok x
  | None => Raise IndexError
  end.

(** ** The Data table *)

(** The attributes of a [Data] object that the modelled methods read or
    write.  [_control_cond_vals] does not exist until [set_control_vals]
    is called, hence the option. *)
Record Data : Type := mkData {
  _headers : list string;
  _non_data : list string;
  _data : list (list pyval);
  _control_idx : list nat;
  _cond_idx : list nat;
  _cond_groups : gmap string (list nat);
  _cond_group_idx : list (list pyval);
  _control_cond_vals : option (list pyval)
}.

(** [Data.__init__] *)
Definition Data_init (headers : list string) : Data :=
  {| _headers := headers;
     _non_data := [];
     _data := [];
     _control_idx := [];
     _cond_idx := [];
     _cond_groups := ∅;
     _cond_group_idx := [];
     _control_cond_vals := None |}.

(** The indices of the headers that are condition names, in header order *)
Fixpoint cond_indices (conditions headers : list string) (idx : nat) : list nat :=
  match headers with
  | [] => []
  | header :: rest =>
      if bool_decide (header ∈ conditions)
      then idx :: cond_indices conditions rest (S idx)
      else cond_indices conditions rest (S idx)
  end.

Definition set_condition_col_names (d : Data) (conditions : list string) : Data :=
  {| _headers := _headers d;
     _non_data := _non_data d ++ conditions;
     _data := _data d;
     _control_idx := _control_idx d;
     _cond_idx := cond_indices conditions (_headers d) 0;
     _cond_groups := _cond_groups d;
     _cond_group_idx := _cond_group_idx d;
     _control_cond_vals := _control_cond_vals d |}.

Definition set_control_vals (d : Data) (values : list pyval) : Data :=
  {| _headers := _headers d;
     _non_data := _non_data d;
     _data := _data d;
     _control_idx := _control_idx d;
     _cond_idx := _cond_idx d;
     _cond_groups := _cond_groups d;
     _cond_group_idx := _cond_group_idx d;
     _control_cond_vals := Some values |}.

Definition set_sample_col_name (d : Data) (sample : string) : Data :=
  {| _headers := _headers d;
     _non_data := _non_data d ++ [sample];
     _data := _data d;
     _control_idx := _control_idx d;
     _cond_idx := _cond_idx d;
     _cond_groups := _cond_groups d;
     _cond_group_idx := _cond_group_idx d;
     _control_cond_vals := _control_cond_vals d |}.

Definition condition_values (d : Data) : list (list pyval) := _cond_group_idx d.
Definition nr_conditions (d : Data) : nat := length (_cond_group_idx d).
Definition control_rows (d : Data) : list nat := _control_idx d.

(** ** Result records *)

Record cond_stat : Type := mkCondStat {
  st_cond : list pyval;
  st_avg : R;
  st_stddev : R;
  st_stderr : R;
  st_cv_intra : R
}.

Record overall_stat : Type := mkOverallStat {
  ov_avg : R;
  ov_stddev : R;
  ov_cumm : R;
  ov_cv_inter : R
}.

(** ** Enumeration and sorting *)

(** [itertools.combinations(l, n)]: the length-[n] subsequences of [l],
    by position, in lexicographic order of the positions. *)
Fixpoint combinations {A : Type} (l : list A) (n : nat) : list (list A) :=
  match n, l with
  | O, _ => [[]]
  | S _, [] => []
  | S n', x :: l' => map (cons x) (combinations l' n') ++ combinations l' n
  end.

Record gene_combination : Type := mkGeneCombination {
  genes : list string;
  conds : list cond_stat;
  overall : overall_stat
}.

Definition sort_key (x : gene_combination) : R := ov_cv_inter (overall x).

(** [list.sort(key=...)] is stable and compares the keys with [<].  On
    a total order the result of a stable sort is determined by the
    input, so it is given here by insertion.  The exact keys are totally
    ordered; float keys are not when one is NaN, and [F64.list_sort] is
    [list.sort] as CPython runs it. *)
Fixpoint sort_insert {A : Type} (key : A → R) (x : A) (l : list A) : list A :=
  match l with
  | [] => [x]
  | y :: l' =>
      if Rlt_dec (key y) (key x) then y :: sort_insert key x l'
      else x :: y :: l'
  end.

Fixpoint py_sort {A : Type} (key : A → R) (l : list A) : list A :=
  match l with
  | [] => []
  | x :: l' => sort_insert key x (py_sort key l')
  end.

(** The subsets in the order of the two nested loops of [compute_all] *)
Definition gene_subsets (cand_genes : list string) : list (list string) :=
  concat (map (combinations cand_genes) (seq 1 (length cand_genes))).

Section Builtins.

(** Python's [float(s)] on a string ([None]: it raises [ValueError]) and
    [str(values)] on a list of floats and strings. *)
Variable float_of_string : string → option R.
Variable str_vals : list pyval → string.

(** [float(v)] *)
Definition py_float (v : pyval) : result R :=
  match v with
  | PFloat x => Ok x
  | PStr s =>
      match float_of_string s with
      | Some x => Ok x
      | None => Raise ValueError
      end
  end.

(** The first loop of [add]: every cell under a header that is not in
    [_non_data] is replaced by its float. *)
Fixpoint coerce_cells (non_data headers : list string) (idx : nat)
    (data : list pyval) : result (list pyval) :=
  match headers with
  | [] => Ok data
  | header :: rest =>
      if bool_decide (header ∈ non_data)
      then coerce_cells non_data rest (S idx) data
      else
        v ← py_index data idx;
        x ← py_float v;
        coerce_cells non_data rest (S idx) (<[idx := PFloat x]> data)
  end.

(** The second loop of [add]: a condition value is the float of the
    cell when it parses, the cell itself otherwise. *)
Definition cond_value (data : list pyval) (x : nat) : result pyval :=
  v ← py_index data x;
  match py_float v with
  | Ok f => Ok (PFloat f)
  | Raise _ => Ok v
  end.

(** [add].  On exact values [==] on the lists of condition values is
    equality; [F64.add] has the [==] of floats, for which [0.0 == -0.0]
    and NaN is unequal to itself. *)
Definition add (d : Data) (data : list pyval) : result Data :=
  data ← coerce_cells (_non_data d) (_headers d) 0 data;
  cond_values ← mapM (cond_value data) (_cond_idx d);
  control ← match _control_cond_vals d with
            | Some vals => Ok vals
            | None => Raise AttributeError
            end;
  let control_idx :=
    if decide (control = cond_values)
    then _control_idx d ++ [length (_data d)]
    else _control_idx d in
  let cond_label := str_vals cond_values in
  let '(groups, group_idx) :=
    match _cond_groups d !! cond_label with
    | None => (<[cond_label := []]> (_cond_groups d),
               _cond_group_idx d ++ [cond_values])
    | Some _ => (_cond_groups d, _cond_group_idx d)
    end in
  Ok {| _headers := _headers d;
        _non_data := _non_data d;
        _data := _data d ++ [data];
        _control_idx := control_idx;
        _cond_idx := _cond_idx d;
        _cond_groups := alter (λ g, g ++ [length (_data d)]) cond_label groups;
        _cond_group_idx := group_idx;
        _control_cond_vals := _control_cond_vals d |}.

(** The rows of a file, added one after the other as [read_file] does;
    the first exception aborts the load. *)
Fixpoint add_all (d : Data) (rows : list (list pyval)) : result Data :=
  match rows with
  | [] => Ok d
  | row :: rest => d' ← add d row; add_all d' rest
  end.

Definition condition_group (d : Data) (cond_values : list pyval) : result (list nat) :=
  match _cond_groups d !! str_vals cond_values with
  | Some g => Ok g
  | None => Raise (SystemExit 1)
  end.

(** ** Normalization factors *)

(** Per row: the product of the selected cells, then [1.0/len(genes)],
    then the power. *)
Definition compute_nf (d : Data) (genes : list string) : result (list R) :=
  let col_sel := map (λ header, bool_decide (header ∈ genes)) (_headers d) in
  mapM (λ row,
          p ← reduce_mul (compress row col_sel) 1%R;
          e ← py_div 1%R (INR (length genes));
          py_pow p e)
       (_data d).

Definition compute_inv_nf (d : Data) (genes : list string) : result (list R) :=
  nfs ← compute_nf d genes;
  mapM (λ x, py_div 1%R x) nfs.

Definition compute_inv_nf_vs_control (d : Data) (genes : list string) : result (list R) :=
  inv_nfs ← compute_inv_nf d genes;
  ctrl ← mapM (py_index inv_nfs) (control_rows d);
  avg_control ← py_div (py_sum ctrl) (INR (length (control_rows d)));
  mapM (λ x, py_div x avg_control) inv_nfs.

(** ** Statistics per condition group and overall *)

(** The statistics of one condition group, as the loop body of
    [compute_condition_stats] computes them from the control-normalized
    inverse factors [out]. *)
Definition group_stat (d : Data) (out : list R) (cond_values : list pyval)
    : result cond_stat :=
  group ← condition_group d cond_values;
  numbers ← mapM (py_index out) group;
  '(avg, stddev, stderr) ← compute_stats numbers;
  cv_intra ← py_div stddev avg;
  Ok {| st_cond := cond_values;
        st_avg := avg;
        st_stddev := stddev;
        st_stderr := stderr;
        st_cv_intra := cv_intra |}.

Definition compute_condition_stats (d : Data) (genes : list string)
    : result (list cond_stat) :=
  inv_nfs_vs_ctrl ← compute_inv_nf_vs_control d genes;
  mapM (group_stat d inv_nfs_vs_ctrl) (condition_values d).

Definition compute_overall_stats (d : Data) (genes : list string)
    : result overall_stat :=
  stats ← compute_condition_stats d genes;
  let avgs := map st_avg stats in
  '(avg, stddev, _) ← compute_stats avgs;
  let cumm := py_sum (map (λ x, Rabs (1 - x)) avgs) in
  cv_inter ← py_div stddev avg;
  Ok {| ov_avg := avg;
        ov_stddev := stddev;
        ov_cumm := cumm;
        ov_cv_inter := cv_inter |}.

(** ** Ranking all gene combinations *)

(** One record per subset, in the order of the two loops, then the sort *)
Definition compute_all (d : Data) (cand_genes : list string)
    : result (list gene_combination) :=
  gene_combinations ←
    mapM (λ genes,
            cond_stats ← compute_condition_stats d genes;
            overall_stats ← compute_overall_stats d genes;
            Ok {| genes := genes;
                  conds := cond_stats;
                  overall := overall_stats |})
         (gene_subsets cand_genes);
  Ok (py_sort sort_key gene_combinations).

End Builtins.

(** ** Messages *)

(** The newline that ends a message written to [sys.stderr] *)
Definition newline : string := String (ascii_of_nat 10) EmptyString.

(** ** Checking the column names *)

(** A column specification as [check_input] receives it: one name (the
    sample ID, a [str]) or a list of names *)
Inductive col_names : Type :=
  | OneName (s : string)
  | NameList (l : list string).

(** [if isinstance(cols, str): cols = [cols]] *)
Definition names_of (cols : col_names) : list string :=
  match cols with
  | OneName s => [s]
  | NameList l => l
  end.

Definition unknown_columns (cols : col_names) (headers : list string)
    : gset string :=
  let c_set : gset string := list_to_set (names_of cols) in
  let h_set : gset string := list_to_set headers in
  if decide (c_set ⊂ h_set) then ∅ else c_set ∖ h_set.

(** [not col_names] for a value that is not [None]: the empty string and
    the empty list *)
Definition no_names (cols : col_names) : bool :=
  match cols with
  | OneName s => bool_decide (s = ""%string)
  | NameList l => bool_decide (l = [])
  end.

Definition no_names_message (name : string) : string :=
  "### error: no column name(s) for " +:+ name
  +:+ " specified, check input data format" +:+ newline.

Section CheckInput.

(** The order in which Python iterates over a set *)
Variable set_iter : gset string → list string.

Definition unknown_message (name : string) (unknowns : gset string) : string :=
  "### error: no column for " +:+ name +:+ "(s) "
  +:+ String.concat "," (map (λ x, "'" +:+ x +:+ "'") (set_iter unknowns))
  +:+ " present, check input data format" +:+ newline.

(** [check_column] returns 4, 5 or nothing ([None]); beside the status,
    what it writes to [sys.stderr]. *)
Definition check_column (name : string) (cols : option col_names)
    (headers : list string) : option nat * list string :=
  match cols with
  | None => (Some 4, [no_names_message name])
  | Some c =>
      if no_names c then (Some 4, [no_names_message name])
      else
        let unknowns := unknown_columns c headers in
        if decide (unknowns = ∅) then (None, [])
        else (Some 5, [unknown_message name unknowns])
  end.

(** The loop of [check_input]: the first status that is true is returned. *)
Fixpoint check_columns (col_info : list (string * option col_names))
    (headers : list string) : nat * list string :=
  match col_info with
  | [] => (0, [])
  | (name, cols) :: rest =>
      match check_column name cols headers with
      | (Some status, out) =>
          if decide (status = 0)
          then let '(s, out') := check_columns rest headers in (s, out ++ out')
          else (status, out)
      | (None, out) =>
          let '(s, out') := check_columns rest headers in (s, out ++ out')
      end
  end.

Definition check_input (sample_col_name : option string)
    (cond_col_names : option (list string))
    (control_values : option (list pyval))
    (gene_col_names : option (list string))
    (headers : list string) : nat * list string :=
  check_columns
    [("sample ID"%string, OneName <$> sample_col_name);
     ("control"%string, NameList <$> cond_col_names);
     ("genes"%string, NameList <$> gene_col_names)]
    headers.

End CheckInput.

(** ** The rows of the result file *)

Definition header_row (d : Data) : list string :=
  ["gene combination"; "CV inter"]%string
  ++ map (λ i, "CV intra cond " +:+ pretty i) (seq 1 (nr_conditions d))
  ++ concat (map (λ i, map (λ q, q +:+ " cond " +:+ pretty i)
                           ["avg"; "stddev"; "stderr"]%string)
                 (seq 1 (nr_conditions d)))
  ++ ["avg 1/NF"; "stddev 1/NF"; "cummulative 1/NF"]%string.

Definition output_row (stats : gene_combination) : list pyval :=
  [PStr (String.concat " + " (genes stats));
   PFloat (ov_cv_inter (overall stats))]
  ++ map (λ cond, PFloat (st_cv_intra cond)) (conds stats)
  ++ concat (map (λ cond, [PFloat (st_avg cond); PFloat (st_stddev cond);
                           PFloat (st_stderr cond)])
                 (conds stats))
  ++ [PFloat (ov_avg (overall stats)); PFloat (ov_stddev (overall stats));
      PFloat (ov_cumm (overall stats))].

(** The rows [write_results] hands to the CSV writer, in order *)
Definition write_results (d : Data) (stats : list gene_combination)
    : list (list pyval) :=
  map PStr (header_row d) :: map output_row stats.

(** ** Selecting the genes *)

(** [l[i]] for a Python integer: a negative index counts from the end. *)
Definition py_getitem {A : Type} (l : list A) (i : Z) : result A :=
  if decide (0 ≤ i)%Z then py_index l (Z.to_nat i)
  else if decide (- Z.of_nat (length l) ≤ i)%Z
       then py_index l (Z.to_nat (Z.of_nat (length l) + i))
       else Raise IndexError.

(** The gene attributes of a [Data] object, beside the attributes of the
    table: [_gene_names] does not exist before [set_gene_col_names]
    (outer [None]) and may hold [None] (inner [None]); [_gene_idx] is
    [None] or a list of integers. *)
Record DataGenes : Type := mkDataGenes {
  table : Data;
  _gene_names : option (option (list string));
  _gene_idx : option (list Z)
}.

Definition set_gene_col_names (dg : DataGenes) (genes : option (list string))
    : DataGenes :=
  {| table := table dg; _gene_names := Some genes; _gene_idx := _gene_idx dg |}.

(** A list that is true: not [None] and not empty *)
Definition nonempty_list {A : Type} (l : option (list A)) : bool :=
  match l with
  | Some (_ :: _) => true
  | _ => false
  end.

(** [Data.genes]: the result and the object afterwards.  [sys.exit(3)]
    follows a message on [sys.stderr]. *)
Definition Data_genes (dg : DataGenes) (idx : option (list Z))
    : result (list string * DataGenes) :=
  match _gene_names dg with
  | None => Raise AttributeError
  | Some names =>
      match names with
      | Some (g :: rest) => Ok (g :: rest, dg)
      | _ =>
          match idx, _gene_idx dg with
          | None, None => Raise (SystemExit 3)
          | _, _ =>
              let dg' :=
                if nonempty_list idx
                then {| table := table dg; _gene_names := _gene_names dg;
                        _gene_idx := idx |}
                else dg in
              match _gene_idx dg' with
              | None => Raise TypeError
              | Some l =>
                  names ← mapM (py_getitem (_headers (table dg'))) l;
                  Ok (names, dg')
              end
          end
      end
  end.

(** ** Parsing the gene specification *)

(** White space as [\s] and [str.strip] see it *)
Definition is_space (c : ascii) : bool :=
  bool_decide (nat_of_ascii c ∈ [32; 9; 10; 11; 12; 13]).

(** A digit as [\d] sees it *)
Definition is_digit (c : ascii) : bool :=
  bool_decide (48 ≤ nat_of_ascii c ≤ 57).

Fixpoint lstrip (s : list ascii) : list ascii :=
  match s with
  | c :: s' => if is_space c then lstrip s' else s
  | [] => []
  end.

Definition rstrip (s : list ascii) : list ascii := reverse (lstrip (reverse s)).

(** [s.strip()] *)
Definition strip (s : list ascii) : list ascii := rstrip (lstrip s).

(** The pieces of [s] between its commas *)
Fixpoint split_commas (s : list ascii) : list (list ascii) :=
  match s with
  | [] => [[]]
  | c :: s' =>
      if decide (c = ","%char) then [] :: split_commas s'
      else match split_commas s' with
           | p :: ps => (c :: p) :: ps
           | [] => [[c]]
           end
  end.

(** The white space next to a comma belongs to the separator. *)
Fixpoint trim_pieces (first : bool) (pieces : list (list ascii))
    : list (list ascii) :=
  match pieces with
  | [] => []
  | [p] => [if first then p else lstrip p]
  | p :: rest =>
      (if first then rstrip p else rstrip (lstrip p)) :: trim_pieces false rest
  end.

(** [re.split(r'\s*,\s*', s)] *)
Definition re_split_commas (s : list ascii) : list (list ascii) :=
  trim_pieces true (split_commas s).

(** [\d+]: digits, at least one *)
Definition digits (s : list ascii) : bool :=
  bool_decide (s ≠ []) && forallb is_digit s.

(** [$] also matches before a newline that ends the string. *)
Definition before_final_newline (s : list ascii) : list ascii :=
  match reverse s with
  | c :: r => if decide (nat_of_ascii c = 10) then reverse r else s
  | [] => s
  end.

(** [re.match(r'^(\d+)$', s)]: the group *)
Definition match_number (s : list ascii) : option (list ascii) :=
  if digits s then Some s
  else if digits (before_final_newline s) then Some (before_final_newline s)
  else None.

(** [s] up to its first hyphen, and what follows the hyphen *)
Fixpoint break_hyphen (s : list ascii) : option (list ascii * list ascii) :=
  match s with
  | [] => None
  | c :: s' =>
      if decide (c = "-"%char) then Some ([], s')
      else match break_hyphen s' with
           | Some (a, b) => Some (c :: a, b)
           | None => None
           end
  end.

(** [re.match(r'^(\d+)-(\d+)$', s)]: the two groups *)
Definition match_range (s : list ascii) : option (list ascii * list ascii) :=
  match break_hyphen s with
  | Some (a, b) =>
      if digits a then
        match match_number b with
        | Some b' => Some (a, b')
        | None => None
        end
      else None
  | None => None
  end.

(** [int(s)] for a string of digits *)
Definition int_of_digits (s : list ascii) : Z :=
  fold_left (λ acc c, 10 * acc + (Z.of_nat (nat_of_ascii c) - 48))%Z s 0%Z.

(** What one part of the specification adds to [idx], and what it makes
    [compute_gene_idx] write to [sys.stderr] *)
Definition part_indices (gene_str : string) (part : list ascii)
    : list Z * list string :=
  match match_number (strip part) with
  | Some a => ([(int_of_digits a - 1)%Z], [])
  | None =>
      match match_range (strip part) with
      | Some (a, b) =>
          (seqZ (int_of_digits a - 1) (int_of_digits b - (int_of_digits a - 1)),
           [])
      | None =>
          ([], ["### error: invalid gene specs: " +:+ gene_str +:+ newline])
      end
  end.

(** [compute_gene_idx]: the indices, and the messages on [sys.stderr] *)
Definition compute_gene_idx (gene_str : string) : list Z * list string :=
  let parts := re_split_commas (list_ascii_of_string gene_str) in
  (concat (map (λ part, fst (part_indices gene_str part)) parts),
   concat (map (λ part, snd (part_indices gene_str part)) parts)).

(** * Vocabulary of the specification *)

(** ** Sums, products and the textbook statistics *)

(** The sum of a list of reals, as mathematics writes it *)
Definition Rsum (l : list R) : R := foldr Rplus 0%R l.

(** The product of a list of reals *)
Definition Rprod (l : list R) : R := foldr Rmult 1%R l.

(** The arithmetic mean *)
Definition mean (l : list R) : R := (Rsum l / INR (length l))%R.


(** ** Positions, first-seen order and enumeration order *)

(** The positions of [x] in [l], counted from [k], in increasing order *)
Fixpoint positions_from {A : Type} `{EqDecision A} (k : nat) (x : A)
    (l : list A) : list nat :=
  match l with
  | [] => []
  | y :: l' =>
      if decide (x = y) then k :: positions_from (S k) x l'
      else positions_from (S k) x l'
  end.

Definition positions {A : Type} `{EqDecision A} (x : A) (l : list A) : list nat :=
  positions_from 0 x l.

(** The elements of [l] whose key was not seen before, in order *)
Fixpoint first_seen_by {A K : Type} `{EqDecision K} (key : A → K)
    (seen : list K) (l : list A) : list A :=
  match l with
  | [] => []
  | x :: l' =>
      if decide (key x ∈ seen) then first_seen_by key seen l'
      else x :: first_seen_by key (key x :: seen) l'
  end.

(** The distinct elements of [l] in the order of their first occurrence *)
Definition distinct_first_seen {A : Type} `{EqDecision A} (l : list A) : list A :=
  first_seen_by (λ x : A, x) [] l.

(** Lexicographic order on lists of positions *)
Fixpoint lex_lt (a b : list nat) : Prop :=
  match a, b with
  | x :: a', y :: b' => x < y ∨ (x = y ∧ lex_lt a' b')
  | [], _ :: _ => True
  | _, _ => False
  end.

(** The candidates at the given positions *)
Definition pick (cand_genes : list string) (pos : list nat) : list string :=
  map (λ i, nth i cand_genes ""%string) pos.

(** The number of combinations of all sizes below [m] *)
Definition count_below {A : Type} (l : list A) (m : nat) : nat :=
  list_sum (map (λ n, length (combinations l n)) (seq 0 m)).

(** ** Tables *)

(** A table before its first row: [__init__] followed by any setters *)
Definition empty_table (d : Data) : Prop :=
  _data d = [] ∧ _control_idx d = [] ∧ _cond_groups d = ∅ ∧ _cond_group_idx d = [].

(** The table that [read_file] sets up once it has met the header row *)
Definition new_table (headers : list string) (sample : string)
    (conditions : list string) (control : list pyval) : Data :=
  set_control_vals
    (set_condition_col_names
       (set_sample_col_name (Data_init headers) sample) conditions)
    control.

(** A measurement: a float cell that is strictly positive *)
Definition positive_cell (c : pyval) : Prop := ∃ x, c = PFloat x ∧ (0 < x)%R.

(** Every stored cell in the columns that [genes] selects is a positive
    measurement. *)
Definition positive_columns (d : Data) (genes : list string) : Prop :=
  Forall (λ row,
            Forall positive_cell
              (compress row
                 (map (λ header, bool_decide (header ∈ genes)) (_headers d))))
         (_data d).

Section TableSpec.

Variable float_of_string : string → option R.
Variable str_vals : list pyval → string.

(** The condition-value tuple of a stored row *)
Definition row_cond_values (d : Data) (row : list pyval) : result (list pyval) :=
  mapM (cond_value float_of_string row) (_cond_idx d).

(** What [add] maintains, in terms of the condition tuples of the rows:
    the control rows are the positions of the control tuple, the group of
    a label holds the positions of that label, the catalogue lists the
    tuples whose label was new, and there is one group per catalogue
    entry. *)
Definition table_inv (d : Data) (tuples : list (list pyval)) : Prop :=
  Forall2 (λ row t, row_cond_values d row = Ok t) (_data d) tuples ∧
  (∀ c, _control_cond_vals d = Some c → _control_idx d = positions c tuples) ∧
  (_control_cond_vals d = None → _control_idx d = []) ∧
  (∀ L, _cond_groups d !! L =
        if decide (L ∈ map str_vals tuples)
        then Some (positions L (map str_vals tuples)) else None) ∧
  _cond_group_idx d = first_seen_by str_vals [] tuples ∧
  size (_cond_groups d) = length (_cond_group_idx d).

(** A table loaded as [read_file] does it: set up, then filled row by row *)
Definition loaded (d : Data) : Prop :=
  ∃ d0 rows, empty_table d0 ∧ add_all float_of_string str_vals d0 rows = Ok d.

End TableSpec.

(** ** Rows, column specifications and gene names *)

Section RowSpec.

Variable float_of_string : string → option R.

(** The cells of [data] under the data columns (the headers outside
    [non_data]), from header position [idx] on, all convert. *)
Definition cells_convert (non_data headers : list string) (idx : nat)
    (data : list pyval) : Prop :=
  ∀ j h, headers !! j = Some h → h ∉ non_data →
    ∃ v x, data !! (idx + j) = Some v ∧ py_float float_of_string v = Ok x.

End RowSpec.

(** The cells of a row under the data columns are floats. *)
Definition numeric_row (non_data headers : list string) (row : list pyval) : Prop :=
  ∀ j h, headers !! j = Some h → h ∉ non_data → ∃ x, row !! j = Some (PFloat x).

(** A specification that passes [check_column]: given, not empty, and
    naming headers only *)
Definition known_names (cols : option col_names) (headers : list string) : Prop :=
  ∃ c, cols = Some c ∧ no_names c = false ∧ names_of c ⊆ headers.

(** No gene names are stored: [_gene_names] is [None] or empty. *)
Definition no_gene_names (dg : DataGenes) : Prop :=
  _gene_names dg = Some None ∨ _gene_names dg = Some (Some []).

(** The items of [l] that are [eq] to none before them, nor to an item
    of [seen] *)
Fixpoint distinct_by {A : Type} (eq : A → A → bool) (seen l : list A) : list A :=
  match l with
  | [] => []
  | x :: l' =>
      if existsb (eq x) seen then distinct_by eq seen l'
      else x :: distinct_by eq (x :: seen) l'
  end.

(** * The computation on binary64 floats

    The definitions of this module follow the same source lines as the
    definitions above, with Python's floats as IEEE 754 binary64 numbers
    ([spec_float], precision 53, rounding to nearest even) instead of
    real numbers: sums and products round, overflow and underflow, carry
    infinities and NaN, and know two zeros.  C's [pow], which CPython
    calls for a finite positive base, is a parameter ([libm_pow]). *)
Module F64.

(** ** Floats *)

Definition float : Type := spec_float.

Definition prec : Z := 53.
Definition emax : Z := 1024.

Definition fadd : float → float → float := SFadd prec emax.
Definition fsub : float → float → float := SFsub prec emax.
Definition fmul : float → float → float := SFmul prec emax.
Definition fdiv : float → float → float := SFdiv prec emax.
Definition fsqrt : float → float := SFsqrt prec emax.
Definition fopp : float → float := SFopp.
Definition fabs : float → float := SFabs.

(** [x == y], [x < y] and [x <= y]: false when an operand is NaN *)
Definition feq : float → float → bool := SFeqb.
Definition flt : float → float → bool := SFltb.
Definition fle : float → float → bool := SFleb.

(** The float of an integer ([float(n)], and the conversion of an [int]
    operand) *)
Definition of_Z (z : Z) : float := binary_normalize prec emax z 0 false.

Definition zero : float := S754_zero false.
Definition one : float := of_Z 1.
Definition two : float := of_Z 2.

Definition is_nan (x : float) : bool :=
  match x with S754_nan => true | _ => false end.

Definition is_infinity (x : float) : bool :=
  match x with S754_infinity _ => true | _ => false end.

Definition sign_bit (x : float) : bool :=
  match x with
  | S754_zero s | S754_infinity s | S754_finite s _ _ => s
  | S754_nan => false
  end.

(** [x == floor(x)] for a finite [x] *)
Definition is_integer (x : float) : bool :=
  match x with
  | S754_zero _ => true
  | S754_finite _ m e =>
      if (0 <=? e)%Z then true else (Z.pos m mod 2 ^ (- e) =? 0)%Z
  | _ => false
  end.

(** [DOUBLE_IS_ODD_INTEGER(x)]: [fmod(fabs(x), 2.0) == 1.0] *)
Definition is_odd_integer (x : float) : bool :=
  match x with
  | S754_finite _ m e =>
      if (0 <? e)%Z then false
      else (Z.pos m mod 2 ^ (- e) =? 0)%Z && Z.odd (Z.pos m / 2 ^ (- e))
  | _ => false
  end.

Global Instance float_eq_dec : EqDecision float.
Proof. solve_decision. Defined.

(** ** Python values held in a row: a float or a string *)

Inductive pyval : Type :=
  | PFloat (x : float)
  | PStr (s : string).

Global Instance pyval_eq_dec : EqDecision pyval.
Proof. solve_decision. Defined.

(** [v == w] on cells: floats compare as floats (NaN equals nothing,
    the two zeros are equal), strings as strings, a float never equals a
    string. *)
Definition py_eq (v w : pyval) : bool :=
  match v, w with
  | PFloat x, PFloat y => feq x y
  | PStr s, PStr t => bool_decide (s = t)
  | _, _ => false
  end.

(** [l == k] on lists of cells that are not the same objects: the same
    length and equal items *)
Fixpoint py_list_eq (l k : list pyval) : bool :=
  match l, k with
  | [], [] => true
  | v :: l', w :: k' => py_eq v w && py_list_eq l' k'
  | _, _ => false
  end.

(** ** Float arithmetic as Python performs it *)

(** [x / y]: CPython tests [y == 0.0] before it divides. *)
Definition py_div (x y : float) : result float :=
  if feq y zero then Raise ZeroDivisionError else Ok (fdiv x y).

(** [math.sqrt(x)]: a NaN result for an argument that is not NaN is a
    domain error. *)
Definition py_sqrt (x : float) : result float :=
  if flt x zero then Raise ValueError else Ok (fsqrt x).

(** [sum(numbers)]: a left fold that starts at 0 *)
Definition py_sum (numbers : list float) : float := fold_left fadd numbers zero.

(** [x * y] where the accumulator [x] is a float and [y] is a cell *)
Definition py_mul (x : float) (y : pyval) : result float :=
  match y with
  | PFloat v => Ok (fmul x v)
  | PStr _ => Raise TypeError
  end.

(** [reduce(lambda x, y: x*y, cells, init)] *)
Fixpoint reduce_mul (cells : list pyval) (init : float) : result float :=
  match cells with
  | [] => Ok init
  | y :: rest => acc ← py_mul init y; reduce_mul rest acc
  end.

(** ** Result records *)

Record cond_stat : Type := mkCondStat {
  st_cond : list pyval;
  st_avg : float;
  st_stddev : float;
  st_stderr : float;
  st_cv_intra : float
}.

Record overall_stat : Type := mkOverallStat {
  ov_avg : float;
  ov_stddev : float;
  ov_cumm : float;
  ov_cv_inter : float
}.

Record gene_combination : Type := mkGeneCombination {
  genes : list string;
  conds : list cond_stat;
  overall : overall_stat
}.

Definition sort_key (x : gene_combination) : float := ov_cv_inter (overall x).

(** ** list.sort *)

(** [count_run] of CPython's [listsort]: the length of the run that
    starts the list, and whether it is strictly descending.  [lt x y] is
    [x < y] on the keys. *)
Fixpoint run_ascending {A : Type} (lt : A → A → bool) (prev : A) (l : list A)
    : nat :=
  match l with
  | [] => 0
  | x :: l' => if lt x prev then 0 else S (run_ascending lt x l')
  end.

Fixpoint run_descending {A : Type} (lt : A → A → bool) (prev : A) (l : list A)
    : nat :=
  match l with
  | [] => 0
  | x :: l' => if lt x prev then S (run_descending lt x l') else 0
  end.

Definition count_run {A : Type} (lt : A → A → bool) (l : list A) : nat * bool :=
  match l with
  | [] => (0, false)
  | [_] => (1, false)
  | x :: y :: l' =>
      if lt y x then (2 + run_descending lt y l', true)
      else (2 + run_ascending lt y l', false)
  end.

(** The binary search of [binarysort]: the slot of [pivot] in the sorted
    [prefix], between [l] and [r] *)
Fixpoint bisect {A : Type} (lt : A → A → bool) (prefix : list A) (pivot : A)
    (fuel l r : nat) : nat :=
  match fuel with
  | O => l
  | S fuel' =>
      if l <? r then
        let p := l + (r - l) / 2 in
        match prefix !! p with
        | Some y =>
            if lt pivot y then bisect lt prefix pivot fuel' l p
            else bisect lt prefix pivot fuel' (S p) r
        | None => l
        end
      else l
  end.

Definition binary_insert {A : Type} (lt : A → A → bool) (prefix : list A)
    (pivot : A) : list A :=
  let l := bisect lt prefix pivot (length prefix) 0 (length prefix) in
  take l prefix ++ pivot :: drop l prefix.

(** [binarysort]: the elements after the run are inserted one by one. *)
Definition binarysort {A : Type} (lt : A → A → bool) (run rest : list A)
    : list A :=
  fold_left (binary_insert lt) rest run.

(** [list.sort] on a list of fewer than 64 elements: the first run,
    reversed when it descends, then [binarysort].  From 64 elements on
    CPython sorts pieces of the list this way and merges them; the result
    is the same whenever [<] orders the keys totally, since a stable sort
    has one result then. *)
Definition list_sort {A : Type} (lt : A → A → bool) (l : list A) : list A :=
  let '(n, descending) := count_run lt l in
  let run := if descending then reverse (take n l) else take n l in
  binarysort lt run (drop n l).

(** ** The Data table *)

Record Data : Type := mkData {
  _headers : list string;
  _non_data : list string;
  _data : list (list pyval);
  _control_idx : list nat;
  _cond_idx : list nat;
  _cond_groups : gmap string (list nat);
  _cond_group_idx : list (list pyval);
  _control_cond_vals : option (list pyval)
}.

(** [Data.__init__] *)
Definition Data_init (headers : list string) : Data :=
  {| _headers := headers;
     _non_data := [];
     _data := [];
     _control_idx := [];
     _cond_idx := [];
     _cond_groups := ∅;
     _cond_group_idx := [];
     _control_cond_vals := None |}.

Definition set_condition_col_names (d : Data) (conditions : list string) : Data :=
  {| _headers := _headers d;
     _non_data := _non_data d ++ conditions;
     _data := _data d;
     _control_idx := _control_idx d;
     _cond_idx := cond_indices conditions (_headers d) 0;
     _cond_groups := _cond_groups d;
     _cond_group_idx := _cond_group_idx d;
     _control_cond_vals := _control_cond_vals d |}.

Definition set_control_vals (d : Data) (values : list pyval) : Data :=
  {| _headers := _headers d;
     _non_data := _non_data d;
     _data := _data d;
     _control_idx := _control_idx d;
     _cond_idx := _cond_idx d;
     _cond_groups := _cond_groups d;
     _cond_group_idx := _cond_group_idx d;
     _control_cond_vals := Some values |}.

Definition set_sample_col_name (d : Data) (sample : string) : Data :=
  {| _headers := _headers d;
     _non_data := _non_data d ++ [sample];
     _data := _data d;
     _control_idx := _control_idx d;
     _cond_idx := _cond_idx d;
     _cond_groups := _cond_groups d;
     _cond_group_idx := _cond_group_idx d;
     _control_cond_vals := _control_cond_vals d |}.

Definition condition_values (d : Data) : list (list pyval) := _cond_group_idx d.
Definition nr_conditions (d : Data) : nat := length (_cond_group_idx d).
Definition control_rows (d : Data) : list nat := _control_idx d.

Section Builtins.

(** Python's [float(s)] on a string ([None]: it raises [ValueError]),
    [str(values)] on a list of floats and strings, and C's [pow(x, y)]
    for a finite [x > 0] other than 1 and a finite [y] other than 0. *)
Variable float_of_string : string → option float.
Variable str_vals : list pyval → string.
Variable libm_pow : float → float → float.

(** [x ** y] on floats (CPython 2.7 [float_pow]).  The special cases are
    sorted out before [pow] is called; a result of [pow] that is infinite
    is the range error that becomes [OverflowError]. *)
Definition py_pow (x y : float) : result float :=
  if feq y zero then Ok one
  else if is_nan x then Ok x
  else if is_nan y then Ok (if feq x one then one else y)
  else if is_infinity y then
    (if feq (fabs x) one then Ok one
     else if Bool.eqb (flt zero y) (flt one (fabs x)) then Ok (fabs y)
     else Ok zero)
  else if is_infinity x then
    (if flt zero y then Ok (if is_odd_integer y then x else fabs x)
     else Ok (if is_odd_integer y then S754_zero (sign_bit x) else zero))
  else if feq x zero then
    (if flt y zero then Raise ZeroDivisionError
     else Ok (if is_odd_integer y then x else zero))
  else if flt x zero && negb (is_integer y) then Raise ValueError
  else
    let negate_result := flt x zero && is_odd_integer y in
    let iv := fabs x in
    if feq iv one then Ok (if negate_result then fopp one else one)
    else
      let ix := libm_pow iv y in
      if is_infinity ix then Raise OverflowError
      else Ok (if negate_result then fopp ix else ix).

(** ** compute_stats *)

(** [n] is [len(numbers)], an [int] that every operation here converts to
    a float.  The squares are computed first, then the standard
    deviation, so their exceptions come first. *)
Definition compute_stats (numbers : list float) : result (float * float * float) :=
  let n := of_Z (Z.of_nat (length numbers)) in
  let s := py_sum numbers in
  squares ← mapM (λ x, py_pow x two) numbers;
  let s2 := py_sum squares in
  s_sq ← py_pow s two;
  q ← py_div s_sq n;
  v ← py_div (fsub s2 q) (fsub n one);
  stddev ← py_sqrt v;
  avg ← py_div s n;
  rn ← py_sqrt n;
  stderr ← py_div stddev rn;
  Ok (avg, stddev, stderr).

(** [float(v)] *)
Definition py_float (v : pyval) : result float :=
  match v with
  | PFloat x => Ok x
  | PStr s =>
      match float_of_string s with
      | Some x => Ok x
      | None => Raise ValueError
      end
  end.

(** The first loop of [add] *)
Fixpoint coerce_cells (non_data headers : list string) (idx : nat)
    (data : list pyval) : result (list pyval) :=
  match headers with
  | [] => Ok data
  | header :: rest =>
      if bool_decide (header ∈ non_data)
      then coerce_cells non_data rest (S idx) data
      else
        v ← py_index data idx;
        x ← py_float v;
        coerce_cells non_data rest (S idx) (<[idx := PFloat x]> data)
  end.

(** The second loop of [add] *)
Definition cond_value (data : list pyval) (x : nat) : result pyval :=
  v ← py_index data x;
  match py_float v with
  | Ok f => Ok (PFloat f)
  | Raise _ => Ok v
  end.

(** [add]: the control test is [==] on the lists of values, the group
    key is [str] of the list. *)
Definition add (d : Data) (data : list pyval) : result Data :=
  data ← coerce_cells (_non_data d) (_headers d) 0 data;
  cond_values ← mapM (cond_value data) (_cond_idx d);
  control ← match _control_cond_vals d with
            | Some vals => Ok vals
            | None => Raise AttributeError
            end;
  let control_idx :=
    if py_list_eq control cond_values
    then _control_idx d ++ [length (_data d)]
    else _control_idx d in
  let cond_label := str_vals cond_values in
  let '(groups, group_idx) :=
    match _cond_groups d !! cond_label with
    | None => (<[cond_label := []]> (_cond_groups d),
               _cond_group_idx d ++ [cond_values])
    | Some _ => (_cond_groups d, _cond_group_idx d)
    end in
  Ok {| _headers := _headers d;
        _non_data := _non_data d;
        _data := _data d ++ [data];
        _control_idx := control_idx;
        _cond_idx := _cond_idx d;
        _cond_groups := alter (λ g, g ++ [length (_data d)]) cond_label groups;
        _cond_group_idx := group_idx;
        _control_cond_vals := _control_cond_vals d |}.

Fixpoint add_all (d : Data) (rows : list (list pyval)) : result Data :=
  match rows with
  | [] => Ok d
  | row :: rest => d' ← add d row; add_all d' rest
  end.

Definition condition_group (d : Data) (cond_values : list pyval) : result (list nat) :=
  match _cond_groups d !! str_vals cond_values with
  | Some g => Ok g
  | None => Raise (SystemExit 1)
  end.

(** ** Normalization factors *)

Definition compute_nf (d : Data) (genes : list string) : result (list float) :=
  let col_sel := map (λ header, bool_decide (header ∈ genes)) (_headers d) in
  mapM (λ row,
          p ← reduce_mul (compress row col_sel) one;
          e ← py_div one (of_Z (Z.of_nat (length genes)));
          py_pow p e)
       (_data d).

Definition compute_inv_nf (d : Data) (genes : list string) : result (list float) :=
  nfs ← compute_nf d genes;
  mapM (λ x, py_div one x) nfs.

Definition compute_inv_nf_vs_control (d : Data) (genes : list string)
    : result (list float) :=
  inv_nfs ← compute_inv_nf d genes;
  ctrl ← mapM (py_index inv_nfs) (control_rows d);
  avg_control ← py_div (py_sum ctrl) (of_Z (Z.of_nat (length (control_rows d))));
  mapM (λ x, py_div x avg_control) inv_nfs.

(** ** Statistics per condition group and overall *)

Definition group_stat (d : Data) (out : list float) (cond_values : list pyval)
    : result cond_stat :=
  group ← condition_group d cond_values;
  numbers ← mapM (py_index out) group;
  '(avg, stddev, stderr) ← compute_stats numbers;
  cv_intra ← py_div stddev avg;
  Ok {| st_cond := cond_values;
        st_avg := avg;
        st_stddev := stddev;
        st_stderr := stderr;
        st_cv_intra := cv_intra |}.

Definition compute_condition_stats (d : Data) (genes : list string)
    : result (list cond_stat) :=
  inv_nfs_vs_ctrl ← compute_inv_nf_vs_control d genes;
  mapM (group_stat d inv_nfs_vs_ctrl) (condition_values d).

Definition compute_overall_stats (d : Data) (genes : list string)
    : result overall_stat :=
  stats ← compute_condition_stats d genes;
  let avgs := map st_avg stats in
  '(avg, stddev, _) ← compute_stats avgs;
  let cumm := py_sum (map (λ x, fabs (fsub one x)) avgs) in
  cv_inter ← py_div stddev avg;
  Ok {| ov_avg := avg;
        ov_stddev := stddev;
        ov_cumm := cumm;
        ov_cv_inter := cv_inter |}.

(** ** Ranking all gene combinations *)

Definition compute_all (d : Data) (cand_genes : list string)
    : result (list gene_combination) :=
  gene_combinations ←
    mapM (λ genes,
            cond_stats ← compute_condition_stats d genes;
            overall_stats ← compute_overall_stats d genes;
            Ok {| genes := genes;
                  conds := cond_stats;
                  overall := overall_stats |})
         (gene_subsets cand_genes);
  Ok (list_sort (λ a b, flt (sort_key a) (sort_key b)) gene_combinations).

End Builtins.

(** ** Tables, in the words of the specification *)

(** A table before its first row: [__init__] followed by any setters *)
Definition empty_table (d : Data) : Prop :=
  _data d = [] ∧ _control_idx d = [] ∧ _cond_groups d = ∅ ∧ _cond_group_idx d = [].

(** The table that [read_file] sets up once it has met the header row *)
Definition new_table (headers : list string) (sample : string)
    (conditions : list string) (control : list pyval) : Data :=
  set_control_vals
    (set_condition_col_names
       (set_sample_col_name (Data_init headers) sample) conditions)
    control.

Section TableSpec.

Variable float_of_string : string → option float.
Variable str_vals : list pyval → string.

(** A condition value as the specification describes it: coerced to a
    float where it parses, kept as text otherwise *)
Definition coerced (c : pyval) : pyval :=
  match c with
  | PFloat x => PFloat x
  | PStr s =>
      match float_of_string s with
      | Some x => PFloat x
      | None => PStr s
      end
  end.

(** The condition-value tuple of a row as it was read: the coerced cells
    of the condition columns, in the order of these columns ([None] for
    a row that is too short) *)
Definition coerced_tuple (cond_idx : list nat) (raw : list pyval)
    : option (list pyval) :=
  mapM (λ x, coerced <$> raw !! x) cond_idx.

(** The condition-value tuple of a stored row, as [add] computes it *)
Definition row_cond_values (d : Data) (row : list pyval) : result (list pyval) :=
  mapM (cond_value float_of_string row) (_cond_idx d).

(** What [add] maintains, in terms of the condition tuples of the rows:
    the control rows are the rows whose tuple [==] the control values,
    the group of a label holds the rows whose tuple has that label, the
    catalogue lists the tuples whose label was new, and there is one
    group per catalogue entry. *)
Definition table_inv (d : Data) (tuples : list (list pyval)) : Prop :=
  Forall2 (λ row t, row_cond_values d row = Ok t) (_data d) tuples ∧
  (∀ c, _control_cond_vals d = Some c →
        _control_idx d = positions true (map (py_list_eq c) tuples)) ∧
  (_control_cond_vals d = None → _control_idx d = []) ∧
  (∀ L, _cond_groups d !! L =
        if decide (L ∈ map str_vals tuples)
        then Some (positions L (map str_vals tuples)) else None) ∧
  _cond_group_idx d = first_seen_by str_vals [] tuples ∧
  size (_cond_groups d) = length (_cond_group_idx d).

(** A table loaded as [read_file] does it: set up, then filled row by row *)
Definition loaded (d : Data) : Prop :=
  ∃ d0 rows, empty_table d0 ∧ add_all float_of_string str_vals d0 rows = Ok d.

End TableSpec.

End F64.

(** The place of a float in the order, as a triple compared
    lexicographically *)
Definition float_rank (x : F64.float) : Z * Z * Z :=
  match x with
  | S754_infinity true => (-2, 0, 0)%Z
  | S754_finite true m e => (-1, - e, - Z.pos m)%Z
  | S754_zero _ => (0, 0, 0)%Z
  | S754_finite false m e => (1, e, Z.pos m)%Z
  | S754_infinity false => (2, 0, 0)%Z
  | S754_nan => (3, 0, 0)%Z
  end.

Definition rank_lt (a b : Z * Z * Z) : Prop :=
  let '(a1, a2, a3) := a in
  let '(b1, b2, b3) := b in
  (a1 < b1 ∨ (a1 = b1 ∧ (a2 < b2 ∨ (a2 = b2 ∧ a3 < b3))))%Z.

(** * Worked tables *)

(** The cells of the worked tables that [float] parses *)
Definition scenario_float (s : string) : option R :=
  if decide (s = "2") then Some 2%R
  else if decide (s = "4") then Some 4%R
  else if decide (s = "8") then Some 8%R
  else if decide (s = "16") then Some 16%R
  else None.

(** [repr] of a condition value, as far as the worked tables need it *)
Definition scenario_repr (v : pyval) : string :=
  match v with
  | PFloat _ => "float"
  | PStr s => "'" +:+ s +:+ "'"
  end.

(** [str] of a condition tuple: the bracketed, comma-separated [repr]s *)
Definition scenario_str (vals : list pyval) : string :=
  "[" +:+ String.concat ", " (map scenario_repr vals) +:+ "]".

Definition scenario_headers : list string := ["id"; "cond"; "A"; "B"].

(** Four samples in two condition groups, two genes *)
Definition scenario_rows : list (list pyval) :=
  [ [PStr "s1"; PStr "ctl"; PStr "2"; PStr "4"];
    [PStr "s2"; PStr "ctl"; PStr "2"; PStr "4"];
    [PStr "s3"; PStr "trt"; PStr "8"; PStr "16"];
    [PStr "s4"; PStr "trt"; PStr "8"; PStr "16"] ].

(** The table after reading the four rows with control [cond = ctl] *)
Definition scenario_table : Data :=
  {| _headers := scenario_headers;
     _non_data := ["id"; "cond"];
     _data := [ [PStr "s1"; PStr "ctl"; PFloat 2; PFloat 4];
                [PStr "s2"; PStr "ctl"; PFloat 2; PFloat 4];
                [PStr "s3"; PStr "trt"; PFloat 8; PFloat 16];
                [PStr "s4"; PStr "trt"; PFloat 8; PFloat 16] ];
     _control_idx := [0; 1];
     _cond_idx := [1];
     _cond_groups := <["['trt']" := [2; 3]]> (<["['ctl']" := [0; 1]]> ∅);
     _cond_group_idx := [[PStr "ctl"]; [PStr "trt"]];
     _control_cond_vals := Some [PStr "ctl"] |}.

(** The same rows with a control value that no row has *)
Definition no_control_table : Data :=
  {| _headers := scenario_headers;
     _non_data := ["id"; "cond"];
     _data := [ [PStr "s1"; PStr "ctl"; PFloat 2; PFloat 4];
                [PStr "s2"; PStr "ctl"; PFloat 2; PFloat 4];
                [PStr "s3"; PStr "trt"; PFloat 8; PFloat 16];
                [PStr "s4"; PStr "trt"; PFloat 8; PFloat 16] ];
     _control_idx := [];
     _cond_idx := [1];
     _cond_groups := <["['trt']" := [2; 3]]> (<["['ctl']" := [0; 1]]> ∅);
     _cond_group_idx := [[PStr "ctl"]; [PStr "trt"]];
     _control_cond_vals := Some [PStr "none"] |}.

(** The first three rows only: the group [trt] has a single sample *)
Definition single_sample_table : Data :=
  {| _headers := scenario_headers;
     _non_data := ["id"; "cond"];
     _data := [ [PStr "s1"; PStr "ctl"; PFloat 2; PFloat 4];
                [PStr "s2"; PStr "ctl"; PFloat 2; PFloat 4];
                [PStr "s3"; PStr "trt"; PFloat 8; PFloat 16] ];
     _control_idx := [0; 1];
     _cond_idx := [1];
     _cond_groups := <["['trt']" := [2]]> (<["['ctl']" := [0; 1]]> ∅);
     _cond_group_idx := [[PStr "ctl"]; [PStr "trt"]];
     _control_cond_vals := Some [PStr "ctl"] |}.

(** The condition tuples of the four rows *)
Definition scenario_tuples : list (list pyval) :=
  [[PStr "ctl"]; [PStr "ctl"]; [PStr "trt"]; [PStr "trt"]].

(** The statistics the scenario gives the two groups, for every subset *)
Definition scenario_ctl_stat : cond_stat :=
  {| st_cond := [PStr "ctl"]; st_avg := 1; st_stddev := 0; st_stderr := 0;
     st_cv_intra := 0 |}.

Definition scenario_trt_stat : cond_stat :=
  {| st_cond := [PStr "trt"]; st_avg := 1 / 4; st_stddev := 0; st_stderr := 0;
     st_cv_intra := 0 |}.

(** The overall statistics the scenario gives every subset *)
Definition scenario_overall : overall_stat :=
  {| ov_avg := 5 / 8; ov_stddev := sqrt (9 / 32); ov_cumm := 3 / 4;
     ov_cv_inter := sqrt (9 / 32) / (5 / 8) |}.

(** The record of a subset in the scenario *)
Definition scenario_record (g : list string) : gene_combination :=
  {| genes := g;
     conds := [scenario_ctl_stat; scenario_trt_stat];
     overall := scenario_overall |}.

(** The scenario's table before any gene name is configured *)
Definition scenario_genes : DataGenes :=
  {| table := scenario_table; _gene_names := Some None; _gene_idx := None |}.

(** ** Worked tables on binary64 floats *)

(** [s] up to the first character that [p] accepts, and what follows it *)
Fixpoint break_at (p : ascii → bool) (s : list ascii)
    : list ascii * option (list ascii) :=
  match s with
  | [] => ([], None)
  | c :: s' =>
      if p c then ([], Some s')
      else let '(a, b) := break_at p s' in (c :: a, b)
  end.

(** A sign in front of [s], and the rest *)
Definition take_sign (s : list ascii) : bool * list ascii :=
  match s with
  | c :: s' =>
      if decide (c = "-"%char) then (true, s')
      else if decide (c = "+"%char) then (false, s')
      else (false, s)
  | [] => (false, s)
  end.

(** The float nearest to [m * 10 ^ k], ties to even, with sign [neg] *)
Definition decimal_float (neg : bool) (m k : Z) : F64.float :=
  if (m =? 0)%Z then S754_zero neg
  else if (0 <=? k)%Z
  then binary_normalize F64.prec F64.emax
         (if neg then - (m * 10 ^ k) else m * 10 ^ k)%Z 0 false
  else SFdiv F64.prec F64.emax
         (S754_finite neg (Z.to_pos m) 0)
         (S754_finite false (Z.to_pos (10 ^ (- k))) 0).

(** [float(s)] for the strings of the worked tables: [nan], [inf],
    [-inf] and the decimal literals (a sign, digits with or without a
    fraction, an exponent); [None] for any other string *)
Definition b64_float (s : string) : option F64.float :=
  if decide (s = "nan") then Some S754_nan
  else if decide (s = "inf") then Some (S754_infinity false)
  else if decide (s = "-inf") then Some (S754_infinity true)
  else
    let '(neg, body) := take_sign (list_ascii_of_string s) in
    let '(mant, exp) :=
      break_at (λ c, bool_decide (c = "e"%char ∨ c = "E"%char)) body in
    let '(ip, fp) := break_at (λ c, bool_decide (c = "."%char)) mant in
    let fp := default [] fp in
    if digits (ip ++ fp) then
      match exp with
      | None =>
          Some (decimal_float neg (int_of_digits (ip ++ fp))
                  (- Z.of_nat (length fp)))
      | Some e =>
          let '(eneg, ed) := take_sign e in
          if digits ed then
            Some (decimal_float neg (int_of_digits (ip ++ fp))
                    ((if eneg then - int_of_digits ed else int_of_digits ed)
                     - Z.of_nat (length fp)))
          else None
      end
    else None.

(** The integer a float is equal to, when it is one *)
Definition integer_value (x : F64.float) : option Z :=
  match x with
  | S754_zero _ => Some 0%Z
  | S754_finite s m e =>
      if F64.is_integer x
      then Some ((if s then -1 else 1)
                 * (if (0 <=? e)%Z then Z.pos m * 2 ^ e
                    else Z.pos m / 2 ^ (- e)))%Z
      else None
  | _ => None
  end.

(** [repr(x)] for a float: as Python prints NaN, the infinities, the
    zeros and the integers below [10 ^ 16]; any other float gets its
    mantissa and exponent for a label, which tells two floats apart as
    [repr] does *)
Definition b64_repr_float (x : F64.float) : string :=
  match x with
  | S754_nan => "nan"
  | S754_infinity s => if s then "-inf" else "inf"
  | S754_zero s => if s then "-0.0" else "0.0"
  | S754_finite s m e =>
      match integer_value x with
      | Some z =>
          if (Z.abs z <? 10 ^ 16)%Z then pretty z +:+ ".0"
          else (if s then "-" else "") +:+ pretty (Z.pos m) +:+ "*2**" +:+ pretty e
      | None => (if s then "-" else "") +:+ pretty (Z.pos m) +:+ "*2**" +:+ pretty e
      end
  end.

Definition b64_repr (v : F64.pyval) : string :=
  match v with
  | F64.PFloat x => b64_repr_float x
  | F64.PStr s => "'" +:+ s +:+ "'"
  end.

(** [str] of a list of condition values *)
Definition b64_str (vals : list F64.pyval) : string :=
  "[" +:+ String.concat ", " (map b64_repr vals) +:+ "]".

(** C's [pow(x, y)] for the exponents with which the worked tables call
    it: the base itself for the exponent 1, the rounded product [x * x]
    for the exponent 2, the rounded square root for the exponent 1/2.
    (No other exponent occurs there; the value for one is a placeholder.) *)
Definition b64_pow (x y : F64.float) : F64.float :=
  if F64.feq y F64.one then x
  else if F64.feq y F64.two then F64.fmul x x
  else if F64.feq y (F64.fdiv F64.one F64.two) then F64.fsqrt x
  else S754_nan.

(** A measurement on floats: a float cell above [0.0] *)
Definition positive_cell64 (c : F64.pyval) : bool :=
  match c with
  | F64.PFloat x => F64.flt F64.zero x
  | F64.PStr _ => false
  end.

Definition positive_columns64 (d : F64.Data) (genes : list string) : bool :=
  forallb (λ row,
             forallb positive_cell64
               (compress row
                  (map (λ header, bool_decide (header ∈ genes)) (F64._headers d))))
          (F64._data d).

(** The floats [0.1], [1e200] and [1e-200] *)
Definition tenth : F64.float := S754_finite false 7205759403792794 (-56).
Definition huge : F64.float := S754_finite false 5883593420661338 612.
Definition tiny : F64.float := S754_finite false 6894565328877484 (-717).

Definition dose_headers : list string := ["id"; "dose"; "A"; "B"].

(** Four samples at two doses, each dose written in two ways *)
Definition dose_rows : list (list F64.pyval) :=
  [ [F64.PStr "s1"; F64.PStr "2"; F64.PStr "2"; F64.PStr "2"];
    [F64.PStr "s2"; F64.PStr "2.0"; F64.PStr "2"; F64.PStr "2"];
    [F64.PStr "s3"; F64.PStr "10"; F64.PStr "8"; F64.PStr "2"];
    [F64.PStr "s4"; F64.PStr "1e1"; F64.PStr "8"; F64.PStr "2"] ].

Definition dose_tuples : list (list F64.pyval) :=
  [ [F64.PFloat (F64.of_Z 2)]; [F64.PFloat (F64.of_Z 2)];
    [F64.PFloat (F64.of_Z 10)]; [F64.PFloat (F64.of_Z 10)] ].

(** The table after reading the four rows with control [dose = 2] *)
Definition dose_table : F64.Data :=
  {| F64._headers := dose_headers;
     F64._non_data := ["id"; "dose"];
     F64._data :=
       [ [F64.PStr "s1"; F64.PStr "2";
          F64.PFloat (F64.of_Z 2); F64.PFloat (F64.of_Z 2)];
         [F64.PStr "s2"; F64.PStr "2.0";
          F64.PFloat (F64.of_Z 2); F64.PFloat (F64.of_Z 2)];
         [F64.PStr "s3"; F64.PStr "10";
          F64.PFloat (F64.of_Z 8); F64.PFloat (F64.of_Z 2)];
         [F64.PStr "s4"; F64.PStr "1e1";
          F64.PFloat (F64.of_Z 8); F64.PFloat (F64.of_Z 2)] ];
     F64._control_idx := [0; 1];
     F64._cond_idx := [1];
     F64._cond_groups := <["[10.0]" := [2; 3]]> (<["[2.0]" := [0; 1]]> ∅);
     F64._cond_group_idx :=
       [[F64.PFloat (F64.of_Z 2)]; [F64.PFloat (F64.of_Z 10)]];
     F64._control_cond_vals := Some [F64.PFloat (F64.of_Z 2)] |}.

(** Two samples whose dose is written [0] and [-0], control [dose = 0] *)
Definition zero_rows : list (list F64.pyval) :=
  [ [F64.PStr "s1"; F64.PStr "0"; F64.PStr "2"; F64.PStr "2"];
    [F64.PStr "s2"; F64.PStr "-0"; F64.PStr "2"; F64.PStr "2"] ].

Definition zero_tuples : list (list F64.pyval) :=
  [ [F64.PFloat (S754_zero false)]; [F64.PFloat (S754_zero true)] ].

Definition zero_table : F64.Data :=
  {| F64._headers := dose_headers;
     F64._non_data := ["id"; "dose"];
     F64._data :=
       [ [F64.PStr "s1"; F64.PStr "0";
          F64.PFloat (F64.of_Z 2); F64.PFloat (F64.of_Z 2)];
         [F64.PStr "s2"; F64.PStr "-0";
          F64.PFloat (F64.of_Z 2); F64.PFloat (F64.of_Z 2)] ];
     F64._control_idx := [0; 1];
     F64._cond_idx := [1];
     F64._cond_groups := <["[-0.0]" := [1]]> (<["[0.0]" := [0]]> ∅);
     F64._cond_group_idx :=
       [[F64.PFloat (S754_zero false)]; [F64.PFloat (S754_zero true)]];
     F64._control_cond_vals := Some [F64.PFloat (S754_zero false)] |}.

(** Two control samples with measurements [1e-200] *)
Definition tiny_rows : list (list F64.pyval) :=
  [ [F64.PStr "s1"; F64.PStr "2"; F64.PStr "1e-200"; F64.PStr "1e-200"];
    [F64.PStr "s2"; F64.PStr "2"; F64.PStr "1e-200"; F64.PStr "1e-200"] ].

Definition tiny_table : F64.Data :=
  {| F64._headers := dose_headers;
     F64._non_data := ["id"; "dose"];
     F64._data :=
       [ [F64.PStr "s1"; F64.PStr "2"; F64.PFloat tiny; F64.PFloat tiny];
         [F64.PStr "s2"; F64.PStr "2"; F64.PFloat tiny; F64.PFloat tiny] ];
     F64._control_idx := [0; 1];
     F64._cond_idx := [1];
     F64._cond_groups := <["[2.0]" := [0; 1]]> ∅;
     F64._cond_group_idx := [[F64.PFloat (F64.of_Z 2)]];
     F64._control_cond_vals := Some [F64.PFloat (F64.of_Z 2)] |}.

(** Two samples at dose 2 and a single sample at dose 10 *)
Definition lone_rows : list (list F64.pyval) :=
  [ [F64.PStr "s1"; F64.PStr "2"; F64.PStr "2"; F64.PStr "2"];
    [F64.PStr "s2"; F64.PStr "2"; F64.PStr "2"; F64.PStr "2"];
    [F64.PStr "s3"; F64.PStr "10"; F64.PStr "8"; F64.PStr "2"] ].

Definition lone_table : F64.Data :=
  {| F64._headers := dose_headers;
     F64._non_data := ["id"; "dose"];
     F64._data :=
       [ [F64.PStr "s1"; F64.PStr "2";
          F64.PFloat (F64.of_Z 2); F64.PFloat (F64.of_Z 2)];
         [F64.PStr "s2"; F64.PStr "2";
          F64.PFloat (F64.of_Z 2); F64.PFloat (F64.of_Z 2)];
         [F64.PStr "s3"; F64.PStr "10";
          F64.PFloat (F64.of_Z 8); F64.PFloat (F64.of_Z 2)] ];
     F64._control_idx := [0; 1];
     F64._cond_idx := [1];
     F64._cond_groups := <["[10.0]" := [2]]> (<["[2.0]" := [0; 1]]> ∅);
     F64._cond_group_idx :=
       [[F64.PFloat (F64.of_Z 2)]; [F64.PFloat (F64.of_Z 10)]];
     F64._control_cond_vals := Some [F64.PFloat (F64.of_Z 2)] |}.

Definition nan_headers : list string := ["id"; "dose"; "A"; "B"; "C"].

(** Four samples at two doses; the measurements of gene B are [nan] *)
Definition nan_rows : list (list F64.pyval) :=
  [ [F64.PStr "s1"; F64.PStr "2"; F64.PStr "2"; F64.PStr "nan"; F64.PStr "2"];
    [F64.PStr "s2"; F64.PStr "2"; F64.PStr "2"; F64.PStr "nan"; F64.PStr "2"];
    [F64.PStr "s3"; F64.PStr "10"; F64.PStr "8"; F64.PStr "nan"; F64.PStr "2"];
    [F64.PStr "s4"; F64.PStr "10"; F64.PStr "8"; F64.PStr "nan"; F64.PStr "2"] ].

Definition nan_table : F64.Data :=
  {| F64._headers := nan_headers;
     F64._non_data := ["id"; "dose"];
     F64._data :=
       [ [F64.PStr "s1"; F64.PStr "2"; F64.PFloat (F64.of_Z 2);
          F64.PFloat S754_nan; F64.PFloat (F64.of_Z 2)];
         [F64.PStr "s2"; F64.PStr "2"; F64.PFloat (F64.of_Z 2);
          F64.PFloat S754_nan; F64.PFloat (F64.of_Z 2)];
         [F64.PStr "s3"; F64.PStr "10"; F64.PFloat (F64.of_Z 8);
          F64.PFloat S754_nan; F64.PFloat (F64.of_Z 2)];
         [F64.PStr "s4"; F64.PStr "10"; F64.PFloat (F64.of_Z 8);
          F64.PFloat S754_nan; F64.PFloat (F64.of_Z 2)] ];
     F64._control_idx := [0; 1];
     F64._cond_idx := [1];
     F64._cond_groups := <["[10.0]" := [2; 3]]> (<["[2.0]" := [0; 1]]> ∅);
     F64._cond_group_idx :=
       [[F64.PFloat (F64.of_Z 2)]; [F64.PFloat (F64.of_Z 10)]];
     F64._control_cond_vals := Some [F64.PFloat (F64.of_Z 2)] |}.

(** The ranking keys of the gene combinations of [nan_table] that have
    one: [0.8485...] for A and [0.4714...] for A with C *)
Definition key_A : F64.float := S754_finite false 7642862007030926 (-53).
Definition key_AC : F64.float := S754_finite false 8492068896701031 (-54).

(** * Properties *)

(** ** The result monad *)

Lemma bind_ret_l {A B : Type} (a : A) (f : A → result B) : Ok a ≫= f = f a.
Proof. reflexivity. Qed.

Lemma bind_raise_l {A B : Type} (e : exn) (f : A → result B) :
  Raise e ≫= f = Raise e.
Proof. reflexivity. Qed.

Ltac result_simpl := rewrite ?bind_ret_l, ?bind_raise_l.

Lemma bind_Ok {A B : Type} (m : result A) (f : A → result B) (b : B) :
  m ≫= f = Ok b ↔ ∃ a, m = Ok a ∧ f a = Ok b.
Proof.
  destruct m as [a|e]; simpl; split.
  - intros H; exists a; auto.
  - intros (a' & E & H); congruence.
  - discriminate.
  - intros (a' & E & H); discriminate.
Qed.

Lemma mapM_Ok {A B : Type} (f : A → result B) (l : list A) (k : list B) :
  mapM f l = Ok k ↔ Forall2 (λ x y, f x = Ok y) l k.
Proof.
  revert k; induction l as [|x l IH]; intros k; simpl.
  - split.
    + intros E; injection E as <-; constructor.
    + intros H; inversion H; reflexivity.
  - split.
    + intros E. apply bind_Ok in E as (y & Hy & E).
      apply bind_Ok in E as (k' & Hk' & E). injection E as <-.
      constructor; [exact Hy|]. apply IH, Hk'.
    + intros H; inversion H as [|? y ? k' Hy Hk']; subst.
      apply IH in Hk'. rewrite Hy; simpl. rewrite Hk'; reflexivity.
Qed.

Lemma mapM_Ok_length {A B : Type} (f : A → result B) (l : list A) (k : list B) :
  mapM f l = Ok k → length k = length l.
Proof. intros H; apply mapM_Ok, Forall2_length in H; congruence. Qed.

Lemma mapM_Ok_lookup {A B : Type} (f : A → result B) (l : list A) (k : list B)
    (i : nat) (x : A) :
  mapM f l = Ok k → l !! i = Some x → ∃ y, k !! i = Some y ∧ f x = Ok y.
Proof.
  intros H Hx. apply mapM_Ok in H.
  destruct (Forall2_lookup_l _ _ _ _ _ H Hx) as (y & Hy & Hf); eauto.
Qed.

Lemma mapM_total {A B : Type} (f : A → result B) (l : list A) :
  Forall (λ x, ∃ y, f x = Ok y) l → ∃ k, mapM f l = Ok k.
Proof.
  induction 1 as [|x l [y Hy] _ [k Hk]]; simpl.
  - eexists; reflexivity.
  - rewrite Hy; simpl. rewrite Hk; simpl. eexists; reflexivity.
Qed.

Lemma mapM_pure {A B : Type} (f : A → result B) (g : A → B) (l : list A) :
  Forall (λ x, f x = Ok (g x)) l → mapM f l = Ok (map g l).
Proof.
  induction 1 as [|x l Hx _ IH]; simpl; [reflexivity|].
  rewrite Hx; simpl. rewrite IH; reflexivity.
Qed.

(** The first element on which [f] raises decides the exception. *)
Lemma mapM_Raise_at {A B : Type} (f : A → result B) (l1 l2 : list A) (x : A)
    (e : exn) :
  Forall (λ x, ∃ y, f x = Ok y) l1 → f x = Raise e →
  mapM f (l1 ++ x :: l2) = Raise e.
Proof.
  induction 1 as [|x1 l1 [y Hy] _ IH]; intros Hx; simpl.
  - rewrite Hx; reflexivity.
  - rewrite Hy; simpl. rewrite (IH Hx); reflexivity.
Qed.

(** ** Sums *)

Lemma Rsum_cons (x : R) (l : list R) : Rsum (x :: l) = (x + Rsum l)%R.
Proof. reflexivity. Qed.

Lemma fold_left_Rplus (l : list R) (a : R) :
  fold_left Rplus l a = (a + Rsum l)%R.
Proof.
  revert a; induction l as [|x l IH]; intros a; simpl; [lra|].
  rewrite IH; lra.
Qed.

Lemma py_sum_Rsum (l : list R) : py_sum l = Rsum l.
Proof. unfold py_sum; rewrite fold_left_Rplus; lra. Qed.

Lemma Rsum_app (l k : list R) : Rsum (l ++ k) = (Rsum l + Rsum k)%R.
Proof. induction l as [|x l IH]; simpl; [lra|rewrite IH; lra]. Qed.

Lemma Rsum_pos (l : list R) : l ≠ [] → Forall (λ x, 0 < x)%R l → (0 < Rsum l)%R.
Proof.
  intros Hne H; destruct H as [|x l Hx Hl]; [congruence|clear Hne].
  simpl. assert (0 <= Rsum l)%R; [|lra].
  induction Hl as [|y l Hy _ IH]; simpl; lra.
Qed.

Lemma Rsum_scale (c : R) (l : list R) :
  Rsum (map (λ x, x / c)%R l) = (Rsum l / c)%R.
Proof. induction l as [|x l IH]; simpl; [lra|rewrite IH; lra]. Qed.

(** Twice a cross term is below the squares: the step of Cauchy-Schwarz. *)
Lemma cross_term_bound (x : R) (l : list R) :
  (2 * x * Rsum l <= INR (length l) * x ^ 2 + Rsum (map (λ y, y ^ 2) l))%R.
Proof.
  induction l as [|y l IH]; [simpl; lra|].
  rewrite length_cons, S_INR, map_cons, !Rsum_cons.
  pose proof (pow2_ge_0 (x - y)). nra.
Qed.

Lemma sum_sq_bound (l : list R) :
  (Rsum l ^ 2 <= INR (length l) * Rsum (map (λ y, y ^ 2) l))%R.
Proof.
  induction l as [|x l IH]; [simpl; lra|].
  rewrite length_cons, S_INR, map_cons, !Rsum_cons.
  pose proof (cross_term_bound x l). nra.
Qed.

(** The radicand of [compute_stats] is never negative in exact arithmetic. *)
Lemma variance_nonneg (l : list R) :
  2 ≤ length l →
  (0 <= (Rsum (map (λ y, y ^ 2) l) - Rsum l ^ 2 / INR (length l))
        / (INR (length l) - 1))%R.
Proof.
  intros Hn. apply le_INR in Hn. simpl INR in Hn.
  pose proof (sum_sq_bound l) as Hb.
  set (n := INR (length l)) in *. set (s := Rsum l) in *.
  set (q := Rsum (map (λ y, (y ^ 2)%R) l)) in *.
  apply Rmult_le_pos; [|left; apply Rinv_0_lt_compat; lra].
  assert (Hq : (q - s ^ 2 / n = (n * q - s ^ 2) / n)%R) by (field; lra).
  rewrite Hq. apply Rmult_le_pos; [lra|left; apply Rinv_0_lt_compat; lra].
Qed.

(** ** compute_stats *)

Lemma py_div_Ok (x y : R) : y ≠ 0%R → py_div x y = Ok (x / y)%R.
Proof. intros H; unfold py_div; destruct (decide (y = 0%R)); [contradiction|reflexivity]. Qed.

Lemma mapM_py_div (c : R) (l : list R) :
  c ≠ 0%R → mapM (λ x, py_div x c) l = Ok (map (λ x, x / c)%R l).
Proof.
  intros Hc. apply mapM_pure, Forall_forall. intros x _. apply py_div_Ok, Hc.
Qed.

Lemma py_div_zero (x : R) : py_div x 0 = Raise ZeroDivisionError.
Proof. unfold py_div; destruct (decide (0%R = 0%R)); [reflexivity|contradiction]. Qed.

Lemma py_div_inv (x y z : R) : py_div x y = Ok z → y ≠ 0%R ∧ z = (x / y)%R.
Proof.
  unfold py_div; destruct (decide (y = 0%R)); [discriminate|].
  intros E; injection E as <-; auto.
Qed.

Lemma py_div_Raise (x y : R) (e : exn) :
  py_div x y = Raise e → y = 0%R ∧ e = ZeroDivisionError.
Proof.
  unfold py_div; destruct (decide (y = 0%R)); [|discriminate].
  intros E; injection E as <-; auto.
Qed.

Lemma py_sqrt_Ok (x : R) : (0 <= x)%R → py_sqrt x = Ok (sqrt x).
Proof. intros H; unfold py_sqrt; destruct (Rlt_dec x 0); [lra|reflexivity]. Qed.

(** Below two values the sample standard deviation divides by zero:
    [s**2/n] for no value, [(...)/(n - 1.0)] for one. *)
Lemma compute_stats_degenerate (numbers : list R) :
  length numbers < 2 → compute_stats numbers = Raise ZeroDivisionError.
Proof.
  destruct numbers as [|x [|y l]]; simpl length; intros H; [| |lia].
  - unfold compute_stats; simpl length; simpl INR.
    rewrite (py_div_zero (py_sum [] ^ 2)); reflexivity.
  - unfold compute_stats; simpl length; simpl INR.
    rewrite (py_div_Ok (py_sum [x] ^ 2)) by lra; simpl.
    replace (1 - 1)%R with 0%R by lra.
    rewrite (py_div_zero (_ - _)); reflexivity.
Qed.

Lemma compute_stats_total (numbers : list R) :
  2 ≤ length numbers →
  compute_stats numbers =
    Ok ((Rsum numbers / INR (length numbers))%R,
        sqrt ((Rsum (map (λ v, v ^ 2)%R numbers)
               - Rsum numbers ^ 2 / INR (length numbers))
              / (INR (length numbers) - 1)),
        (sqrt ((Rsum (map (λ v, v ^ 2)%R numbers)
                - Rsum numbers ^ 2 / INR (length numbers))
               / (INR (length numbers) - 1))
         / sqrt (INR (length numbers)))%R).
Proof.
  intros Hn. pose proof (variance_nonneg numbers Hn) as Hv.
  assert (Hn2 : (2 <= INR (length numbers))%R).
  { apply le_INR in Hn. simpl INR in Hn. lra. }
  unfold compute_stats. rewrite !py_sum_Rsum.
  rewrite (py_div_Ok (_ ^ 2)) by lra; result_simpl.
  rewrite (py_div_Ok (_ - _)) by lra; result_simpl.
  rewrite (py_sqrt_Ok (_ / _)) by exact Hv; result_simpl.
  rewrite (py_div_Ok (Rsum numbers)) by lra; result_simpl.
  rewrite py_sqrt_Ok by lra; result_simpl.
  rewrite py_div_Ok; [reflexivity|].
  intros H0. apply sqrt_eq_0 in H0; lra.
Qed.




(** ** Powers and products *)

Lemma Rprod_pos (l : list R) : Forall (λ x, 0 < x)%R l → (0 < Rprod l)%R.
Proof.
  induction 1 as [|x l Hx _ IH]; simpl; [lra|].
  apply Rmult_lt_0_compat; assumption.
Qed.

Lemma reduce_mul_floats (vs : list R) (init : R) :
  reduce_mul (map PFloat vs) init = Ok (init * Rprod vs)%R.
Proof.
  revert init; induction vs as [|v vs IH]; intros init; simpl.
  - f_equal; lra.
  - rewrite IH. f_equal; lra.
Qed.

Lemma reduce_mul_Ok (cells : list pyval) (init p : R) :
  reduce_mul cells init = Ok p →
  ∃ vs, cells = map PFloat vs ∧ p = (init * Rprod vs)%R.
Proof.
  revert init; induction cells as [|c cells IH]; intros init; simpl.
  - intros E; injection E as <-. exists []; split; [reflexivity|simpl; lra].
  - destruct c as [v|s]; simpl; [|discriminate].
    intros E. destruct (IH _ E) as (vs & -> & ->).
    exists (v :: vs); split; [reflexivity|simpl; lra].
Qed.

Lemma reduce_mul_Raise (cells : list pyval) (init : R) (e : exn) :
  reduce_mul cells init = Raise e → e = TypeError.
Proof.
  revert init; induction cells as [|c cells IH]; intros init; simpl.
  - discriminate.
  - destruct c as [v|s]; simpl; [apply IH|congruence].
Qed.

Lemma py_pow_pos (x y : R) : (0 < x)%R → py_pow x y = Ok (Rpower x y).
Proof.
  intros Hx. unfold py_pow.
  destruct (decide (y = 0%R)) as [->|Hy].
  - rewrite Rpower_O by exact Hx; reflexivity.
  - destruct (decide (x = 0%R)); [lra|].
    destruct (Rlt_dec x 0); [lra|reflexivity].
Qed.

(** [x**2], which [compute_stats] writes, is the square for every [x]:
    the model writes it [x ^ 2]. *)
Lemma py_pow_two (x : R) : py_pow x 2 = Ok (x ^ 2)%R.
Proof.
  unfold py_pow.
  destruct (decide (2%R = 0%R)) as [E|_]; [lra|].
  destruct (decide (x = 0%R)) as [->|Hx0].
  - destruct (Rlt_dec 2 0); [lra|]. f_equal. ring.
  - destruct (Rlt_dec x 0) as [Hneg|Hpos].
    + destruct (Int_part_frac_part_spec 2 2 0) as [Hi Hf]; [lra|simpl; lra|].
      rewrite <- Hf, <- Hi.
      destruct (decide (0%R = 0%R)); [|contradiction]. reflexivity.
    + f_equal. replace 2%R with (INR 2) by (simpl; lra).
      apply Rpower_pow. lra.
Qed.

Lemma Rpower_1_l (y : R) : Rpower 1 y = 1%R.
Proof. unfold Rpower. rewrite ln_1, Rmult_0_r. apply exp_0. Qed.

Lemma Rpower_gt_0 (x y : R) : (0 < Rpower x y)%R.
Proof. unfold Rpower. apply exp_pos. Qed.

(** The exponent [1.0/len(genes)] *)
Lemma root_exponent (n : nat) :
  0 < n → (0 < 1 / INR n <= 1)%R.
Proof.
  intros Hn. assert (1 <= INR n)%R by (apply (le_INR 1); lia).
  split.
  - apply Rdiv_lt_0_compat; lra.
  - apply Rmult_le_reg_r with (INR n); [lra|].
    unfold Rdiv. rewrite Rmult_assoc, Rinv_l by lra. lra.
Qed.

Lemma frac_part_small (y : R) : (0 <= y < 1)%R → frac_part y = y.
Proof.
  intros Hy. destruct (Int_part_frac_part_spec y 0 y Hy) as [_ E]; [simpl; lra|].
  symmetry; exact E.
Qed.

Lemma Int_part_1 : Int_part 1 = 1%Z.
Proof. symmetry. apply Int_part_spec. simpl. lra. Qed.

(** What [p ** (1.0/n)] returns is an [n]-th root of [p]. *)
Lemma py_pow_root (p r : R) (n : nat) :
  0 < n → py_pow p (1 / INR n) = Ok r → (r ^ n = p)%R.
Proof.
  intros Hn. pose proof (root_exponent n Hn) as [He0 He1].
  assert (Hn1 : (1 <= INR n)%R) by (apply (le_INR 1); lia).
  unfold py_pow.
  destruct (decide ((1 / INR n)%R = 0%R)) as [E|_]; [lra|].
  destruct (decide (p = 0%R)) as [->|Hp0].
  - destruct (Rlt_dec (1 / INR n) 0); [lra|].
    intros E; injection E as <-. apply pow_i; lia.
  - destruct (Rlt_dec p 0) as [Hneg|Hpos].
    + destruct (decide (frac_part (1 / INR n) = 0%R)) as [Hf|Hf]; [|discriminate].
      assert (E1 : (1 / INR n)%R = 1%R).
      { destruct (Rle_lt_or_eq_dec _ _ He1) as [Hlt|Heq]; [|exact Heq].
        rewrite frac_part_small in Hf by lra. lra. }
      assert (En : n = 1).
      { apply INR_eq. simpl INR.
        apply (f_equal (λ t, t * INR n)%R) in E1.
        unfold Rdiv in E1. rewrite Rmult_assoc, Rinv_l in E1 by lra. lra. }
      rewrite E1, Int_part_1. intros E; injection E as <-.
      subst n. simpl. lra.
    + intros E; injection E as <-.
      assert (Hp : (0 < p)%R) by lra.
      rewrite <- Rpower_pow by apply Rpower_gt_0.
      rewrite Rpower_mult.
      replace (1 / INR n * INR n)%R with 1%R by (field; lra).
      apply Rpower_1, Hp.
Qed.

Lemma py_pow_Raise (p : R) (n : nat) (e : exn) :
  0 < n → py_pow p (1 / INR n) = Raise e → e = ValueError ∧ (p < 0)%R.
Proof.
  intros Hn. pose proof (root_exponent n Hn) as [He0 He1].
  unfold py_pow.
  destruct (decide ((1 / INR n)%R = 0%R)) as [E|_]; [lra|].
  destruct (decide (p = 0%R)) as [->|Hp0].
  - destruct (Rlt_dec (1 / INR n) 0); [lra|discriminate].
  - destruct (Rlt_dec p 0) as [Hneg|Hpos]; [|discriminate].
    destruct (decide (frac_part (1 / INR n) = 0%R)); [discriminate|].
    intros E; injection E as <-; auto.
Qed.

(** ** compress *)

Lemma compress_none {A : Type} (row : list A) (selectors : list bool) :
  Forall (λ s, s = false) selectors → compress row selectors = [].
Proof.
  intros H; revert row; induction H as [|s sel -> _ IH]; intros [|c row];
    simpl; auto.
Qed.

Lemma col_sel_app_unknown (headers genes unknown : list string) :
  (∀ g, g ∈ unknown → g ∉ headers) →
  map (λ header, bool_decide (header ∈ genes ++ unknown)) headers =
  map (λ header, bool_decide (header ∈ genes)) headers.
Proof.
  intros Hu. apply map_ext_in. intros h Hh.
  apply list_elem_of_In in Hh.
  apply bool_decide_ext. rewrite elem_of_app. split; [|auto].
  intros [H|H]; [exact H|]. exfalso; exact (Hu h H Hh).
Qed.

(** ** Normalization factors *)

Lemma mapM_Ok_map {A B : Type} (f : A → result B) (g : A → B) (l : list A)
    (k : list B) :
  mapM f l = Ok k → (∀ x y, x ∈ l → f x = Ok y → y = g x) → k = map g l.
Proof.
  intros H Hg. apply mapM_Ok in H.
  induction H as [|x y l k Hxy _ IH]; [reflexivity|].
  simpl. f_equal.
  - apply Hg; [left|exact Hxy].
  - apply IH. intros x' y' Hx'. apply Hg. right; exact Hx'.
Qed.

Lemma compute_inv_nf_Ok (d : Data) (genes : list string) (nfs invs : list R) :
  compute_nf d genes = Ok nfs →
  compute_inv_nf d genes = Ok invs →
  invs = map (λ nf, 1 / nf)%R nfs ∧ Forall (λ nf, nf ≠ 0%R) nfs.
Proof.
  intros Hnf H. unfold compute_inv_nf in H. rewrite Hnf in H.
  rewrite bind_ret_l in H. split.
  - apply (mapM_Ok_map _ _ _ _ H). intros x y _ Hxy.
    apply py_div_inv in Hxy as [_ ->]; reflexivity.
  - apply mapM_Ok in H. apply Forall_forall. intros x Hx.
    apply list_elem_of_lookup in Hx as [i Hi].
    destruct (Forall2_lookup_l _ _ _ _ _ H Hi) as (y & _ & Hy).
    apply py_div_inv in Hy as [Hne _]; exact Hne.
Qed.

Lemma mapM_inv_cases (nfs : list R) :
  (Forall (λ x, x ≠ 0%R) nfs ∧
   mapM (λ x, py_div 1 x) nfs = Ok (map (λ x, 1 / x)%R nfs)) ∨
  (0%R ∈ nfs ∧ mapM (λ x, py_div 1 x) nfs = Raise ZeroDivisionError).
Proof.
  induction nfs as [|x nfs IH]; simpl.
  - left. split; [constructor|reflexivity].
  - destruct (decide (x = 0%R)) as [->|Hx].
    + right. split; [left|]. rewrite py_div_zero. reflexivity.
    + rewrite py_div_Ok, bind_ret_l by exact Hx.
      destruct IH as [[Hall ->]|[Hin ->]].
      * left. split; [constructor; assumption|reflexivity].
      * right. split; [right; exact Hin|reflexivity].
Qed.


(** C10. Names of the subset that are no header select no column: a
    non-empty subset without any header name gives 1.0 for every row, and
    appending unknown names to a subset only changes the exponent, which
    counts every supplied name. *)
Theorem compute_nf_unknown_genes (d : Data) (genes unknown : list string) :
  (∀ g, g ∈ unknown → g ∉ _headers d) →
  (unknown ≠ [] → compute_nf d unknown = Ok (map (λ _, 1%R) (_data d))) ∧
  compute_nf d (genes ++ unknown) =
    mapM (λ row,
            p ← reduce_mul
                  (compress row
                     (map (λ header, bool_decide (header ∈ genes)) (_headers d)))
                  1%R;
            e ← py_div 1%R (INR (length genes + length unknown));
            py_pow p e)
         (_data d).
Proof.
  intros Hu. split.
  - intros Hne. unfold compute_nf. apply mapM_pure, Forall_forall.
    intros row _. rewrite compress_none.
    + simpl reduce_mul. rewrite bind_ret_l.
      rewrite py_div_Ok; [rewrite bind_ret_l|].
      * rewrite py_pow_pos by lra. rewrite Rpower_1_l; reflexivity.
      * destruct unknown; [congruence|]. rewrite length_cons, S_INR.
        pose proof (pos_INR (length unknown)). lra.
    + apply Forall_forall. intros s Hs.
      apply list_elem_of_In, in_map_iff in Hs as (h & <- & Hh).
      apply bool_decide_eq_false. intros Hin.
      apply list_elem_of_In in Hh. exact (Hu h Hin Hh).
  - unfold compute_nf. rewrite (col_sel_app_unknown _ _ _ Hu), length_app.
    reflexivity.
Qed.

(** ** Grouping: positions of a key and first-seen order *)

Section Grouping.

Context {A : Type} `{EqDecision A}.

Lemma positions_from_snoc (k : nat) (x y : A) (l : list A) :
  positions_from k x (l ++ [y]) =
  positions_from k x l ++ (if decide (x = y) then [k + length l] else []).
Proof.
  revert k; induction l as [|z l IH]; intros k; simpl.
  - rewrite Nat.add_0_r. destruct (decide (x = y)); reflexivity.
  - rewrite IH. replace (S k + length l) with (k + S (length l)) by lia.
    destruct (decide (x = z)); reflexivity.
Qed.

Lemma elem_of_positions_from (k i : nat) (x : A) (l : list A) :
  i ∈ positions_from k x l ↔ k ≤ i ∧ l !! (i - k) = Some x.
Proof.
  revert k; induction l as [|z l IH]; intros k; simpl.
  - rewrite elem_of_nil. split; [tauto|]. intros [_ H']; discriminate.
  - assert (Hstep : i ∈ positions_from (S k) x l ↔
                    S k ≤ i ∧ (z :: l) !! (i - k) = Some x).
    { rewrite IH. split; intros [Hle Hl]; (split; [exact Hle|]).
      - replace (i - k) with (S (i - S k)) by lia. exact Hl.
      - replace (i - k) with (S (i - S k)) in Hl by lia. exact Hl. }
    destruct (decide (x = z)) as [->|Hne].
    + rewrite elem_of_cons, Hstep. split.
      * intros [->|[Hle Hl]]; [|split; [lia|exact Hl]].
        split; [lia|]. rewrite Nat.sub_diag; reflexivity.
      * intros [Hle Hl]. destruct (decide (i = k)) as [->|Hik]; [left; reflexivity|].
        right. split; [lia|exact Hl].
    + rewrite Hstep. split.
      * intros [Hle Hl]; split; [lia|exact Hl].
      * intros [Hle Hl]. split; [|exact Hl].
        destruct (decide (i = k)) as [->|Hik]; [|lia].
        rewrite Nat.sub_diag in Hl. simpl in Hl. congruence.
Qed.

Lemma elem_of_positions (i : nat) (x : A) (l : list A) :
  i ∈ positions x l ↔ l !! i = Some x.
Proof.
  unfold positions. rewrite elem_of_positions_from, Nat.sub_0_r.
  split; [tauto|]. intros Hl; split; [lia|exact Hl].
Qed.

Lemma positions_from_lower (k i : nat) (x : A) (l : list A) :
  i ∈ positions_from k x l → k ≤ i.
Proof. rewrite elem_of_positions_from; tauto. Qed.

Lemma NoDup_positions_from (k : nat) (x : A) (l : list A) :
  NoDup (positions_from k x l).
Proof.
  revert k; induction l as [|z l IH]; intros k; simpl; [constructor|].
  destruct (decide (x = z)); [|apply IH].
  constructor; [|apply IH].
  intros Hin. apply positions_from_lower in Hin. lia.
Qed.

Lemma positions_nil_iff (x : A) (l : list A) : positions x l = [] ↔ x ∉ l.
Proof.
  split.
  - intros E Hin. apply list_elem_of_lookup in Hin as [i Hi].
    apply elem_of_positions in Hi. rewrite E in Hi. inversion Hi.
  - intros Hnin. destruct (positions x l) as [|i p] eqn:E; [reflexivity|].
    exfalso. apply Hnin. apply list_elem_of_lookup. exists i.
    apply elem_of_positions. rewrite E. left.
Qed.

Lemma positions_lt (i : nat) (x : A) (l : list A) :
  i ∈ positions x l → i < length l.
Proof. rewrite elem_of_positions. apply lookup_lt_Some. Qed.

End Grouping.

Section FirstSeen.

Context {A K : Type} `{EqDecision K}.
Variable key : A → K.

Lemma first_seen_by_snoc (seen : list K) (l : list A) (x : A) :
  first_seen_by key seen (l ++ [x]) =
  first_seen_by key seen l ++
    (if decide (key x ∈ seen ++ map key l) then [] else [x]).
Proof.
  revert seen; induction l as [|y l IH]; intros seen; simpl.
  - rewrite app_nil_r. destruct (decide (key x ∈ seen)); reflexivity.
  - destruct (decide (key y ∈ seen)) as [Hy|Hy]; rewrite IH.
    + erewrite decide_ext; [reflexivity|].
      rewrite ?elem_of_app, ?elem_of_cons, ?elem_of_app. split; [tauto|].
      intros [?|[->|?]]; auto.
    + simpl. erewrite decide_ext; [reflexivity|].
      rewrite ?elem_of_app, ?elem_of_cons, ?elem_of_app. tauto.
Qed.

Lemma elem_of_first_seen_by (seen : list K) (l : list A) (x : A) :
  x ∈ first_seen_by key seen l → x ∈ l ∧ key x ∉ seen.
Proof.
  revert seen; induction l as [|y l IH]; intros seen; simpl.
  - intros H'; inversion H'.
  - destruct (decide (key y ∈ seen)) as [Hy|Hy].
    + intros Hin. destruct (IH _ Hin). split; [right|]; assumption.
    + rewrite elem_of_cons. intros [->|Hin]; [split; [left|exact Hy]|].
      destruct (IH _ Hin) as [Hl Hs]. split; [right; exact Hl|].
      intros H'; apply Hs; right; exact H'.
Qed.

Lemma first_seen_by_keys (seen : list K) (l : list A) (k : K) :
  k ∈ map key (first_seen_by key seen l) ↔ k ∈ map key l ∧ k ∉ seen.
Proof.
  revert seen; induction l as [|y l IH]; intros seen; simpl.
  - rewrite elem_of_nil; tauto.
  - destruct (decide (key y ∈ seen)) as [Hy|Hy].
    + rewrite IH, elem_of_cons. split; [tauto|].
      intros [[->|Hk] Hs]; [contradiction|tauto].
    + simpl. rewrite !elem_of_cons, IH, elem_of_cons.
      destruct (decide (k = key y)) as [->|Hne]; tauto.
Qed.

Lemma NoDup_first_seen_by_keys (seen : list K) (l : list A) :
  NoDup (map key (first_seen_by key seen l)).
Proof.
  revert seen; induction l as [|y l IH]; intros seen; simpl; [constructor|].
  destruct (decide (key y ∈ seen)); [apply IH|].
  simpl. constructor; [|apply IH].
  rewrite first_seen_by_keys. rewrite elem_of_cons. tauto.
Qed.

End FirstSeen.

Lemma first_seen_by_injective {A K : Type} `{EqDecision A} `{EqDecision K}
    (key : A → K) (seen : list A) (l : list A) :
  (∀ x y, x ∈ seen ++ l → y ∈ seen ++ l → key x = key y → x = y) →
  first_seen_by key (map key seen) l = first_seen_by (λ x : A, x) seen l.
Proof.
  revert seen; induction l as [|z l IH]; intros seen Hinj; simpl; [reflexivity|].
  assert (Hiff : key z ∈ map key seen ↔ z ∈ seen).
  { split.
    - intros Hin. apply list_elem_of_In, in_map_iff in Hin as (w & Hw & Hin).
      apply list_elem_of_In in Hin.
      rewrite <- (Hinj w z); [exact Hin| | |exact Hw].
      + apply elem_of_app; left; exact Hin.
      + apply elem_of_app; right; left.
    - intros Hin. apply list_elem_of_In, in_map. apply list_elem_of_In, Hin. }
  cbv beta.
  destruct (decide (key z ∈ map key seen)) as [Hk|Hk];
    destruct (decide (z ∈ seen)) as [Hz|Hz]; try tauto.
  - apply IH. intros x y Hx Hy. apply Hinj.
    + apply elem_of_app in Hx as [?|?]; apply elem_of_app; [left|right; right]; auto.
    + apply elem_of_app in Hy as [?|?]; apply elem_of_app; [left|right; right]; auto.
  - f_equal. apply (IH (z :: seen)). intros x y Hx Hy. apply Hinj.
    + apply elem_of_app in Hx as [Hx|?]; apply elem_of_app;
        [apply elem_of_cons in Hx as [->|?]; [right; left|left; auto]|right; right; auto].
    + apply elem_of_app in Hy as [Hy|?]; apply elem_of_app;
        [apply elem_of_cons in Hy as [->|?]; [right; left|left; auto]|right; right; auto].
Qed.

Lemma distinct_first_seen_elem {A : Type} `{EqDecision A} (l : list A) (x : A) :
  x ∈ distinct_first_seen l ↔ x ∈ l.
Proof.
  unfold distinct_first_seen.
  pose proof (first_seen_by_keys (λ x : A, x) [] l x) as H'.
  rewrite !map_id in H'. rewrite H', elem_of_nil. tauto.
Qed.

Lemma distinct_first_seen_NoDup {A : Type} `{EqDecision A} (l : list A) :
  NoDup (distinct_first_seen l).
Proof.
  unfold distinct_first_seen.
  pose proof (NoDup_first_seen_by_keys (λ x : A, x) [] l) as H'.
  rewrite map_id in H'. exact H'.
Qed.

(** The number of distinct elements, whichever way they are listed *)
Lemma distinct_first_seen_length {A : Type} `{EqDecision A} (l : list A) :
  length (distinct_first_seen l) = length (remove_dups l).
Proof.
  apply Permutation_length, NoDup_Permutation.
  - apply distinct_first_seen_NoDup.
  - apply NoDup_remove_dups.
  - intros x. rewrite distinct_first_seen_elem, elem_of_remove_dups. tauto.
Qed.

(** ** The table built by add *)

Lemma map_size_alter {V : Type} (f : V → V) (k : string) (m : gmap string V) :
  size (alter f k m) = size m.
Proof. rewrite <- !(size_dom (D := gset string)), dom_alter_L. reflexivity. Qed.

Lemma new_table_empty (headers : list string) (sample : string)
    (conditions : list string) (control : list pyval) :
  empty_table (new_table headers sample conditions control).
Proof. repeat split. Qed.

Section Table.

Variable float_of_string : string → option R.
Variable str_vals : list pyval → string.

Lemma empty_table_inv (d : Data) : empty_table d → table_inv float_of_string str_vals d [].
Proof.
  intros (Hd & Hc & Hg & Hi). unfold table_inv.
  rewrite Hd, Hc, Hg, Hi. repeat split; constructor.
Qed.

Lemma add_frame (d d' : Data) (row : list pyval) :
  add float_of_string str_vals d row = Ok d' →
  _headers d' = _headers d ∧ _non_data d' = _non_data d ∧
  _cond_idx d' = _cond_idx d ∧ _control_cond_vals d' = _control_cond_vals d ∧
  ∃ data, coerce_cells float_of_string (_non_data d) (_headers d) 0 row = Ok data ∧
          _data d' = _data d ++ [data].
Proof.
  unfold add. intros H.
  apply bind_Ok in H as (data & Hdata & H).
  apply bind_Ok in H as (cv & Hcv & H).
  apply bind_Ok in H as (control & Hctl & H).
  destruct (_cond_groups d !! str_vals cv); injection H as <-; simpl;
    repeat split; eauto.
Qed.

Lemma add_inv (d d' : Data) (tuples : list (list pyval)) (row : list pyval) :
  table_inv float_of_string str_vals d tuples →
  add float_of_string str_vals d row = Ok d' →
  ∃ t, table_inv float_of_string str_vals d' (tuples ++ [t]).
Proof.
  intros (Hrows & Hctl & _ & Hgrp & Hidx & Hsize) H.
  pose proof (Forall2_length _ _ _ Hrows) as Hlen.
  unfold add in H.
  apply bind_Ok in H as (data & Hdata & H).
  apply bind_Ok in H as (cv & Hcv & H).
  apply bind_Ok in H as (control & Hcontrol & H).
  destruct (_control_cond_vals d) as [c|] eqn:Ec; [|discriminate].
  injection Hcontrol as Hc; subst control.
  exists cv.
  assert (Hpos : ∀ L, positions L (map str_vals (tuples ++ [cv])) =
                      positions L (map str_vals tuples) ++
                      (if decide (L = str_vals cv) then [length (_data d)] else [])).
  { intros L. rewrite map_app. simpl map. unfold positions.
    rewrite positions_from_snoc, length_map, <- Hlen. reflexivity. }
  assert (Hmem : ∀ L, L ∈ map str_vals (tuples ++ [cv]) ↔
                      L ∈ map str_vals tuples ∨ L = str_vals cv).
  { intros L. rewrite map_app, elem_of_app. simpl map.
    rewrite list_elem_of_singleton. reflexivity. }
  specialize (Hctl c eq_refl).
  pose proof (Hgrp (str_vals cv)) as Hcur.
  destruct (_cond_groups d !! str_vals cv) as [g|] eqn:Eg;
    injection H as <-; unfold table_inv; simpl.
  - (* the label was seen before *)
    destruct (decide (str_vals cv ∈ map str_vals tuples)) as [Hin|Hin];
      [|discriminate].
    injection Hcur as ->.
    split; [|split; [|split; [|split; [|split]]]].
    + apply Forall2_app; [exact Hrows|]. constructor; [exact Hcv|constructor].
    + intros c' Ec'. injection Ec' as <-. unfold positions.
      rewrite positions_from_snoc, <- Hlen. fold (positions c tuples).
      rewrite <- Hctl. simpl.
      destruct (decide (c = cv)); [reflexivity|rewrite app_nil_r; reflexivity].
    + discriminate.
    + intros L. rewrite Hpos.
      destruct (decide (L = str_vals cv)) as [->|Hne].
      * rewrite lookup_alter_eq, Eg. simpl.
        destruct (decide (str_vals cv ∈ map str_vals (tuples ++ [cv]))) as [_|N];
          [reflexivity|].
        exfalso; apply N, Hmem; right; reflexivity.
      * rewrite lookup_alter_ne by congruence. rewrite Hgrp, app_nil_r.
        apply decide_ext. rewrite Hmem. tauto.
    + rewrite first_seen_by_snoc, Hidx. simpl.
      destruct (decide (str_vals cv ∈ map str_vals tuples)); [|contradiction].
      rewrite app_nil_r; reflexivity.
    + rewrite map_size_alter. exact Hsize.
  - (* a new label *)
    destruct (decide (str_vals cv ∈ map str_vals tuples)) as [Hin|Hin];
      [discriminate|].
    split; [|split; [|split; [|split; [|split]]]].
    + apply Forall2_app; [exact Hrows|]. constructor; [exact Hcv|constructor].
    + intros c' Ec'. injection Ec' as <-. unfold positions.
      rewrite positions_from_snoc, <- Hlen. fold (positions c tuples).
      rewrite <- Hctl. simpl.
      destruct (decide (c = cv)); [reflexivity|rewrite app_nil_r; reflexivity].
    + discriminate.
    + intros L. rewrite Hpos.
      destruct (decide (L = str_vals cv)) as [->|Hne].
      * rewrite lookup_alter_eq, lookup_insert_eq. simpl.
        destruct (decide (str_vals cv ∈ map str_vals (tuples ++ [cv]))) as [_|N].
        -- apply positions_nil_iff in Hin. rewrite Hin. reflexivity.
        -- exfalso; apply N, Hmem; right; reflexivity.
      * rewrite lookup_alter_ne by congruence.
        rewrite lookup_insert_ne by congruence. rewrite Hgrp, app_nil_r.
        apply decide_ext. rewrite Hmem. tauto.
    + rewrite first_seen_by_snoc, Hidx. simpl.
      destruct (decide (str_vals cv ∈ map str_vals tuples)); [contradiction|].
      reflexivity.
    + rewrite map_size_alter, map_size_insert_None by exact Eg.
      rewrite length_app, Hsize. simpl. lia.
Qed.

Lemma add_all_inv (rows : list (list pyval)) (d d' : Data)
    (tuples : list (list pyval)) :
  table_inv float_of_string str_vals d tuples →
  add_all float_of_string str_vals d rows = Ok d' →
  ∃ tuples', table_inv float_of_string str_vals d' tuples' ∧
             length (_data d') = length (_data d) + length rows.
Proof.
  revert d tuples; induction rows as [|row rows IH]; intros d tuples Hinv; simpl.
  - intros E; injection E as <-. exists tuples. split; [exact Hinv|lia].
  - intros H. apply bind_Ok in H as (d1 & Hadd & H).
    destruct (add_inv _ _ _ _ Hinv Hadd) as [t Hinv1].
    destruct (IH _ _ Hinv1 H) as (tuples' & Hinv' & Hlen').
    exists tuples'. split; [exact Hinv'|].
    destruct (add_frame _ _ _ Hadd) as (_ & _ & _ & _ & data & _ & Hd).
    rewrite Hlen', Hd, length_app. simpl. lia.
Qed.

Lemma loaded_inv (d : Data) : loaded float_of_string str_vals d → ∃ tuples, table_inv float_of_string str_vals d tuples.
Proof.
  intros (d0 & rows & He & H).
  destruct (add_all_inv rows d0 d [] (empty_table_inv d0 He) H) as (t & Hi & _).
  exists t; exact Hi.
Qed.

Lemma positions_from_map_inj {A K : Type} `{EqDecision A} `{EqDecision K}
    (key : A → K) (k : nat) (x : A) (l : list A) :
  (∀ y, y ∈ l → key x = key y → x = y) →
  positions_from k (key x) (map key l) = positions_from k x l.
Proof.
  revert k; induction l as [|z l IH]; intros k Hinj; simpl; [reflexivity|].
  rewrite IH by (intros y Hy; apply Hinj; right; exact Hy).
  destruct (decide (key x = key z)) as [E|N];
    destruct (decide (x = z)) as [E'|N']; try reflexivity.
  - exfalso. apply N', Hinj; [left|exact E].
  - exfalso. apply N. rewrite E'; reflexivity.
Qed.

Lemma row_tuples_unique (d : Data) (rows : list (list pyval))
    (t1 t2 : list (list pyval)) :
  Forall2 (λ row t, row_cond_values float_of_string d row = Ok t) rows t1 →
  Forall2 (λ row t, row_cond_values float_of_string d row = Ok t) rows t2 →
  t1 = t2.
Proof.
  intros H1; revert t2; induction H1 as [|row t rows t1 Hr _ IH]; intros t2 H2;
    inversion H2 as [|? t' ? t2' Hr' H2']; subst; [reflexivity|].
  f_equal; [congruence|apply IH, H2'].
Qed.

Lemma loaded_table_inv (d : Data) (tuples : list (list pyval)) :
  loaded float_of_string str_vals d →
  Forall2 (λ row t, row_cond_values float_of_string d row = Ok t) (_data d) tuples →
  table_inv float_of_string str_vals d tuples.
Proof.
  intros Hl Ht. destruct (loaded_inv d Hl) as [tuples' Hinv].
  assert (tuples' = tuples) as ->; [|exact Hinv].
  destruct Hinv as [Hrows _]. eapply row_tuples_unique; eassumption.
Qed.

Lemma table_inv_control_lt (d : Data) (tuples : list (list pyval)) :
  table_inv float_of_string str_vals d tuples →
  Forall (λ i, i < length (_data d)) (control_rows d).
Proof.
  intros (Hrows & Hctl & Hnone & _). unfold control_rows.
  apply Forall2_length in Hrows.
  destruct (_control_cond_vals d) as [c|].
  - rewrite (Hctl c eq_refl). apply Forall_forall. intros i Hi.
    apply positions_lt in Hi. lia.
  - rewrite (Hnone eq_refl). constructor.
Qed.

End Table.

(** ** Inverse normalization factors against the control group *)

Lemma positive_cells_floats (cells : list pyval) :
  Forall positive_cell cells →
  ∃ vs, cells = map PFloat vs ∧ Forall (λ x, 0 < x)%R vs.
Proof.
  induction 1 as [|c cells (x & -> & Hx) _ (vs & -> & Hvs)].
  - exists []; split; [reflexivity|constructor].
  - exists (x :: vs); split; [reflexivity|constructor; assumption].
Qed.

Lemma mapM_Forall {A B : Type} (f : A → result B) (P : A → Prop)
    (Q : B → Prop) (l : list A) :
  Forall P l → (∀ x, P x → ∃ y, f x = Ok y ∧ Q y) →
  ∃ k, mapM f l = Ok k ∧ Forall Q k.
Proof.
  intros Hl Hf. induction Hl as [|x l Hx _ (k & Hk & HQ)]; simpl.
  - exists []; split; [reflexivity|constructor].
  - destruct (Hf x Hx) as (y & Hy & Qy). rewrite Hy, bind_ret_l, Hk, bind_ret_l.
    exists (y :: k); split; [reflexivity|constructor; assumption].
Qed.

Lemma compute_nf_positive (d : Data) (genes : list string) :
  genes ≠ [] → positive_columns d genes →
  ∃ nfs, compute_nf d genes = Ok nfs ∧ Forall (λ x, 0 < x)%R nfs.
Proof.
  intros Hne Hpos. unfold compute_nf.
  apply (mapM_Forall _ _ _ _ Hpos). intros row Hrow.
  destruct (positive_cells_floats _ Hrow) as (vs & -> & Hvs).
  rewrite reduce_mul_floats, bind_ret_l, Rmult_1_l.
  rewrite py_div_Ok, bind_ret_l.
  - rewrite py_pow_pos by (apply Rprod_pos, Hvs).
    eexists; split; [reflexivity|apply Rpower_gt_0].
  - destruct genes as [|g rest]; [congruence|]. rewrite length_cons, S_INR.
    pose proof (pos_INR (length rest)). lra.
Qed.

Lemma compute_inv_nf_positive (d : Data) (genes : list string) :
  genes ≠ [] → positive_columns d genes →
  ∃ invs, compute_inv_nf d genes = Ok invs ∧ Forall (λ x, 0 < x)%R invs ∧
          length invs = length (_data d).
Proof.
  intros Hne Hpos.
  destruct (compute_nf_positive d genes Hne Hpos) as (nfs & Hnf & Hnfs).
  unfold compute_inv_nf. rewrite Hnf, bind_ret_l.
  destruct (mapM_Forall (λ x, py_div 1 x) _ (λ y, 0 < y)%R nfs Hnfs)
    as (invs & Hinv & Hinvs).
  - intros x Hx. rewrite py_div_Ok by lra. eexists; split; [reflexivity|].
    apply Rdiv_lt_0_compat; lra.
  - exists invs. split; [exact Hinv|split; [exact Hinvs|]].
    apply mapM_Ok_length in Hinv. unfold compute_nf in Hnf.
    apply mapM_Ok_length in Hnf. congruence.
Qed.

Lemma py_index_Ok {A : Type} (l : list A) (i : nat) (x : A) :
  py_index l i = Ok x ↔ l !! i = Some x.
Proof.
  unfold py_index. destruct (l !! i); split; intros E; congruence.
Qed.

Lemma mapM_index_lt {A : Type} (l : list A) (idxs : list nat) :
  Forall (λ i, i < length l) idxs →
  ∃ k, mapM (py_index l) idxs = Ok k ∧ Forall (λ x, x ∈ l) k.
Proof.
  intros H. apply (mapM_Forall _ _ _ _ H). intros i Hi.
  apply lookup_lt_is_Some in Hi as [x Hx].
  exists x. split; [apply py_index_Ok, Hx|].
  apply list_elem_of_lookup; eauto.
Qed.

Lemma mapM_index_map {A B : Type} (g : A → B) (l : list A) (idxs : list nat)
    (k : list A) :
  mapM (py_index l) idxs = Ok k →
  mapM (py_index (map g l)) idxs = Ok (map g k).
Proof.
  intros H. apply mapM_Ok in H. apply mapM_Ok.
  induction H as [|i x idxs k Hx _ IH]; simpl; constructor; [|exact IH].
  apply py_index_Ok in Hx. apply py_index_Ok.
  change (map g l) with (g <$> l). rewrite list_lookup_fmap, Hx. reflexivity.
Qed.

(** How a successful [compute_inv_nf_vs_control] came about *)
Lemma compute_inv_nf_vs_control_Ok (d : Data) (genes : list string)
    (out : list R) :
  compute_inv_nf_vs_control d genes = Ok out →
  ∃ (inv_nfs ctrl : list R),
    compute_inv_nf d genes = Ok inv_nfs ∧
    mapM (py_index inv_nfs) (control_rows d) = Ok ctrl ∧
    control_rows d ≠ [] ∧
    out = map (λ x, x / (Rsum ctrl / INR (length (control_rows d))))%R inv_nfs ∧
    (inv_nfs ≠ [] → (Rsum ctrl / INR (length (control_rows d)))%R ≠ 0%R).
Proof.
  unfold compute_inv_nf_vs_control. intros H.
  apply bind_Ok in H as (inv_nfs & Hinv & H).
  apply bind_Ok in H as (ctrl & Hctrl & H).
  apply bind_Ok in H as (avg & Havg & H).
  apply py_div_inv in Havg as [Hm ->]. rewrite py_sum_Rsum in H.
  exists inv_nfs, ctrl. repeat split; try assumption.
  - intros E. rewrite E in Hm. simpl in Hm. congruence.
  - apply (mapM_Ok_map _ _ _ _ H). intros x y _ Hxy.
    apply py_div_inv in Hxy as [_ ->]. reflexivity.
  - intros Hne. destruct inv_nfs as [|x inv_nfs]; [congruence|].
    simpl in H. apply bind_Ok in H as (y & Hy & _).
    apply py_div_inv in Hy as [Hy _]. exact Hy.
Qed.

(** C3. When [compute_inv_nf_vs_control] returns and the control group is
    not empty, the arithmetic mean of its output over the control rows is
    exactly 1; for a single control row the output there is exactly 1. *)
Theorem control_mean_is_one (d : Data) (genes : list string) (out : list R) :
  compute_inv_nf_vs_control d genes = Ok out →
  control_rows d ≠ [] →
  ∃ ctrl_out : list R,
    mapM (py_index out) (control_rows d) = Ok ctrl_out ∧
    mean ctrl_out = 1%R ∧
    (∀ i, control_rows d = [i] → out !! i = Some 1%R).
Proof.
  intros H Hne.
  destruct (compute_inv_nf_vs_control_Ok d genes out H)
    as (inv_nfs & ctrl & Hinv & Hctrl & _ & -> & Havg).
  set (m := INR (length (control_rows d))) in *.
  set (avg := (Rsum ctrl / m)%R) in *.
  pose proof (mapM_index_map (λ x, x / avg)%R _ _ _ Hctrl) as Hout.
  assert (Hlen : length ctrl = length (control_rows d))
    by (apply mapM_Ok_length in Hctrl; exact Hctrl).
  assert (Hm : (0 < m)%R).
  { unfold m. destruct (control_rows d); [congruence|].
    rewrite length_cons, S_INR. pose proof (pos_INR (length l)). lra. }
  assert (Havg0 : avg ≠ 0%R).
  { apply Havg. intros ->. destruct (control_rows d) as [|i r]; [congruence|].
    simpl in Hctrl. discriminate. }
  assert (Hmean : mean (map (λ x, x / avg)%R ctrl) = 1%R).
  { unfold mean. rewrite Rsum_scale, length_map, Hlen. fold m.
    assert (Hs : Rsum ctrl = (avg * m)%R) by (unfold avg; field; lra).
    rewrite Hs. field. split; lra. }
  exists (map (λ x, x / avg)%R ctrl). split; [exact Hout|split; [exact Hmean|]].
  intros i Hi. rewrite Hi in Hout.
  destruct ctrl as [|x [|y ctrl]]; simpl in Hout.
  - rewrite Hi in Hlen; discriminate.
  - apply bind_Ok in Hout as (v & Hv & Hout). simpl in Hout.
    injection Hout as Hv'. apply py_index_Ok in Hv. rewrite Hv. f_equal.
    unfold mean in Hmean. simpl in Hmean. rewrite Hv'. lra.
  - rewrite Hi in Hlen; discriminate.
Qed.

Lemma empty_control_raises (d : Data) (genes : list string) :
  control_rows d = [] →
  (∀ invs, compute_inv_nf d genes = Ok invs →
     compute_inv_nf_vs_control d genes = Raise ZeroDivisionError) ∧
  (∀ e, compute_inv_nf d genes = Raise e →
     compute_inv_nf_vs_control d genes = Raise e).
Proof.
  intros Hc. unfold compute_inv_nf_vs_control. rewrite Hc. split.
  - intros invs ->. rewrite bind_ret_l. simpl mapM. rewrite bind_ret_l.
    simpl length. simpl INR. rewrite py_div_zero. reflexivity.
  - intros e ->. reflexivity.
Qed.

Lemma compute_inv_nf_vs_control_positive (d : Data) (genes : list string) :
  genes ≠ [] → positive_columns d genes →
  control_rows d ≠ [] →
  Forall (λ i, i < length (_data d)) (control_rows d) →
  ∃ out, compute_inv_nf_vs_control d genes = Ok out ∧
         Forall (λ x, 0 < x)%R out ∧ length out = length (_data d).
Proof.
  intros Hne Hpos Hctl Hlt.
  destruct (compute_inv_nf_positive d genes Hne Hpos) as (invs & Hinv & Hinvs & Hlen).
  rewrite <- Hlen in Hlt.
  destruct (mapM_index_lt invs _ Hlt) as (ctrl & Hctrl & Hin).
  assert (Hcpos : Forall (λ x, 0 < x)%R ctrl).
  { apply Forall_forall. intros x Hx.
    rewrite Forall_forall in Hin, Hinvs. apply Hinvs, Hin, Hx. }
  assert (Hcne : ctrl ≠ []).
  { intros ->. apply mapM_Ok_length in Hctrl.
    destruct (control_rows d); [congruence|discriminate]. }
  assert (Hm : (0 < INR (length (control_rows d)))%R).
  { destruct (control_rows d) as [|i r]; [congruence|].
    rewrite length_cons, S_INR. pose proof (pos_INR (length r)). lra. }
  pose proof (Rsum_pos ctrl Hcne Hcpos) as Hsum.
  assert (Havg : (0 < Rsum ctrl / INR (length (control_rows d)))%R)
    by (apply Rdiv_lt_0_compat; assumption).
  unfold compute_inv_nf_vs_control.
  rewrite Hinv, bind_ret_l, Hctrl, bind_ret_l, py_sum_Rsum.
  rewrite py_div_Ok by lra. rewrite bind_ret_l.
  destruct (mapM_Forall (λ x, py_div x (Rsum ctrl / INR (length (control_rows d))))
              _ (λ y, 0 < y)%R invs Hinvs) as (out & Hout & Hopos).
  - intros x Hx. rewrite py_div_Ok by lra. eexists; split; [reflexivity|].
    apply Rdiv_lt_0_compat; assumption.
  - exists out. split; [exact Hout|split; [exact Hopos|]].
    apply mapM_Ok_length in Hout. congruence.
Qed.

Section ControlGroup.

Variable float_of_string : string → option R.
Variable str_vals : list pyval → string.

(** C6, as the code has it.  When no row's condition tuple equals the
    control tuple there is no control row, and
    [compute_inv_nf_vs_control] raises: the [ZeroDivisionError] of
    dividing the control sum by the zero count, unless computing the
    inverse factors raised before.  No value is returned. *)
Theorem empty_control_group_divides_by_zero (d : Data)
    (tuples : list (list pyval)) (c : list pyval) (genes : list string) :
  loaded float_of_string str_vals d →
  Forall2 (λ row t, row_cond_values float_of_string d row = Ok t)
          (_data d) tuples →
  _control_cond_vals d = Some c →
  c ∉ tuples →
  control_rows d = [] ∧
  (∀ invs, compute_inv_nf d genes = Ok invs →
     compute_inv_nf_vs_control d genes = Raise ZeroDivisionError) ∧
  (∀ e, compute_inv_nf d genes = Raise e →
     compute_inv_nf_vs_control d genes = Raise e).
Proof.
  intros Hl Ht Hc Hnin.
  pose proof (loaded_table_inv _ _ d tuples Hl Ht) as (_ & Hctl & _).
  assert (E : control_rows d = []).
  { unfold control_rows. rewrite (Hctl c Hc). apply positions_nil_iff, Hnin. }
  split; [exact E|]. apply empty_control_raises, E.
Qed.

End ControlGroup.

(** ** Statistics per condition group and overall *)

Lemma mapM_Raise_uniform {A B : Type} (f : A → result B) (e : exn) (l : list A) :
  Forall (λ x, (∃ y, f x = Ok y) ∨ f x = Raise e) l →
  Exists (λ x, f x = Raise e) l →
  mapM f l = Raise e.
Proof.
  induction 1 as [|x l Hx Hl IH]; intros Hex; [inversion Hex|]. simpl.
  destruct Hx as [[y Hy]|Hx]; [|rewrite Hx; reflexivity].
  rewrite Hy, bind_ret_l.
  inversion Hex as [? ? Hx|? ? Hex']; subst; [congruence|].
  rewrite (IH Hex'). reflexivity.
Qed.

Lemma compute_stats_cases (numbers : list R) :
  (∃ r, compute_stats numbers = Ok r) ∨
  compute_stats numbers = Raise ZeroDivisionError.
Proof.
  destruct (le_lt_dec 2 (length numbers)) as [Hn|Hn].
  - left. eexists. apply compute_stats_total, Hn.
  - right. apply compute_stats_degenerate, Hn.
Qed.

Lemma py_div_cases (x y : R) :
  (∃ r, py_div x y = Ok r) ∨ py_div x y = Raise ZeroDivisionError.
Proof.
  unfold py_div. destruct (decide (y = 0%R)); [right|left; eexists]; reflexivity.
Qed.

Lemma compute_inv_nf_vs_control_length (d : Data) (genes : list string)
    (out : list R) :
  compute_inv_nf_vs_control d genes = Ok out → length out = length (_data d).
Proof.
  intros H.
  destruct (compute_inv_nf_vs_control_Ok d genes out H)
    as (inv_nfs & ctrl & Hinv & _ & _ & -> & _).
  rewrite length_map. unfold compute_inv_nf in Hinv.
  apply bind_Ok in Hinv as (nfs & Hnf & Hinv).
  apply mapM_Ok_length in Hinv. unfold compute_nf in Hnf.
  apply mapM_Ok_length in Hnf. congruence.
Qed.

Section Statistics.

Variable float_of_string : string → option R.
Variable str_vals : list pyval → string.

Lemma compute_condition_stats_unfold (d : Data) (genes : list string) :
  compute_condition_stats str_vals d genes =
  out ← compute_inv_nf_vs_control d genes;
  mapM (group_stat str_vals d out) (condition_values d).
Proof. reflexivity. Qed.




End Statistics.

Section Degenerate.

Variable float_of_string : string → option R.
Variable str_vals : list pyval → string.

Lemma catalogue_group (d : Data) (tuples : list (list pyval)) (cv : list pyval) :
  table_inv float_of_string str_vals d tuples →
  cv ∈ condition_values d →
  condition_group str_vals d cv =
    Ok (positions (str_vals cv) (map str_vals tuples)).
Proof.
  intros (_ & _ & _ & Hgrp & Hidx & _) Hcv. unfold condition_values in Hcv.
  rewrite Hidx in Hcv. apply elem_of_first_seen_by in Hcv as [Hin _].
  unfold condition_group. rewrite Hgrp.
  destruct (decide (str_vals cv ∈ map str_vals tuples)) as [_|N]; [reflexivity|].
  exfalso; apply N. apply list_elem_of_In, in_map, list_elem_of_In, Hin.
Qed.

Lemma group_numbers (d : Data) (tuples : list (list pyval)) (out : list R)
    (L : string) :
  table_inv float_of_string str_vals d tuples →
  length out = length (_data d) →
  ∃ numbers, mapM (py_index out) (positions L (map str_vals tuples)) = Ok numbers ∧
             Forall (λ x, x ∈ out) numbers ∧
             length numbers = length (positions L (map str_vals tuples)).
Proof.
  intros (Hrows & _) Hlen. apply Forall2_length in Hrows.
  destruct (mapM_index_lt out (positions L (map str_vals tuples)))
    as (numbers & Hn & Hin).
  - apply Forall_forall. intros i Hi. apply positions_lt in Hi.
    rewrite length_map in Hi. lia.
  - exists numbers. split; [exact Hn|split; [exact Hin|]].
    apply mapM_Ok_length in Hn. exact Hn.
Qed.

Lemma group_stat_cases (d : Data) (tuples : list (list pyval)) (out : list R)
    (cv : list pyval) :
  table_inv float_of_string str_vals d tuples →
  length out = length (_data d) →
  cv ∈ condition_values d →
  (∃ st, group_stat str_vals d out cv = Ok st) ∨
  group_stat str_vals d out cv = Raise ZeroDivisionError.
Proof.
  intros Hinv Hlen Hcv. unfold group_stat.
  rewrite (catalogue_group d tuples cv Hinv Hcv), bind_ret_l.
  destruct (group_numbers d tuples out (str_vals cv) Hinv Hlen)
    as (numbers & -> & _ & _).
  rewrite bind_ret_l.
  destruct (compute_stats_cases numbers) as [[[[avg sd] se] ->]| ->];
    [|right; reflexivity].
  rewrite bind_ret_l.
  destruct (py_div_cases sd avg) as [[cv_intra ->]| ->];
    [left; eexists|right]; reflexivity.
Qed.

Lemma group_stat_single (d : Data) (tuples : list (list pyval)) (out : list R)
    (cv : list pyval) :
  table_inv float_of_string str_vals d tuples →
  length out = length (_data d) →
  cv ∈ condition_values d →
  length (positions (str_vals cv) (map str_vals tuples)) < 2 →
  group_stat str_vals d out cv = Raise ZeroDivisionError.
Proof.
  intros Hinv Hlen Hcv Hsmall. unfold group_stat.
  rewrite (catalogue_group d tuples cv Hinv Hcv), bind_ret_l.
  destruct (group_numbers d tuples out (str_vals cv) Hinv Hlen)
    as (numbers & -> & _ & Hn).
  rewrite bind_ret_l, compute_stats_degenerate by lia. reflexivity.
Qed.

Lemma single_row_group_raises (d : Data) (genes : list string) (out : list R)
    (L : string) (g : list nat) :
  loaded float_of_string str_vals d →
  compute_inv_nf_vs_control d genes = Ok out →
  _cond_groups d !! L = Some g →
  length g = 1 →
  compute_condition_stats str_vals d genes = Raise ZeroDivisionError ∧
  compute_overall_stats str_vals d genes = Raise ZeroDivisionError.
Proof.
  intros Hl Hout HL Hg.
  destruct (loaded_inv _ _ d Hl) as [tuples Hinv].
  pose proof (compute_inv_nf_vs_control_length d genes out Hout) as Hlen.
  assert (Hcs : compute_condition_stats str_vals d genes = Raise ZeroDivisionError).
  { rewrite compute_condition_stats_unfold, Hout, bind_ret_l.
    apply mapM_Raise_uniform.
    - apply Forall_forall. intros cv Hcv.
      apply (group_stat_cases d tuples out cv Hinv Hlen Hcv).
    - destruct Hinv as (Hrows & Hctl & Hnone & Hgrp & Hidx & Hsize).
      pose proof HL as HL'. rewrite Hgrp in HL'.
      destruct (decide (L ∈ map str_vals tuples)) as [Hin|]; [|discriminate].
      injection HL' as <-.
      assert (HLc : L ∈ map str_vals (condition_values d)).
      { unfold condition_values. rewrite Hidx. apply first_seen_by_keys.
        split; [exact Hin|apply not_elem_of_nil]. }
      apply list_elem_of_In, in_map_iff in HLc as (cv & <- & Hcv).
      apply list_elem_of_In in Hcv.
      apply Exists_exists. exists cv. split; [exact Hcv|].
      apply (group_stat_single d tuples out cv); try assumption; [|lia].
      repeat split; assumption. }
  split; [exact Hcs|].
  unfold compute_overall_stats. rewrite Hcs. reflexivity.
Qed.

End Degenerate.

(** ** Enumeration of the gene subsets *)

Lemma combinations_short {A : Type} (l : list A) (n : nat) :
  length l < n → combinations l n = [].
Proof.
  revert n; induction l as [|x l IH]; intros [|n] Hn; simpl in *; try lia.
  - reflexivity.
  - rewrite (IH n), (IH (S n)) by lia. reflexivity.
Qed.

Lemma combinations_length_elem {A : Type} (l : list A) (n : nat) (c : list A) :
  c ∈ combinations l n → length c = n.
Proof.
  revert n c; induction l as [|x l IH]; intros [|n] c; simpl.
  - rewrite list_elem_of_singleton. intros ->; reflexivity.
  - intros H; inversion H.
  - rewrite list_elem_of_singleton. intros ->; reflexivity.
  - rewrite elem_of_app. intros [H|H].
    + apply list_elem_of_In, in_map_iff in H as (c' & <- & H).
      apply list_elem_of_In, IH in H. simpl; congruence.
    + apply IH, H.
Qed.

Lemma combinations_sublist {A : Type} (l : list A) (n : nat) (c : list A) :
  c ∈ combinations l n ↔ c `sublist_of` l ∧ length c = n.
Proof.
  revert n c; induction l as [|x l IH]; intros n c.
  - destruct n as [|n]; simpl.
    + rewrite list_elem_of_singleton. split.
      * intros ->. split; [constructor|reflexivity].
      * intros [_ Hc]. destruct c; [reflexivity|discriminate].
    + split; [intros H; inversion H|].
      intros [Hs Hc]. apply sublist_nil_r in Hs. subst c. discriminate.
  - destruct n as [|n]; simpl.
    + rewrite list_elem_of_singleton. split.
      * intros ->. split; [apply sublist_nil_l|reflexivity].
      * intros [_ Hc]. destruct c; [reflexivity|discriminate].
    + rewrite elem_of_app, sublist_cons_r, IH. split.
      * intros [H|[Hs Hc]]; [|split; [left; exact Hs|exact Hc]].
        apply list_elem_of_In, in_map_iff in H as (c' & <- & H).
        apply list_elem_of_In, IH in H as [Hs Hc].
        split; [right; eauto|simpl; congruence].
      * intros [[Hs|(c' & -> & Hs)] Hc]; [right; auto|left].
        apply list_elem_of_In, in_map. apply list_elem_of_In, IH.
        split; [exact Hs|simpl in Hc; congruence].
Qed.

Lemma count_below_S {A : Type} (l : list A) (m : nat) :
  count_below l (S m) = count_below l m + length (combinations l m).
Proof.
  unfold count_below. rewrite seq_S, map_app, list_sum_app. simpl. lia.
Qed.

Lemma count_below_cons {A : Type} (x : A) (l : list A) (m : nat) :
  count_below (x :: l) (S m) + 1 = count_below l m + count_below l (S m) + 1.
Proof.
  induction m as [|m IH].
  - unfold count_below; simpl. destruct l; reflexivity.
  - rewrite (count_below_S (x :: l)), (count_below_S l (S m)), (count_below_S l m).
    simpl combinations at 1. rewrite length_app, length_map.
    rewrite (count_below_S l m) in IH. lia.
Qed.

Lemma count_below_all {A : Type} (l : list A) :
  count_below l (S (length l)) = 2 ^ length l.
Proof.
  induction l as [|x l IH]; [reflexivity|].
  pose proof (count_below_cons x l (S (length l))) as H.
  rewrite (count_below_S l (S (length l))) in H.
  rewrite combinations_short in H by lia. simpl length in H.
  rewrite IH in H. simpl length. rewrite Nat.pow_succ_r'. lia.
Qed.

Lemma gene_subsets_length (cand_genes : list string) :
  length (gene_subsets cand_genes) = 2 ^ length cand_genes - 1.
Proof.
  pose proof (count_below_all cand_genes) as H.
  unfold count_below in H. rewrite <- cons_seq in H. simpl in H.
  rewrite <- seq_shift, map_map in H.
  unfold gene_subsets. rewrite length_concat, <- seq_shift, !map_map.
  destruct cand_genes; simpl in *; lia.
Qed.

(** Every non-empty subsequence of the candidates is enumerated, and
    nothing else. *)
Lemma elem_of_gene_subsets (cand_genes g : list string) :
  g ∈ gene_subsets cand_genes ↔ g ≠ [] ∧ g `sublist_of` cand_genes.
Proof.
  unfold gene_subsets. rewrite list_elem_of_In, in_concat. split.
  - intros (c & Hc & Hg). apply in_map_iff in Hc as (n & <- & Hn).
    apply in_seq in Hn. apply list_elem_of_In, combinations_sublist in Hg as [Hs Hl].
    split; [|exact Hs]. intros ->. simpl in Hl. lia.
  - intros [Hne Hs]. exists (combinations cand_genes (length g)). split.
    + apply in_map, in_seq. pose proof (sublist_length _ _ Hs).
      destruct g; [congruence|simpl in *; lia].
    + apply list_elem_of_In, combinations_sublist. auto.
Qed.

(** The subsets are enumerated by increasing size. *)
Lemma gene_subsets_sizes (cand_genes : list string) :
  StronglySorted (λ a b, length a ≤ length b) (gene_subsets cand_genes).
Proof.
  unfold gene_subsets. generalize 1 as a. generalize (length cand_genes) as m.
  induction m as [|m IH]; intros a; simpl; [constructor|].
  apply StronglySorted_app_2; [| |apply IH].
  - intros c1 c2 H1 H2. apply combinations_length_elem in H1.
    apply list_elem_of_In, in_concat in H2 as (cs & Hcs & H2).
    apply in_map_iff in Hcs as (n & <- & Hn). apply in_seq in Hn.
    apply list_elem_of_In, combinations_length_elem in H2. lia.
  - assert (Hall : Forall (λ c, length c = a) (combinations cand_genes a)).
    { apply Forall_forall. intros c Hc. apply (combinations_length_elem _ _ _ Hc). }
    induction Hall as [|c cs Hc Hcs IHcs]; constructor; [exact IHcs|].
    apply Forall_forall. intros c' Hc'. rewrite Forall_forall in Hcs.
    rewrite (Hcs c' Hc'). lia.
Qed.

Lemma combinations_map {A B : Type} (f : A → B) (l : list A) (n : nat) :
  combinations (map f l) n = map (map f) (combinations l n).
Proof.
  revert n; induction l as [|x l IH]; intros [|n]; simpl; try reflexivity.
  rewrite map_app, !map_map, !IH, map_map. reflexivity.
Qed.

Lemma pick_all (cand_genes : list string) :
  pick cand_genes (seq 0 (length cand_genes)) = cand_genes.
Proof.
  unfold pick. induction cand_genes as [|x l IH]; [reflexivity|].
  simpl. f_equal. rewrite <- seq_shift, map_map. exact IH.
Qed.

(** A combination is the candidates at a combination of the positions. *)
Lemma combinations_positions (cand_genes : list string) (n : nat) :
  combinations cand_genes n =
  map (pick cand_genes) (combinations (seq 0 (length cand_genes)) n).
Proof.
  rewrite <- (pick_all cand_genes) at 1. unfold pick at 1.
  apply combinations_map.
Qed.

Lemma seq_lt_sorted (a m : nat) : StronglySorted lt (seq a m).
Proof.
  revert a; induction m as [|m IH]; intros a; simpl; constructor; [apply IH|].
  apply Forall_forall. intros i Hi. apply list_elem_of_In, in_seq in Hi. lia.
Qed.

(** Within one size the combinations follow the positions in
    lexicographic order: the original order of the list. *)
Lemma combinations_lex_sorted (l : list nat) (n : nat) :
  StronglySorted lt l → StronglySorted lex_lt (combinations l n).
Proof.
  intros Hl; revert n; induction Hl as [|x l Hl IH Hx]; intros [|n]; simpl.
  - repeat constructor.
  - constructor.
  - repeat constructor.
  - apply StronglySorted_app_2; [| |apply IH].
    + intros a b Ha Hb.
      apply list_elem_of_In, in_map_iff in Ha as (a' & <- & _).
      apply combinations_sublist in Hb as [Hs Hlen].
      destruct b as [|y b]; [discriminate|].
      left. rewrite Forall_forall in Hx. apply Hx.
      apply (elem_of_sublist (y :: b) l y); [left|exact Hs].
    + specialize (IH n). induction IH as [|a cs _ IHcs Ha]; simpl; constructor.
      * exact IHcs.
      * apply Forall_forall. intros b Hb.
        apply list_elem_of_In, in_map_iff in Hb as (b' & <- & Hb').
        right. split; [reflexivity|].
        rewrite Forall_forall in Ha. apply Ha, list_elem_of_In, Hb'.
Qed.

(** ** Sorting *)

Section Sorting.

Context {A : Type}.
Variable key : A → R.

Lemma sort_insert_perm (x : A) (l : list A) : sort_insert key x l ≡ₚ x :: l.
Proof.
  induction l as [|y l IH]; simpl; [reflexivity|].
  destruct (Rlt_dec (key y) (key x)); [|reflexivity].
  rewrite IH. apply Permutation_swap.
Qed.

Lemma py_sort_perm (l : list A) : py_sort key l ≡ₚ l.
Proof.
  induction l as [|x l IH]; simpl; [reflexivity|].
  rewrite sort_insert_perm, IH. reflexivity.
Qed.

Lemma sort_insert_sorted (x : A) (l : list A) :
  StronglySorted (λ a b, key a <= key b)%R l →
  StronglySorted (λ a b, key a <= key b)%R (sort_insert key x l).
Proof.
  induction 1 as [|y l Hl IH Hy]; simpl; [repeat constructor|].
  destruct (Rlt_dec (key y) (key x)) as [Hlt|Hge].
  - constructor; [exact IH|].
    rewrite (sort_insert_perm x l). constructor; [lra|exact Hy].
  - constructor; [constructor; assumption|].
    constructor; [lra|]. eapply Forall_impl; [exact Hy|].
    intros z Hz. simpl in Hz. lra.
Qed.

Lemma py_sort_sorted (l : list A) :
  StronglySorted (λ a b, key a <= key b)%R (py_sort key l).
Proof.
  induction l as [|x l IH]; simpl; [constructor|].
  apply sort_insert_sorted, IH.
Qed.

Lemma sort_insert_stable (c : R) (x : A) (l : list A) :
  filter (λ a, key a = c) (sort_insert key x l) =
  filter (λ a, key a = c) (x :: l).
Proof.
  induction l as [|y l IH]; simpl; [reflexivity|].
  destruct (Rlt_dec (key y) (key x)) as [Hlt|Hge]; [|reflexivity].
  rewrite (filter_cons _ y), IH, !(filter_cons _ x), (filter_cons _ y).
  destruct (decide (key x = c)) as [Ex|Nx]; [|reflexivity].
  destruct (decide (key y = c)) as [Ey|Ny]; [lra|reflexivity].
Qed.

(** Elements with equal keys keep their order. *)
Lemma py_sort_stable (c : R) (l : list A) :
  filter (λ a, key a = c) (py_sort key l) = filter (λ a, key a = c) l.
Proof.
  induction l as [|x l IH]; simpl; [reflexivity|].
  rewrite sort_insert_stable, !(filter_cons _ x), IH. reflexivity.
Qed.

(** A sorted list whose equal-key runs are those of [l] is [py_sort l]:
    every stable sort returns this list. *)
Lemma stable_sorted_unique (l1 l2 : list A) :
  StronglySorted (λ a b, key a <= key b)%R l1 →
  StronglySorted (λ a b, key a <= key b)%R l2 →
  (∀ c, filter (λ a, key a = c) l1 = filter (λ a, key a = c) l2) →
  l1 = l2.
Proof.
  intros H1; revert l2; induction H1 as [|x l1 Hs1 IH Hx]; intros l2 H2 Hf.
  - destruct l2 as [|y l2]; [reflexivity|].
    specialize (Hf (key y)). rewrite filter_cons_True in Hf by reflexivity.
    discriminate.
  - destruct H2 as [|y l2 Hs2 Hy].
    { specialize (Hf (key x)). rewrite filter_cons_True in Hf by reflexivity.
      discriminate. }
    assert (Hxy : (key x <= key y)%R).
    { assert (Hin : y ∈ filter (λ a, key a = key y) (x :: l1)).
      { rewrite Hf, filter_cons_True by reflexivity. left. }
      apply list_elem_of_filter in Hin as [_ Hin].
      apply elem_of_cons in Hin as [->|Hin]; [lra|].
      rewrite Forall_forall in Hx. apply Hx, Hin. }
    assert (Hyx : (key y <= key x)%R).
    { assert (Hin : x ∈ filter (λ a, key a = key x) (y :: l2)).
      { rewrite <- Hf, filter_cons_True by reflexivity. left. }
      apply list_elem_of_filter in Hin as [_ Hin].
      apply elem_of_cons in Hin as [->|Hin]; [lra|].
      rewrite Forall_forall in Hy. apply Hy, Hin. }
    assert (Ek : key x = key y) by lra.
    pose proof (Hf (key x)) as Hfx.
    rewrite filter_cons_True in Hfx by reflexivity.
    rewrite filter_cons_True in Hfx by (symmetry; exact Ek).
    injection Hfx as -> Hfx. f_equal. apply IH; [exact Hs2|].
    intros c. specialize (Hf c). rewrite !(filter_cons _ y) in Hf.
    destruct (decide (key y = c)); [congruence|exact Hf].
Qed.

End Sorting.

(** ** Ranking *)

Lemma compress_Forall_mono {A : Type} (P : A → Prop) (f1 f2 : string → bool)
    (headers : list string) (row : list A) :
  (∀ h, f2 h = true → f1 h = true) →
  Forall P (compress row (map f1 headers)) →
  Forall P (compress row (map f2 headers)).
Proof.
  intros Hf. revert row; induction headers as [|h headers IH]; intros row; simpl.
  - destruct row; intros _; constructor.
  - destruct row as [|c row]; [intros _; constructor|].
    destruct (f2 h) eqn:E2.
    + rewrite (Hf h E2). intros H. inversion H; subst.
      constructor; [assumption|apply IH; assumption].
    + destruct (f1 h); intros H; apply IH; [inversion H|]; assumption.
Qed.

Lemma positive_columns_subset (d : Data) (cand_genes g : list string) :
  g ⊆ cand_genes → positive_columns d cand_genes → positive_columns d g.
Proof.
  intros Hsub. unfold positive_columns. intros H.
  eapply Forall_impl; [exact H|]. intros row.
  apply compress_Forall_mono. intros h Hh.
  apply bool_decide_eq_true in Hh. apply bool_decide_eq_true, Hsub, Hh.
Qed.

Section Ranking.

Variable float_of_string : string → option R.
Variable str_vals : list pyval → string.

(** When the statistics of a subset are computed: a loaded table whose
    columns for the subset hold positive measurements, with control rows,
    at least two condition groups and at least two rows in every group. *)
Lemma stats_total (d : Data) (g : list string) :
  loaded float_of_string str_vals d →
  g ≠ [] →
  positive_columns d g →
  control_rows d ≠ [] →
  (∀ L grp, _cond_groups d !! L = Some grp → 2 ≤ length grp) →
  2 ≤ nr_conditions d →
  ∃ stats o, compute_condition_stats str_vals d g = Ok stats ∧
             compute_overall_stats str_vals d g = Ok o.
Proof.
  intros Hl Hne Hpg Hctl Hsize Hnr.
  destruct (loaded_inv _ _ d Hl) as [tuples Hinv].
  pose proof (table_inv_control_lt _ _ d tuples Hinv) as Hlt.
  destruct (compute_inv_nf_vs_control_positive d g Hne Hpg Hctl Hlt)
    as (out & Hout & Hopos & Hlen).
  assert (Hstats : ∃ stats, compute_condition_stats str_vals d g = Ok stats ∧
                            Forall (λ st, 0 < st_avg st)%R stats).
  { rewrite compute_condition_stats_unfold, Hout, bind_ret_l.
    apply (mapM_Forall _ (λ cv, cv ∈ condition_values d));
      [apply Forall_forall; auto|].
    intros cv Hcv. unfold group_stat.
    rewrite (catalogue_group _ _ d tuples cv Hinv Hcv), bind_ret_l.
    destruct (group_numbers _ _ d tuples out (str_vals cv) Hinv Hlen)
      as (numbers & -> & Hin & Hn).
    rewrite bind_ret_l.
    assert (H2 : 2 ≤ length numbers).
    { rewrite Hn. apply (Hsize (str_vals cv)).
      pose proof (catalogue_group _ _ d tuples cv Hinv Hcv) as Hg'.
      unfold condition_group in Hg'.
      destruct (_cond_groups d !! str_vals cv); congruence. }
    rewrite (compute_stats_total numbers H2), bind_ret_l.
    assert (Havg : (0 < Rsum numbers / INR (length numbers))%R).
    { apply Rdiv_lt_0_compat.
      - apply Rsum_pos; [destruct numbers; [simpl in H2; lia|congruence]|].
        apply Forall_forall. intros x Hx.
        rewrite Forall_forall in Hin, Hopos. apply Hopos, Hin, Hx.
      - apply (lt_INR 0). lia. }
    rewrite py_div_Ok by lra. rewrite bind_ret_l.
    eexists; split; [reflexivity|exact Havg]. }
  destruct Hstats as (stats & Hstats & Hspos).
  exists stats. unfold compute_overall_stats. rewrite Hstats, bind_ret_l.
  assert (H2 : 2 ≤ length (map st_avg stats)).
  { rewrite length_map. rewrite compute_condition_stats_unfold, Hout, bind_ret_l in Hstats.
    apply mapM_Ok_length in Hstats. unfold nr_conditions, condition_values in *. lia. }
  rewrite (compute_stats_total _ H2), bind_ret_l.
  rewrite py_div_Ok; [rewrite bind_ret_l; eexists; split; reflexivity|].
  assert (0 < Rsum (map st_avg stats) / INR (length (map st_avg stats)))%R; [|lra].
  apply Rdiv_lt_0_compat.
  - apply Rsum_pos; [destruct stats; [simpl in H2; lia|discriminate]|].
    apply Forall_forall. intros x Hx.
    apply list_elem_of_In, in_map_iff in Hx as (st & <- & Hst).
    rewrite Forall_forall in Hspos. apply Hspos, list_elem_of_In, Hst.
  - apply (lt_INR 0). lia.
Qed.

End Ranking.

(** * The worked tables, evaluated *)

Lemma scenario_load :
  add_all scenario_float scenario_str
    (new_table scenario_headers "id" ["cond"] [PStr "ctl"]) scenario_rows
  = Ok scenario_table.
Proof. reflexivity. Qed.

Lemma scenario_loaded : loaded scenario_float scenario_str scenario_table.
Proof.
  eexists _, scenario_rows. split; [apply new_table_empty|exact scenario_load].
Qed.

Lemma scenario_positive : positive_columns scenario_table ["A"; "B"].
Proof.
  unfold positive_columns. simpl.
  repeat constructor; (eexists; split; [reflexivity|lra]).
Qed.

Lemma scenario_groups (L : string) (g : list nat) :
  _cond_groups scenario_table !! L = Some g → 2 ≤ length g.
Proof.
  simpl. intros H.
  apply lookup_insert_Some in H as [[_ <-]|[_ H]]; [simpl; lia|].
  apply lookup_insert_Some in H as [[_ <-]|[_ H]]; [simpl; lia|].
  rewrite lookup_empty in H. discriminate.
Qed.

Lemma scenario_control : control_rows scenario_table ≠ [].
Proof. discriminate. Qed.

Lemma no_control_load :
  add_all scenario_float scenario_str
    (new_table scenario_headers "id" ["cond"] [PStr "none"]) scenario_rows
  = Ok no_control_table.
Proof. reflexivity. Qed.

Lemma single_sample_load :
  add_all scenario_float scenario_str
    (new_table scenario_headers "id" ["cond"] [PStr "ctl"]) (take 3 scenario_rows)
  = Ok single_sample_table.
Proof. reflexivity. Qed.

Lemma no_control_loaded : loaded scenario_float scenario_str no_control_table.
Proof.
  eexists _, scenario_rows. split; [apply new_table_empty|exact no_control_load].
Qed.

Lemma single_sample_loaded : loaded scenario_float scenario_str single_sample_table.
Proof.
  eexists _, (take 3 scenario_rows).
  split; [apply new_table_empty|exact single_sample_load].
Qed.

Lemma no_control_positive : positive_columns no_control_table ["A"].
Proof.
  unfold positive_columns. simpl.
  repeat constructor; (eexists; split; [reflexivity|lra]).
Qed.

Lemma single_sample_positive : positive_columns single_sample_table ["A"].
Proof.
  unfold positive_columns. simpl.
  repeat constructor; (eexists; split; [reflexivity|lra]).
Qed.

Lemma scenario_row_tuples :
  Forall2 (λ row t, row_cond_values scenario_float scenario_table row = Ok t)
          (_data scenario_table) scenario_tuples.
Proof. repeat constructor. Qed.

Lemma no_control_row_tuples :
  Forall2 (λ row t, row_cond_values scenario_float no_control_table row = Ok t)
          (_data no_control_table) scenario_tuples.
Proof. repeat constructor. Qed.

Lemma scenario_labels (t1 t2 : list pyval) :
  t1 ∈ scenario_tuples → t2 ∈ scenario_tuples →
  scenario_str t1 = scenario_str t2 → t1 = t2.
Proof.
  unfold scenario_tuples. intros H1 H2.
  repeat (apply elem_of_cons in H1 as [->|H1]);
    try (inversion H1; fail);
    repeat (apply elem_of_cons in H2 as [->|H2]);
    try (inversion H2; fail);
    intros E; try reflexivity; discriminate E.
Qed.

(** ** The scenario, step by step *)

Lemma scenario_nf :
  compute_nf scenario_table ["A"; "B"] =
  Ok [Rpower (2 * 4) (1 / 2); Rpower (2 * 4) (1 / 2);
      Rpower (8 * 16) (1 / 2); Rpower (8 * 16) (1 / 2)].
Proof.
  unfold compute_nf. simpl.
  rewrite !py_div_Ok by lra. rewrite !bind_ret_l.
  rewrite !py_pow_pos by lra. rewrite !bind_ret_l.
  repeat f_equal; lra.
Qed.

Lemma scenario_nf_A :
  compute_nf scenario_table ["A"] = Ok [2%R; 2%R; 8%R; 8%R].
Proof.
  unfold compute_nf. simpl.
  rewrite !py_div_Ok by lra. rewrite !bind_ret_l.
  rewrite !py_pow_pos by lra. rewrite !bind_ret_l.
  replace (1 / 1)%R with 1%R by lra.
  rewrite !Rpower_1 by lra. repeat f_equal; lra.
Qed.

Lemma scenario_nf_B :
  compute_nf scenario_table ["B"] = Ok [4%R; 4%R; 16%R; 16%R].
Proof.
  unfold compute_nf. simpl.
  rewrite !py_div_Ok by lra. rewrite !bind_ret_l.
  rewrite !py_pow_pos by lra. rewrite !bind_ret_l.
  replace (1 / 1)%R with 1%R by lra.
  rewrite !Rpower_1 by lra. repeat f_equal; lra.
Qed.

Lemma Rpower_128 : Rpower (8 * 16) (1 / 2) = (4 * Rpower (2 * 4) (1 / 2))%R.
Proof.
  replace (8 * 16)%R with (16 * (2 * 4))%R by lra.
  rewrite <- Rpower_mult_distr by lra. f_equal.
  replace (1 / 2)%R with (/ 2)%R by lra. rewrite Rpower_sqrt by lra.
  replace 16%R with (4 * 4)%R by lra. apply sqrt_square. lra.
Qed.

(** The control-normalized inverse factors, whenever the factors of the
    second group are four times those of the control group *)
Lemma scenario_out (x y : R) (g : list string) :
  (0 < x)%R → y = (4 * x)%R →
  compute_nf scenario_table g = Ok [x; x; y; y] →
  compute_inv_nf_vs_control scenario_table g =
  Ok [1%R; 1%R; (1 / 4)%R; (1 / 4)%R].
Proof.
  intros Hx -> Hnf. unfold compute_inv_nf_vs_control, compute_inv_nf.
  rewrite Hnf, bind_ret_l.
  rewrite (mapM_pure _ (λ v, 1 / v)%R)
    by (repeat constructor; apply py_div_Ok; lra).
  rewrite bind_ret_l.
  change (mapM _ (control_rows scenario_table))
    with (Ok [(1 / x)%R; (1 / x)%R] : result (list R)).
  rewrite bind_ret_l, py_sum_Rsum.
  change (INR (length (control_rows scenario_table))) with (1 + 1)%R.
  assert (E : (Rsum [(1 / x)%R; (1 / x)%R] / (1 + 1))%R = (1 / x)%R)
    by (unfold Rsum; simpl; field; lra).
  assert (Hinv : (1 / x)%R ≠ 0%R).
  { unfold Rdiv. rewrite Rmult_1_l. apply Rinv_neq_0_compat. lra. }
  rewrite py_div_Ok by lra.
  rewrite bind_ret_l, E, mapM_py_div by exact Hinv.
  simpl. replace (1 / x / (1 / x))%R with 1%R by (field; lra).
  replace (1 / (4 * x) / (1 / x))%R with (1 / 4)%R by (field; lra).
  reflexivity.
Qed.

Lemma scenario_out_A :
  compute_inv_nf_vs_control scenario_table ["A"] =
  Ok [1%R; 1%R; (1 / 4)%R; (1 / 4)%R].
Proof. apply (scenario_out 2 8); [lra|lra|exact scenario_nf_A]. Qed.

Lemma compute_stats_pair (a b : R) :
  compute_stats [a; b] =
  Ok (((a + b) / 2)%R, sqrt ((a - b) ^ 2 / 2),
      (sqrt ((a - b) ^ 2 / 2) / sqrt 2)%R).
Proof.
  rewrite compute_stats_total by (simpl; lia).
  assert (Hs : Rsum [a; b] = (a + b)%R) by (unfold Rsum; simpl; lra).
  assert (Hq : Rsum (map (λ v, v ^ 2)%R [a; b]) = (a ^ 2 + b ^ 2)%R)
    by (unfold Rsum; simpl; lra).
  assert (Hn : INR (length [a; b]) = 2%R) by (simpl; lra).
  rewrite Hs, Hq, Hn.
  replace ((a ^ 2 + b ^ 2 - (a + b) ^ 2 / 2) / (2 - 1))%R
    with ((a - b) ^ 2 / 2)%R by field.
  reflexivity.
Qed.

Lemma scenario_cond_stats (g : list string) :
  compute_inv_nf_vs_control scenario_table g =
    Ok [1%R; 1%R; (1 / 4)%R; (1 / 4)%R] →
  compute_condition_stats scenario_str scenario_table g =
    Ok [scenario_ctl_stat; scenario_trt_stat].
Proof.
  intros Hout. rewrite compute_condition_stats_unfold, Hout, bind_ret_l.
  change (condition_values scenario_table) with [[PStr "ctl"]; [PStr "trt"]].
  assert (Hsd : sqrt ((1 - 1) ^ 2 / 2) = 0%R).
  { replace ((1 - 1) ^ 2 / 2)%R with 0%R by field. apply sqrt_0. }
  assert (Hsd' : sqrt ((1 / 4 - 1 / 4) ^ 2 / 2) = 0%R).
  { replace ((1 / 4 - 1 / 4) ^ 2 / 2)%R with 0%R by field. apply sqrt_0. }
  assert (Hctl : group_stat scenario_str scenario_table
                   [1%R; 1%R; (1 / 4)%R; (1 / 4)%R] [PStr "ctl"]
                 = Ok scenario_ctl_stat).
  { unfold group_stat.
    change (condition_group scenario_str scenario_table [PStr "ctl"])
      with (Ok [0; 1] : result (list nat)).
    rewrite bind_ret_l.
    change (mapM _ [0; 1]) with (Ok [1%R; 1%R] : result (list R)).
    rewrite bind_ret_l, compute_stats_pair, bind_ret_l, Hsd.
    rewrite py_div_Ok by lra. rewrite bind_ret_l. unfold scenario_ctl_stat.
    f_equal. f_equal; unfold Rdiv; rewrite ?Rmult_0_l; lra. }
  assert (Htrt : group_stat scenario_str scenario_table
                   [1%R; 1%R; (1 / 4)%R; (1 / 4)%R] [PStr "trt"]
                 = Ok scenario_trt_stat).
  { unfold group_stat.
    change (condition_group scenario_str scenario_table [PStr "trt"])
      with (Ok [2; 3] : result (list nat)).
    rewrite bind_ret_l.
    change (mapM _ [2; 3]) with (Ok [(1 / 4)%R; (1 / 4)%R] : result (list R)).
    rewrite bind_ret_l, compute_stats_pair, bind_ret_l, Hsd'.
    rewrite py_div_Ok by lra. rewrite bind_ret_l. unfold scenario_trt_stat.
    f_equal. f_equal; unfold Rdiv; rewrite ?Rmult_0_l; lra. }
  simpl mapM. rewrite Hctl, bind_ret_l, Htrt, !bind_ret_l. reflexivity.
Qed.

Lemma scenario_overall_stats (g : list string) :
  compute_inv_nf_vs_control scenario_table g =
    Ok [1%R; 1%R; (1 / 4)%R; (1 / 4)%R] →
  compute_overall_stats scenario_str scenario_table g = Ok scenario_overall.
Proof.
  intros Hout. unfold compute_overall_stats.
  rewrite (scenario_cond_stats g Hout), bind_ret_l.
  change (map st_avg [scenario_ctl_stat; scenario_trt_stat])
    with [1%R; (1 / 4)%R].
  rewrite compute_stats_pair, bind_ret_l.
  replace ((1 - 1 / 4) ^ 2 / 2)%R with (9 / 32)%R by field.
  replace ((1 + 1 / 4) / 2)%R with (5 / 8)%R by field.
  rewrite py_div_Ok by lra. rewrite bind_ret_l, py_sum_Rsum.
  unfold scenario_overall. f_equal. f_equal.
  unfold Rsum. simpl.
  replace (1 - 1)%R with 0%R by lra. rewrite Rabs_R0.
  rewrite Rabs_pos_eq by lra. lra.
Qed.

Lemma scenario_out_each (g : list string) :
  g ∈ [["A"]; ["B"]; ["A"; "B"]] →
  compute_inv_nf_vs_control scenario_table g =
  Ok [1%R; 1%R; (1 / 4)%R; (1 / 4)%R].
Proof.
  intros Hg.
  repeat (apply elem_of_cons in Hg as [->|Hg]); [| | |inversion Hg].
  - exact scenario_out_A.
  - apply (scenario_out 4 16); [lra|lra|exact scenario_nf_B].
  - apply (scenario_out (Rpower (2 * 4) (1 / 2)) (Rpower (8 * 16) (1 / 2)));
      [apply Rpower_gt_0|apply Rpower_128|exact scenario_nf].
Qed.

Lemma scenario_ranking :
  compute_all scenario_str scenario_table ["A"; "B"] =
  Ok [scenario_record ["A"]; scenario_record ["B"]; scenario_record ["A"; "B"]].
Proof.
  unfold compute_all.
  change (gene_subsets ["A"; "B"]) with [["A"]; ["B"]; ["A"; "B"]].
  assert (Hrec : ∀ g, g ∈ [["A"]; ["B"]; ["A"; "B"]] →
            (cond_stats ← compute_condition_stats scenario_str scenario_table g;
             overall_stats ← compute_overall_stats scenario_str scenario_table g;
             Ok {| genes := g; conds := cond_stats; overall := overall_stats |})
            = Ok (scenario_record g)).
  { intros g Hg. pose proof (scenario_out_each g Hg) as Hout.
    rewrite (scenario_cond_stats g Hout), bind_ret_l.
    rewrite (scenario_overall_stats g Hout), bind_ret_l. reflexivity. }
  rewrite (mapM_pure _ scenario_record).
  - rewrite bind_ret_l. f_equal. cbn [map py_sort sort_insert].
    repeat (destruct (Rlt_dec _ _) as [Hlt|_];
            [unfold sort_key in Hlt; simpl in Hlt; lra|];
            cbn [sort_insert]).
    reflexivity.
  - apply Forall_forall. exact Hrec.
Qed.

(** ** The theorems at the worked tables *)


Lemma control_mean_is_one_witness :
  compute_inv_nf_vs_control scenario_table ["A"] =
    Ok [1%R; 1%R; (1 / 4)%R; (1 / 4)%R] ∧
  control_rows scenario_table ≠ [] ∧
  ∃ ctrl_out,
    mapM (py_index [1%R; 1%R; (1 / 4)%R; (1 / 4)%R])
         (control_rows scenario_table) = Ok ctrl_out ∧
    mean ctrl_out = 1%R ∧
    (∀ i, control_rows scenario_table = [i] →
          [1%R; 1%R; (1 / 4)%R; (1 / 4)%R] !! i = Some 1%R).
Proof.
  split; [exact scenario_out_A|]. split; [exact scenario_control|].
  exact (control_mean_is_one scenario_table ["A"] _ scenario_out_A
           scenario_control).
Defined.


Lemma none_not_observed : [PStr "none"] ∉ scenario_tuples.
Proof.
  unfold scenario_tuples. intros H.
  repeat (apply elem_of_cons in H as [H|H]; [discriminate H|]).
  inversion H.
Qed.

Lemma empty_control_group_divides_by_zero_witness :
  control_rows no_control_table = [] ∧
  (∀ invs, compute_inv_nf no_control_table ["A"] = Ok invs →
     compute_inv_nf_vs_control no_control_table ["A"] = Raise ZeroDivisionError) ∧
  (∀ e, compute_inv_nf no_control_table ["A"] = Raise e →
     compute_inv_nf_vs_control no_control_table ["A"] = Raise e).
Proof.
  apply (empty_control_group_divides_by_zero scenario_float scenario_str
           no_control_table scenario_tuples [PStr "none"] ["A"]).
  - exact no_control_loaded.
  - exact no_control_row_tuples.
  - reflexivity.
  - exact none_not_observed.
Defined.

(** The control tuple matches no row: the code divides by zero. *)
Lemma empty_control_group_counterexample :
  _control_cond_vals no_control_table = Some [PStr "none"] ∧
  Forall2 (λ row t, row_cond_values scenario_float no_control_table row = Ok t)
          (_data no_control_table) scenario_tuples ∧
  ([PStr "none"] ∉ scenario_tuples) ∧
  compute_inv_nf_vs_control no_control_table ["A"] = Raise ZeroDivisionError.
Proof.
  split; [reflexivity|].
  split; [exact no_control_row_tuples|].
  split; [exact none_not_observed|].
  destruct (compute_inv_nf_positive no_control_table ["A"])
    as (invs & Hinv & _); [discriminate|exact no_control_positive|].
  exact (proj1 (empty_control_raises no_control_table ["A"] eq_refl) invs Hinv).
Qed.

Lemma single_sample_out :
  ∃ out, compute_inv_nf_vs_control single_sample_table ["A"] = Ok out.
Proof.
  destruct (compute_inv_nf_vs_control_positive single_sample_table ["A"])
    as (out & Hout & _).
  - discriminate.
  - exact single_sample_positive.
  - discriminate.
  - repeat constructor.
  - exists out; exact Hout.
Qed.

(** One value, and a group of one row: the code divides by zero. *)
Lemma degenerate_sample_counterexample :
  compute_stats [1%R] = Raise ZeroDivisionError ∧
  _cond_groups single_sample_table !! "['trt']" = Some [2] ∧
  compute_condition_stats scenario_str single_sample_table ["A"]
    = Raise ZeroDivisionError.
Proof.
  split; [apply compute_stats_degenerate; simpl; lia|].
  split; [reflexivity|].
  destruct single_sample_out as [out Hout].
  apply (single_row_group_raises scenario_float scenario_str
           single_sample_table ["A"] out "['trt']" [2]).
  - exact single_sample_loaded.
  - exact Hout.
  - reflexivity.
  - reflexivity.
Qed.

Lemma compute_nf_unknown_genes_witness :
  compute_nf scenario_table ["X"] = Ok [1%R; 1%R; 1%R; 1%R].
Proof.
  apply (proj1 (compute_nf_unknown_genes scenario_table [] ["X"]
                  ltac:(intros g Hg Hh; apply list_elem_of_singleton in Hg as ->;
                        repeat (apply elem_of_cons in Hh as [Hh|Hh]; [discriminate Hh|]);
                        inversion Hh))).
  discriminate.
Defined.

(** * Further properties of the code *)

(** ** Adding rows *)

Section AddRows.

Variable float_of_string : string → option R.
Variable str_vals : list pyval → string.

Lemma py_float_PFloat (x : R) : py_float float_of_string (PFloat x) = Ok x.
Proof. reflexivity. Qed.

Lemma coerce_cells_Ok (non_data headers : list string) (idx : nat)
    (data data' : list pyval) :
  coerce_cells float_of_string non_data headers idx data = Ok data' →
  length data' = length data ∧
  (∀ j h, headers !! j = Some h → h ∉ non_data →
     ∃ v x, data !! (idx + j) = Some v ∧ py_float float_of_string v = Ok x ∧
            data' !! (idx + j) = Some (PFloat x)) ∧
  (∀ i, (∀ j h, headers !! j = Some h → h ∉ non_data → i ≠ idx + j) →
        data' !! i = data !! i).
Proof.
  revert idx data; induction headers as [|h0 headers IH]; intros idx data; simpl.
  - intros E; injection E as <-. split; [reflexivity|]. split; [|reflexivity].
    intros j h Hj. rewrite lookup_nil in Hj. discriminate.
  - destruct (bool_decide (h0 ∈ non_data)) eqn:Hnd.
    + apply bool_decide_eq_true in Hnd. intros H.
      destruct (IH _ _ H) as (Hlen & Hconv & Hkeep).
      split; [exact Hlen|]. split.
      * intros [|j] h Hj Hh; simpl in Hj.
        -- injection Hj as <-. contradiction.
        -- replace (idx + S j) with (S idx + j) by lia. eauto.
      * intros i Hi. apply Hkeep. intros j h Hj Hh.
        replace (S idx + j) with (idx + S j) by lia. apply (Hi (S j) h); auto.
    + apply bool_decide_eq_false in Hnd. intros H.
      apply bind_Ok in H as (v & Hv & H). apply py_index_Ok in Hv.
      apply bind_Ok in H as (x & Hx & H).
      destruct (IH _ _ H) as (Hlen & Hconv & Hkeep).
      rewrite length_insert in Hlen.
      split; [exact Hlen|]. split.
      * intros [|j] h Hj Hh; simpl in Hj.
        -- injection Hj as <-. rewrite Nat.add_0_r. exists v, x.
           split; [exact Hv|]. split; [exact Hx|].
           rewrite Hkeep.
           ++ apply list_lookup_insert_eq. apply lookup_lt_Some in Hv. exact Hv.
           ++ intros j h' _ _. lia.
        -- replace (idx + S j) with (S idx + j) by lia.
           destruct (Hconv j h Hj Hh) as (v' & x' & Hv' & Hx' & Hd').
           rewrite list_lookup_insert_ne in Hv' by lia. eauto.
      * intros i Hi. rewrite Hkeep.
        -- apply list_lookup_insert_ne. specialize (Hi 0 h0 eq_refl Hnd). lia.
        -- intros j h Hj Hh. replace (S idx + j) with (idx + S j) by lia.
           apply (Hi (S j) h); auto.
Qed.

Lemma coerce_cells_total (non_data headers : list string) (idx : nat)
    (data : list pyval) :
  cells_convert float_of_string non_data headers idx data →
  ∃ data', coerce_cells float_of_string non_data headers idx data = Ok data'.
Proof.
  revert idx data; induction headers as [|h0 headers IH]; intros idx data Hc; simpl.
  - eexists; reflexivity.
  - assert (Hrest : ∀ data1, (∀ i, i ≠ idx → data1 !! i = data !! i) →
              cells_convert float_of_string non_data headers (S idx) data1).
    { intros data1 Hsame j h Hj Hh.
      destruct (Hc (S j) h Hj Hh) as (v & x & Hv & Hx).
      exists v, x. replace (S idx + j) with (idx + S j) by lia.
      rewrite Hsame by lia. auto. }
    destruct (bool_decide (h0 ∈ non_data)) eqn:Hnd.
    + apply IH, Hrest. auto.
    + apply bool_decide_eq_false in Hnd.
      destruct (Hc 0 h0 eq_refl Hnd) as (v & x & Hv & Hx).
      rewrite Nat.add_0_r in Hv. apply py_index_Ok in Hv.
      rewrite Hv, bind_ret_l, Hx, bind_ret_l.
      apply IH, Hrest. intros i Hi. apply list_lookup_insert_ne. lia.
Qed.


Lemma cond_value_lt (data : list pyval) (x : nat) :
  x < length data → ∃ v, cond_value float_of_string data x = Ok v.
Proof.
  intros Hx. apply lookup_lt_is_Some in Hx as [c Hc]. unfold cond_value.
  apply py_index_Ok in Hc. rewrite Hc, bind_ret_l.
  destruct (py_float float_of_string c); eexists; reflexivity.
Qed.

Lemma cond_value_Ok_lt (data : list pyval) (x : nat) (v : pyval) :
  cond_value float_of_string data x = Ok v → x < length data.
Proof.
  unfold cond_value. intros H. apply bind_Ok in H as (c & Hc & _).
  apply py_index_Ok in Hc. apply lookup_lt_Some in Hc. exact Hc.
Qed.

Lemma mapM_Raise_elem {A B : Type} (f : A → result B) (l : list A) (e : exn) :
  mapM f l = Raise e → ∃ x, x ∈ l ∧ f x = Raise e.
Proof.
  induction l as [|x l IH]; simpl; [discriminate|].
  destruct (f x) as [y|e'] eqn:Hx.
  - rewrite bind_ret_l. destruct (mapM f l) as [k|e'']; [discriminate|].
    intros E; injection E as <-. destruct (IH eq_refl) as (x' & Hin & Hx').
    exists x'. split; [right; exact Hin|exact Hx'].
  - intros E; injection E as <-. exists x. split; [left|exact Hx].
Qed.

Lemma cond_value_Raise (data : list pyval) (x : nat) (e : exn) :
  cond_value float_of_string data x = Raise e → e = IndexError.
Proof.
  unfold cond_value, py_index. destruct (data !! x) as [c|].
  - rewrite bind_ret_l. destruct (py_float float_of_string c); discriminate.
  - intros E; injection E as <-; reflexivity.
Qed.

Lemma coerce_cells_Raise (non_data headers : list string) (idx : nat)
    (data : list pyval) (e : exn) :
  coerce_cells float_of_string non_data headers idx data = Raise e →
  e = ValueError ∨ e = IndexError.
Proof.
  revert idx data; induction headers as [|h hs IH]; intros idx data; simpl;
    [discriminate|].
  destruct (bool_decide (h ∈ non_data)); [apply IH|].
  unfold py_index. destruct (data !! idx) as [c|].
  - rewrite bind_ret_l. destruct (py_float float_of_string c) as [x|e'] eqn:Hc.
    + rewrite bind_ret_l. apply IH.
    + intros E; injection E as <-. left.
      destruct c as [x|s]; simpl in Hc; [discriminate|].
      destruct (float_of_string s); congruence.
  - intros E; injection E as <-; auto.
Qed.

(** X1.  [add] returns exactly when every cell under a data column (a
    header outside [_non_data]) is there and converts with [float], every
    condition column lies inside the row, and the control values have been
    set.  What it raises otherwise is [ValueError] (a cell that does not
    convert), [IndexError] (a row that is too short) or [AttributeError]
    (control values never set), and nothing else. *)
Theorem add_succeeds_iff (d : Data) (row : list pyval) :
  ((∃ d', add float_of_string str_vals d row = Ok d') ↔
   cells_convert float_of_string (_non_data d) (_headers d) 0 row ∧
   Forall (λ x, x < length row) (_cond_idx d) ∧
   is_Some (_control_cond_vals d)) ∧
  (∀ e, add float_of_string str_vals d row = Raise e →
        e = ValueError ∨ e = IndexError ∨ e = AttributeError).
Proof.
  split; [split|].
  - intros [d' H]. unfold add in H.
    apply bind_Ok in H as (data & Hdata & H).
    apply bind_Ok in H as (cv & Hcv & H).
    apply bind_Ok in H as (control & Hcontrol & _).
    destruct (coerce_cells_Ok _ _ _ _ _ Hdata) as (Hlen & Hconv & _).
    split; [|split].
    + intros j h Hj Hh. destruct (Hconv j h Hj Hh) as (v & x & Hv & Hx & _). eauto.
    + apply Forall_forall. intros x Hx. apply list_elem_of_lookup in Hx as [i Hi].
      destruct (mapM_Ok_lookup _ _ _ _ _ Hcv Hi) as (v & _ & Hv).
      apply cond_value_Ok_lt in Hv. lia.
    + destruct (_control_cond_vals d); [eauto|discriminate].
  - intros (Hconv & Hidx & [c Hc]).
    destruct (coerce_cells_total _ _ _ _ Hconv) as [data Hdata].
    pose proof (coerce_cells_Ok _ _ _ _ _ Hdata) as (Hlen & _ & _).
    destruct (mapM_total (cond_value float_of_string data) (_cond_idx d))
      as [cv Hcv].
    { eapply Forall_impl; [exact Hidx|]. intros x Hx. apply cond_value_lt. simpl in Hx. lia. }
    unfold add. rewrite Hdata, bind_ret_l, Hcv, bind_ret_l, Hc, bind_ret_l.
    destruct (_cond_groups d !! str_vals cv); eexists; reflexivity.
  - intros e H. unfold add in H.
    destruct (coerce_cells float_of_string (_non_data d) (_headers d) 0 row)
      as [data|e1] eqn:Hdata.
    + rewrite bind_ret_l in H.
      destruct (mapM (cond_value float_of_string data) (_cond_idx d))
        as [cv|e2] eqn:Hcv.
      * rewrite bind_ret_l in H.
        destruct (_control_cond_vals d) as [c|].
        -- rewrite bind_ret_l in H.
           destruct (_cond_groups d !! str_vals cv); discriminate.
        -- injection H as <-. auto.
      * injection H as <-. right; left.
        apply mapM_Raise_elem in Hcv as (x & _ & Hx).
        apply (cond_value_Raise _ _ _ Hx).
    + injection H as <-. destruct (coerce_cells_Raise _ _ _ _ _ Hdata); auto.
Qed.


Lemma add_all_rows (rows : list (list pyval)) (d d' : Data) :
  add_all float_of_string str_vals d rows = Ok d' →
  _headers d' = _headers d ∧ _non_data d' = _non_data d ∧
  _cond_idx d' = _cond_idx d ∧ _control_cond_vals d' = _control_cond_vals d ∧
  ∃ stored, _data d' = _data d ++ stored ∧
            Forall2 (λ raw row,
                       coerce_cells float_of_string (_non_data d) (_headers d) 0 raw
                       = Ok row) rows stored.
Proof.
  revert d; induction rows as [|raw rows IH]; intros d; simpl.
  - intros E; injection E as <-. repeat split; try reflexivity.
    exists []. rewrite app_nil_r. split; [reflexivity|constructor].
  - intros H. apply bind_Ok in H as (d1 & Hadd & H).
    destruct (add_frame _ _ _ _ _ Hadd) as (Hh & Hn & Hc & Hv & row & Hrow & Hd).
    destruct (IH _ H) as (Hh' & Hn' & Hc' & Hv' & stored & Hd' & Hst).
    repeat split; try congruence.
    exists (row :: stored). split.
    + rewrite Hd', Hd, <- app_assoc. reflexivity.
    + constructor; [exact Hrow|]. rewrite <- Hh, <- Hn. exact Hst.
Qed.

Lemma stored_rows_numeric (d0 d : Data) (rows : list (list pyval)) :
  empty_table d0 →
  add_all float_of_string str_vals d0 rows = Ok d →
  Forall (numeric_row (_non_data d) (_headers d)) (_data d).
Proof.
  intros (Hd0 & _) H.
  destruct (add_all_rows rows d0 d H) as (Hh & Hn & _ & _ & stored & Hd & Hst).
  rewrite Hd0 in Hd. simpl in Hd. rewrite Hd, Hh, Hn.
  apply Forall_forall. intros row Hrow.
  apply list_elem_of_lookup in Hrow as [i Hi].
  destruct (Forall2_lookup_r _ _ _ _ _ Hst Hi) as (raw & _ & Hraw).
  simpl in Hraw.
  destruct (coerce_cells_Ok _ _ _ _ _ Hraw) as (_ & Hconv & _).
  intros j h Hj Hh'. destruct (Hconv j h Hj Hh') as (v & x & _ & _ & Hx).
  exists x. exact Hx.
Qed.

(** X2.  After loading, every stored row has the length of the row that
    was read, holds a float in every data column, and keeps the cells of
    all other positions (sample ID, conditions) as they were read. *)
Theorem loaded_rows_numeric (d0 d : Data) (rows : list (list pyval)) :
  empty_table d0 →
  add_all float_of_string str_vals d0 rows = Ok d →
  Forall2 (λ raw row,
             length row = length raw ∧
             numeric_row (_non_data d) (_headers d) row ∧
             ∀ i, (∀ h, _headers d !! i = Some h → h ∈ _non_data d) →
                  row !! i = raw !! i)
          rows (_data d).
Proof.
  intros (Hd0 & _) H.
  destruct (add_all_rows rows d0 d H) as (Hh & Hn & _ & _ & stored & Hd & Hst).
  rewrite Hd0 in Hd. simpl in Hd. rewrite Hd, Hh, Hn.
  eapply Forall2_impl; [exact Hst|]. intros raw row Hrow. simpl in Hrow.
  destruct (coerce_cells_Ok _ _ _ _ _ Hrow) as (Hlen & Hconv & Hkeep).
  split; [exact Hlen|]. split.
  - intros j h Hj Hh'. destruct (Hconv j h Hj Hh') as (v & x & _ & _ & Hx).
    exists x. exact Hx.
  - intros i Hi. apply Hkeep. intros j h Hj Hh' ->. simpl in Hi.
    apply Hh'. apply Hi. exact Hj.
Qed.

End AddRows.

(** ** Normalization factors of a loaded table *)

Lemma compress_Forall_lookup {A : Type} (P : A → Prop) (f : string → bool)
    (headers : list string) (row : list A) :
  (∀ j h c, headers !! j = Some h → f h = true → row !! j = Some c → P c) →
  Forall P (compress row (map f headers)).
Proof.
  revert row; induction headers as [|h headers IH]; intros row Hall; simpl.
  - destruct row; constructor.
  - destruct row as [|c row]; [constructor|].
    assert (Hrest : Forall P (compress row (map f headers))).
    { apply IH. intros j h' c' Hj Hf Hc. apply (Hall (S j) h' c'); assumption. }
    destruct (f h) eqn:Hf; [|exact Hrest].
    constructor; [|exact Hrest]. apply (Hall 0 h c); auto.
Qed.

Lemma mapM_cases {A B : Type} (f : A → result B) (e : exn) (l : list A) :
  Forall (λ x, (∃ y, f x = Ok y) ∨ f x = Raise e) l →
  (∃ k, mapM f l = Ok k) ∨ mapM f l = Raise e.
Proof.
  induction 1 as [|x l Hx _ IH]; simpl; [left; eexists; reflexivity|].
  destruct Hx as [[y ->]| ->]; [|right; reflexivity].
  rewrite bind_ret_l. destruct IH as [[k ->]| ->];
    [left; eexists|right]; reflexivity.
Qed.

Lemma py_pow_root_cases (p : R) (n : nat) :
  0 < n →
  (∃ r, py_pow p (1 / INR n) = Ok r) ∨ py_pow p (1 / INR n) = Raise ValueError.
Proof.
  intros Hn. destruct (py_pow p (1 / INR n)) as [r|e] eqn:E; [left; eauto|].
  right. destruct (py_pow_Raise p n e Hn E) as [-> _]. reflexivity.
Qed.

Section DataColumns.

Variable float_of_string : string → option R.
Variable str_vals : list pyval → string.

(** X3.  On a loaded table, [compute_nf] over genes that are all data
    columns returns, or raises [ValueError] (the root of a negative
    product): a loaded table gives no [TypeError], no [ZeroDivisionError]
    and no [IndexError] there. *)
Theorem compute_nf_data_columns (d : Data) (genes : list string) :
  loaded float_of_string str_vals d →
  genes ≠ [] →
  (∀ g, g ∈ genes → g ∉ _non_data d) →
  (∃ nfs, compute_nf d genes = Ok nfs) ∨ compute_nf d genes = Raise ValueError.
Proof.
  intros (d0 & rows & He & Hadd) Hne Hg.
  pose proof (stored_rows_numeric _ _ d0 d rows He Hadd) as Hrows.
  unfold compute_nf. apply mapM_cases, Forall_forall. intros row Hrow.
  rewrite Forall_forall in Hrows. pose proof (Hrows row Hrow) as Hnum.
  assert (Hcells : Forall (λ c, ∃ x, c = PFloat x)
            (compress row (map (λ header, bool_decide (header ∈ genes)) (_headers d)))).
  { apply compress_Forall_lookup. intros j h c Hj Hh Hc.
    apply bool_decide_eq_true in Hh.
    destruct (Hnum j h Hj (Hg h Hh)) as [x Hx]. exists x. congruence. }
  assert (Hfl : ∃ vs, compress row (map (λ header, bool_decide (header ∈ genes))
                                        (_headers d)) = map PFloat vs).
  { clear -Hcells. induction Hcells as [|c l [x ->] _ [vs ->]].
    - exists []; reflexivity.
    - exists (x :: vs); reflexivity. }
  destruct Hfl as [vs ->]. rewrite reduce_mul_floats, bind_ret_l.
  assert (Hlen : 0 < length genes) by (destruct genes; [congruence|simpl; lia]).
  rewrite py_div_Ok, bind_ret_l.
  - apply py_pow_root_cases, Hlen.
  - apply (lt_INR 0) in Hlen. simpl in Hlen. lra.
Qed.

End DataColumns.

(** ** Condition groups of a loaded table *)

Section Groups.

Variable float_of_string : string → option R.
Variable str_vals : list pyval → string.

(** X5.  [add] appends the row to the group of its own condition tuple:
    afterwards [condition_group] of that tuple returns the group the label
    had before (nothing, for a new label) followed by the index of the new
    row, and the group of every other label is as before. *)
Theorem add_then_condition_group (d d' : Data) (row : list pyval) :
  add float_of_string str_vals d row = Ok d' →
  ∃ (stored t : list pyval) (g : list nat),
    _data d' = _data d ++ [stored] ∧
    row_cond_values float_of_string d' stored = Ok t ∧
    (_cond_groups d !! str_vals t = Some g ∨
     (_cond_groups d !! str_vals t = None ∧ g = [])) ∧
    condition_group str_vals d' t = Ok (g ++ [length (_data d)]) ∧
    (∀ t', str_vals t' ≠ str_vals t →
           condition_group str_vals d' t' = condition_group str_vals d t').
Proof.
  unfold add. intros H.
  apply bind_Ok in H as (data & Hdata & H).
  apply bind_Ok in H as (cv & Hcv & H).
  apply bind_Ok in H as (control & Hctl & H).
  destruct (_cond_groups d !! str_vals cv) as [g|] eqn:Eg; injection H as <-.
  - exists data, cv, g. unfold condition_group, row_cond_values; simpl.
    split; [reflexivity|]. split; [exact Hcv|]. split; [left; exact Eg|].
    split.
    + rewrite lookup_alter_eq, Eg. reflexivity.
    + intros t' Hne. rewrite lookup_alter_ne by congruence. reflexivity.
  - exists data, cv, []. unfold condition_group, row_cond_values; simpl.
    split; [reflexivity|]. split; [exact Hcv|]. split; [right; auto|].
    split.
    + rewrite lookup_alter_eq, lookup_insert_eq. reflexivity.
    + intros t' Hne. rewrite lookup_alter_ne by congruence.
      rewrite lookup_insert_ne by congruence. reflexivity.
Qed.

End Groups.

(** ** Condition columns *)

Lemma elem_of_cond_indices (conditions headers : list string) (k i : nat) :
  i ∈ cond_indices conditions headers k ↔
  k ≤ i ∧ ∃ h, headers !! (i - k) = Some h ∧ h ∈ conditions.
Proof.
  revert k; induction headers as [|h0 headers IH]; intros k; simpl.
  - rewrite elem_of_nil. split; [tauto|]. intros (_ & h & Hh & _). discriminate.
  - assert (Hstep : i ∈ cond_indices conditions headers (S k) ↔
              S k ≤ i ∧ ∃ h, (h0 :: headers) !! (i - k) = Some h ∧ h ∈ conditions).
    { rewrite IH. split; intros [Hle Hh]; (split; [exact Hle|]).
      - replace (i - k) with (S (i - S k)) by lia. exact Hh.
      - replace (i - k) with (S (i - S k)) in Hh by lia. exact Hh. }
    destruct (bool_decide (h0 ∈ conditions)) eqn:Hc.
    + apply bool_decide_eq_true in Hc. rewrite elem_of_cons, Hstep. split.
      * intros [->|[Hle Hh]]; [|split; [lia|exact Hh]].
        split; [lia|]. rewrite Nat.sub_diag. exists h0. auto.
      * intros [Hle Hh]. destruct (decide (i = k)) as [->|Hik]; [left; reflexivity|].
        right. split; [lia|exact Hh].
    + apply bool_decide_eq_false in Hc. rewrite Hstep. split.
      * intros [Hle Hh]; split; [lia|exact Hh].
      * intros [Hle Hh]. split; [|exact Hh].
        destruct (decide (i = k)) as [->|Hik]; [|lia].
        rewrite Nat.sub_diag in Hh. destruct Hh as (h & Hh & Hin).
        simpl in Hh. injection Hh as <-. contradiction.
Qed.

Lemma cond_indices_sorted (conditions headers : list string) (k : nat) :
  StronglySorted lt (cond_indices conditions headers k).
Proof.
  revert k; induction headers as [|h0 headers IH]; intros k; simpl; [constructor|].
  destruct (bool_decide (h0 ∈ conditions)); [|apply IH].
  constructor; [apply IH|]. apply Forall_forall. intros i Hi.
  apply elem_of_cond_indices in Hi as [Hle _]. lia.
Qed.

Lemma cond_indices_ext (c1 c2 headers : list string) (k : nat) :
  (∀ h, h ∈ c1 ↔ h ∈ c2) →
  cond_indices c1 headers k = cond_indices c2 headers k.
Proof.
  intros Hc. revert k; induction headers as [|h0 headers IH]; intros k; simpl;
    [reflexivity|].
  rewrite (bool_decide_ext _ _ (Hc h0)), !IH. reflexivity.
Qed.

(** X6.  [set_condition_col_names] stores the condition columns in the
    order of the header row: the indices increase strictly, are exactly the
    header positions whose name is among the conditions, and do not depend
    on the order or the multiplicity of the names given. *)
Theorem condition_columns_header_order (d : Data) (conditions : list string) :
  StronglySorted lt (_cond_idx (set_condition_col_names d conditions)) ∧
  (∀ i, i ∈ _cond_idx (set_condition_col_names d conditions) ↔
        ∃ h, _headers d !! i = Some h ∧ h ∈ conditions) ∧
  (∀ conditions', (∀ h, h ∈ conditions ↔ h ∈ conditions') →
     _cond_idx (set_condition_col_names d conditions') =
     _cond_idx (set_condition_col_names d conditions)).
Proof.
  simpl. split; [apply cond_indices_sorted|]. split.
  - intros i. rewrite elem_of_cond_indices, Nat.sub_0_r.
    split; [tauto|]. intros H; split; [lia|exact H].
  - intros c' Hc. symmetry. apply cond_indices_ext, Hc.
Qed.

(** ** One gene, zero and negative products *)

Lemma py_pow_one (x : R) : py_pow x (1 / INR 1) = Ok x.
Proof.
  simpl INR. replace (1 / 1)%R with 1%R by lra. unfold py_pow.
  destruct (decide (1%R = 0%R)) as [E|_]; [lra|].
  destruct (decide (x = 0%R)) as [->|Hx0].
  - destruct (Rlt_dec 1 0); [lra|reflexivity].
  - destruct (Rlt_dec x 0) as [Hneg|Hpos].
    + destruct (Int_part_frac_part_spec 1 1 0) as [Hi Hf]; [lra|simpl; lra|].
      rewrite <- Hf, <- Hi.
      destruct (decide (0%R = 0%R)); [|contradiction].
      f_equal. simpl. lra.
    + f_equal. apply Rpower_1. lra.
Qed.

Lemma mapM_ext_result {A B : Type} (f g : A → result B) (l : list A) :
  (∀ x, f x = g x) → mapM f l = mapM g l.
Proof.
  intros H. induction l as [|x l IH]; simpl; [reflexivity|].
  rewrite H, IH. reflexivity.
Qed.

(** X7.  With a single gene, the normalization factor of a row is the
    product of the selected cells as it is: the first root [x ** (1.0/1)]
    never fails and changes nothing, also for zero and negative values. *)
Theorem compute_nf_single_gene (d : Data) (g : string) :
  compute_nf d [g] =
  mapM (λ row,
          reduce_mul
            (compress row (map (λ header, bool_decide (header ∈ [g])) (_headers d)))
            1%R)
       (_data d).
Proof.
  unfold compute_nf. apply mapM_ext_result. intros row.
  destruct (reduce_mul _ 1) as [p|e]; [|reflexivity].
  rewrite !bind_ret_l. simpl length.
  rewrite (py_div_Ok 1 (INR 1)) by (simpl; lra).
  rewrite bind_ret_l. apply py_pow_one.
Qed.

Lemma Rprod_zero (vs : list R) : Rprod vs = 0%R ↔ 0%R ∈ vs.
Proof.
  induction vs as [|v vs IH]; simpl.
  - rewrite elem_of_nil. split; [lra|tauto].
  - rewrite elem_of_cons, <- IH. split.
    + intros H. apply Rmult_integral in H as [->|H]; auto.
    + intros [E|E]; [rewrite <- E|rewrite E]; lra.
Qed.

(** X8.  In exact arithmetic a normalization factor is zero exactly when
    a selected cell of its row is zero (a float product of cells that are
    not zero can underflow to [0.0]); [compute_inv_nf] returns the
    reciprocals when no factor is zero, and raises [ZeroDivisionError]
    when one is. *)
Theorem compute_inv_nf_zero (d : Data) (genes : list string) (nfs : list R) :
  compute_nf d genes = Ok nfs →
  (∀ i row nf, _data d !! i = Some row → nfs !! i = Some nf →
     (nf = 0%R ↔
      PFloat 0 ∈ compress row
                   (map (λ header, bool_decide (header ∈ genes)) (_headers d)))) ∧
  ((Forall (λ nf, nf ≠ 0%R) nfs ∧
    compute_inv_nf d genes = Ok (map (λ nf, 1 / nf)%R nfs)) ∨
   (0%R ∈ nfs ∧ compute_inv_nf d genes = Raise ZeroDivisionError)).
Proof.
  intros H. split.
  - intros i row nf Hrow Hnf. unfold compute_nf in H.
    destruct (mapM_Ok_lookup _ _ _ _ _ H Hrow) as (nf' & Hnf' & Hy).
    assert (nf' = nf) as -> by congruence.
    apply bind_Ok in Hy as (p & Hp & Hy). apply bind_Ok in Hy as (e & He & Hpow).
    apply reduce_mul_Ok in Hp as (vs & Hvs & ->). rewrite Rmult_1_l in Hpow.
    apply py_div_inv in He as [He ->].
    assert (Hn : 0 < length genes).
    { destruct genes; [simpl in He; congruence|simpl; lia]. }
    pose proof (py_pow_root _ _ _ Hn Hpow) as Hroot. rewrite Hvs.
    assert (Hz : nf = 0%R ↔ Rprod vs = 0%R).
    { rewrite <- Hroot. split.
      - intros ->. apply pow_i, Hn.
      - intros E. destruct (Req_dec nf 0) as [|Hne]; [assumption|].
        exfalso. exact (pow_nonzero nf _ Hne E). }
    rewrite Hz, Rprod_zero. split.
    + intros Hin. apply list_elem_of_In, in_map, list_elem_of_In, Hin.
    + intros Hin. apply list_elem_of_In, in_map_iff in Hin as (v & Hv & Hin).
      injection Hv as ->. apply list_elem_of_In, Hin.
  - unfold compute_inv_nf. rewrite H, bind_ret_l. apply mapM_inv_cases.
Qed.

Lemma py_pow_root_negative (p : R) (n : nat) :
  (p < 0)%R → 2 ≤ n → py_pow p (1 / INR n) = Raise ValueError.
Proof.
  intros Hp Hn. assert (H2 : (2 <= INR n)%R) by (apply (le_INR 2), Hn).
  assert (He : (0 < 1 / INR n < 1)%R).
  { split; [apply Rdiv_lt_0_compat; lra|].
    apply Rmult_lt_reg_r with (INR n); [lra|].
    unfold Rdiv. rewrite Rmult_assoc, Rinv_l by lra. lra. }
  unfold py_pow.
  destruct (decide ((1 / INR n)%R = 0%R)); [lra|].
  destruct (decide (p = 0%R)); [lra|].
  destruct (Rlt_dec p 0); [|lra].
  rewrite frac_part_small by lra.
  destruct (decide ((1 / INR n)%R = 0%R)); [lra|reflexivity].
Qed.

(** X9.  In exact arithmetic, with two or more genes, the root of a
    negative product raises [ValueError]; so whenever [compute_nf]
    returns, the selected cells of every row are floats whose product is
    not negative, and no factor is negative.  (A float product that has
    overflowed to [-inf] is outside exact arithmetic: its root is [inf].) *)
Theorem compute_nf_root_nonneg (d : Data) (genes : list string) (nfs : list R) :
  2 ≤ length genes →
  (∀ p, (p < 0)%R → py_pow p (1 / INR (length genes)) = Raise ValueError) ∧
  (compute_nf d genes = Ok nfs →
   ∀ i row nf, _data d !! i = Some row → nfs !! i = Some nf →
     ∃ vs, compress row (map (λ header, bool_decide (header ∈ genes)) (_headers d))
             = map PFloat vs ∧
           (0 <= Rprod vs)%R ∧ (0 <= nf)%R).
Proof.
  intros Hn. split; [intros p Hp; apply py_pow_root_negative; assumption|].
  intros H i row nf Hrow Hnf. unfold compute_nf in H.
  destruct (mapM_Ok_lookup _ _ _ _ _ H Hrow) as (nf' & Hnf' & Hy).
  assert (nf' = nf) as -> by congruence.
  apply bind_Ok in Hy as (p & Hp & Hy). apply bind_Ok in Hy as (e & He & Hpow).
  apply reduce_mul_Ok in Hp as (vs & Hvs & ->). rewrite Rmult_1_l in Hpow.
  apply py_div_inv in He as [He ->].
  exists vs. split; [exact Hvs|].
  destruct (Rlt_dec (Rprod vs) 0) as [Hneg|Hge].
  { rewrite (py_pow_root_negative _ _ Hneg Hn) in Hpow. discriminate. }
  split; [lra|].
  destruct (Req_dec (Rprod vs) 0) as [E0|Hne].
  - pose proof (py_pow_root _ _ (length genes) ltac:(lia) Hpow) as Hroot.
    rewrite E0 in Hroot. destruct (Req_dec nf 0) as [->|Hnf0]; [lra|].
    exfalso. exact (pow_nonzero nf _ Hnf0 Hroot).
  - rewrite py_pow_pos in Hpow by lra. injection Hpow as <-.
    left. apply Rpower_gt_0.
Qed.

(** ** Order of the samples, and the ranking as a whole *)

Lemma Rsum_perm (l k : list R) : l ≡ₚ k → Rsum l = Rsum k.
Proof.
  induction 1 as [|x l k _ IH|x y l|l k m _ IH1 _ IH2]; simpl; lra.
Qed.

(** X10.  [compute_stats] does not depend on the order of the numbers (in
    exact arithmetic): permuted samples give the same mean, deviation and
    standard error, or the same exception. *)
Theorem compute_stats_perm (numbers numbers' : list R) :
  numbers ≡ₚ numbers' → compute_stats numbers = compute_stats numbers'.
Proof.
  intros Hp. unfold compute_stats. rewrite !py_sum_Rsum.
  rewrite (Rsum_perm _ _ Hp), (Permutation_length Hp).
  rewrite (Rsum_perm (map _ numbers) (map (λ x, x ^ 2)%R numbers'))
    by (apply Permutation_map, Hp).
  reflexivity.
Qed.

Section AllOrNothing.

Variable str_vals : list pyval → string.

(** X11.  [compute_all] is all or nothing: it returns exactly when
    [compute_overall_stats] returns for every non-empty sub-list of the
    candidate genes; one failing combination makes the whole ranking
    fail. *)
Theorem compute_all_returns_iff (d : Data) (cand_genes : list string) :
  (∃ res, compute_all str_vals d cand_genes = Ok res) ↔
  (∀ g, g ≠ [] → g `sublist_of` cand_genes →
        ∃ o, compute_overall_stats str_vals d g = Ok o).
Proof.
  unfold compute_all. split.
  - intros [res H] g Hne Hsub.
    apply bind_Ok in H as (recs & Hrecs & _).
    assert (Hin : g ∈ gene_subsets cand_genes) by (apply elem_of_gene_subsets; auto).
    apply list_elem_of_lookup in Hin as [i Hi].
    destruct (mapM_Ok_lookup _ _ _ _ _ Hrecs Hi) as (r & _ & Hr).
    apply bind_Ok in Hr as (cs & _ & Hr). apply bind_Ok in Hr as (o & Ho & _).
    exists o; exact Ho.
  - intros Hall.
    match goal with
    | |- ∃ res, mapM ?f ?l ≫= _ = _ =>
        destruct (mapM_total f l) as [recs Hrecs]
    end; [|rewrite Hrecs, bind_ret_l; eexists; reflexivity].
    apply Forall_forall. intros g Hg.
    apply elem_of_gene_subsets in Hg as [Hne Hsub].
    destruct (Hall g Hne Hsub) as [o Ho].
    pose proof Ho as Ho'. unfold compute_overall_stats in Ho'.
    apply bind_Ok in Ho' as (cs & Hcs & _).
    rewrite Hcs, bind_ret_l, Ho, bind_ret_l. eexists; reflexivity.
Qed.

End AllOrNothing.

(** ** Scaling *)

Lemma py_index_map {A B : Type} (g : A → B) (l : list A) (i : nat) :
  py_index (map g l) i = g <$> py_index l i.
Proof.
  unfold py_index. change (map g l) with (g <$> l).
  rewrite list_lookup_fmap. destruct (l !! i); reflexivity.
Qed.

Lemma mapM_index_fmap {A B : Type} (g : A → B) (l : list A) (idxs : list nat) :
  mapM (py_index (map g l)) idxs = map g <$> mapM (py_index l) idxs.
Proof.
  induction idxs as [|i idxs IH]; [reflexivity|]. simpl mapM.
  rewrite IH, py_index_map.
  destruct (py_index l i); [|reflexivity].
  simpl. destruct (mapM (py_index l) idxs); reflexivity.
Qed.

Lemma mapM_div_cases (c : R) (l : list R) :
  mapM (λ x, py_div x c) l =
  if decide (c = 0%R)
  then (match l with [] => Ok [] | _ :: _ => Raise ZeroDivisionError end)
  else Ok (map (λ x, x / c)%R l).
Proof.
  destruct (decide (c = 0%R)) as [->|Hc]; [|apply mapM_py_div, Hc].
  destruct l as [|x l]; [reflexivity|]. simpl. rewrite py_div_zero. reflexivity.
Qed.

(** X12.  Scaling, in exact arithmetic: when the normalization factors
    of one selection are [k] times those of another ([k] not zero) and the
    control rows are the same, [compute_inv_nf_vs_control] gives the same
    result for both, the exceptions included.  (Floats round the two
    computations differently.) *)
Theorem inv_nf_vs_control_scale (d d' : Data) (genes genes' : list string)
    (nfs : list R) (k : R) :
  k ≠ 0%R →
  compute_nf d genes = Ok nfs →
  compute_nf d' genes' = Ok (map (λ nf, k * nf)%R nfs) →
  control_rows d' = control_rows d →
  compute_inv_nf_vs_control d' genes' = compute_inv_nf_vs_control d genes.
Proof.
  intros Hk Hnf Hnf' Hctl.
  unfold compute_inv_nf_vs_control, compute_inv_nf.
  rewrite Hnf, Hnf', !bind_ret_l, Hctl.
  destruct (mapM_inv_cases nfs) as [[Hall ->]|[Hz ->]].
  - assert (Hinv' : mapM (λ x, py_div 1 x) (map (λ nf, k * nf)%R nfs)
                    = Ok (map (λ y, y / k)%R (map (λ x, 1 / x)%R nfs))).
    { destruct (mapM_inv_cases (map (λ nf, k * nf)%R nfs)) as [[_ ->]|[Hz _]].
      - f_equal. rewrite !map_map. apply map_ext_in. intros x Hx.
        rewrite Forall_forall in Hall. apply list_elem_of_In, Hall in Hx.
        field. auto.
      - exfalso. apply list_elem_of_In, in_map_iff in Hz as (x & Hx & Hin).
        rewrite Forall_forall in Hall. apply list_elem_of_In, Hall in Hin.
        apply Rmult_integral in Hx as [?|?]; contradiction. }
    rewrite Hinv', !bind_ret_l, mapM_index_fmap.
    set (inv := map (λ x, 1 / x)%R nfs).
    destruct (mapM (py_index inv) (control_rows d)) as [ctrl|e]; [|reflexivity].
    simpl fmap. rewrite !bind_ret_l, !py_sum_Rsum, Rsum_scale.
    set (m := INR (length (control_rows d))).
    destruct (decide (m = 0%R)) as [Hm|Hm].
    { unfold py_div. destruct (decide (m = 0%R)); [reflexivity|contradiction]. }
    rewrite !py_div_Ok by exact Hm. rewrite !bind_ret_l, !mapM_div_cases.
    assert (Havg : (Rsum ctrl / k / m)%R = (Rsum ctrl / m / k)%R) by (field; auto).
    rewrite Havg.
    destruct (decide ((Rsum ctrl / m)%R = 0%R)) as [E0|Hne].
    + rewrite E0. replace (0 / k)%R with 0%R by (field; auto).
      destruct (decide (0%R = 0%R)); [|contradiction].
      destruct inv; reflexivity.
    + assert (Hne' : (Rsum ctrl / m / k)%R ≠ 0%R).
      { intros E. apply Hne. apply (f_equal (λ t, t * k)%R) in E.
        unfold Rdiv in E at 1. rewrite Rmult_assoc, Rinv_l in E by exact Hk. lra. }
      destruct (decide ((Rsum ctrl / m / k)%R = 0%R)); [contradiction|].
      assert (Hs : Rsum ctrl ≠ 0%R).
      { intros E. apply Hne. rewrite E. field. exact Hm. }
      f_equal. rewrite map_map. apply map_ext. intros x. field.
      repeat split; assumption.
  - assert (Hz' : 0%R ∈ map (λ nf, k * nf)%R nfs).
    { apply list_elem_of_In, in_map_iff. exists 0%R.
      split; [lra|apply list_elem_of_In, Hz]. }
    destruct (mapM_inv_cases (map (λ nf, k * nf)%R nfs)) as [[Hall _]|[_ ->]];
      [|reflexivity].
    exfalso. rewrite Forall_forall in Hall. exact (Hall 0%R Hz' eq_refl).
Qed.

(** ** Column checks *)

Lemma unknown_columns_elem (cols : col_names) (headers : list string) (x : string) :
  x ∈ unknown_columns cols headers ↔ x ∈ names_of cols ∧ x ∉ headers.
Proof.
  unfold unknown_columns.
  destruct (decide ((list_to_set (names_of cols) : gset string)
                    ⊂ list_to_set headers)) as [[Hsub _]|_].
  - rewrite elem_of_empty. split; [tauto|]. intros [Hin Hnot].
    apply Hnot. apply (elem_of_list_to_set (C := gset string)).
    apply Hsub. apply elem_of_list_to_set, Hin.
  - rewrite elem_of_difference, !elem_of_list_to_set. reflexivity.
Qed.

Lemma unknown_columns_empty (cols : col_names) (headers : list string) :
  unknown_columns cols headers = ∅ ↔ names_of cols ⊆ headers.
Proof.
  split.
  - intros E x Hx. destruct (decide (x ∈ headers)) as [|Hn]; [assumption|].
    exfalso. apply (not_elem_of_empty (C := gset string) x).
    rewrite <- E. apply unknown_columns_elem. auto.
  - intros Hsub. apply set_eq. intros x.
    rewrite unknown_columns_elem, elem_of_empty. split; [|tauto].
    intros [Hin Hnot]. apply Hnot, Hsub, Hin.
Qed.

(** X13.  [unknown_columns] returns exactly the given names that are not
    headers: the test [c_set < h_set] changes nothing.  The result is empty
    exactly when every given name is a header. *)
Theorem unknown_columns_difference (cols : col_names) (headers : list string) :
  unknown_columns cols headers
  = list_to_set (names_of cols) ∖ list_to_set headers ∧
  (unknown_columns cols headers = ∅ ↔ names_of cols ⊆ headers).
Proof.
  split; [|apply unknown_columns_empty].
  apply set_eq. intros x.
  rewrite unknown_columns_elem, elem_of_difference, !elem_of_list_to_set.
  reflexivity.
Qed.

Section CheckInputProps.

Variable set_iter : gset string → list string.

Lemma check_column_cases (name : string) (cols : option col_names)
    (headers : list string) :
  (known_names cols headers ∧ check_column set_iter name cols headers = (None, [])) ∨
  (¬ known_names cols headers ∧
   ∃ msg, check_column set_iter name cols headers = (Some 4, [msg]) ∨
          check_column set_iter name cols headers = (Some 5, [msg])).
Proof.
  unfold check_column. destruct cols as [c|].
  - destruct (no_names c) eqn:Hn.
    + right. split; [|eauto]. intros (c' & E & Hn' & _). congruence.
    + destruct (decide (unknown_columns c headers = ∅)) as [E|N].
      * left. split; [|reflexivity]. exists c.
        split; [reflexivity|]. split; [exact Hn|]. apply unknown_columns_empty, E.
      * right. split; [|eauto]. intros (c' & E & _ & Hsub).
        injection E as <-. apply N, unknown_columns_empty, Hsub.
  - right. split; [|eauto]. intros (c & E & _). discriminate.
Qed.

Lemma check_columns_status (col_info : list (string * option col_names))
    (headers : list string) :
  (fst (check_columns set_iter col_info headers) = 0 ↔
   Forall (λ info, known_names (snd info) headers) col_info) ∧
  (fst (check_columns set_iter col_info headers) = 0 ∨
   fst (check_columns set_iter col_info headers) = 4 ∨
   fst (check_columns set_iter col_info headers) = 5) ∧
  (fst (check_columns set_iter col_info headers) = 0 →
   snd (check_columns set_iter col_info headers) = []) ∧
  (fst (check_columns set_iter col_info headers) ≠ 0 →
   length (snd (check_columns set_iter col_info headers)) = 1).
Proof.
  induction col_info as [|[name cols] rest (IH1 & IH2 & IH3 & IH4)]; simpl.
  - repeat split; auto; try constructor; congruence.
  - destruct (check_column_cases name cols headers)
      as [[Hk ->]|[Hk [msg [-> | ->]]]]; simpl.
    + destruct (check_columns set_iter rest headers) as [s out]. simpl in *.
      split; [|auto]. rewrite IH1. split.
      * intros H. constructor; assumption.
      * intros H. inversion H; assumption.
    + split; [|split; [auto|split; [discriminate|reflexivity]]].
      split; [discriminate|]. intros H. inversion H. contradiction.
    + split; [|split; [auto|split; [discriminate|reflexivity]]].
      split; [discriminate|]. intros H. inversion H. contradiction.
Qed.

Lemma check_input_zero_iff (sample : option string)
    (conds : option (list string)) (control_values : option (list pyval))
    (gene_names : option (list string)) (headers : list string) :
  fst (check_input set_iter sample conds control_values gene_names headers) = 0 ↔
  (∃ s, sample = Some s ∧ s ≠ ""%string ∧ s ∈ headers) ∧
  (∃ l, conds = Some l ∧ l ≠ [] ∧ l ⊆ headers) ∧
  (∃ l, gene_names = Some l ∧ l ≠ [] ∧ l ⊆ headers).
Proof.
  unfold check_input.
  destruct (check_columns_status
              [("sample ID"%string, OneName <$> sample);
               ("control"%string, NameList <$> conds);
               ("genes"%string, NameList <$> gene_names)] headers)
    as (H1 & _).
  rewrite H1. clear.
  assert (Hone : known_names (OneName <$> sample) headers ↔
                 ∃ s, sample = Some s ∧ s ≠ ""%string ∧ s ∈ headers).
  { unfold known_names. split.
    - intros (c & E & Hn & Hsub). destruct sample as [s|]; [|discriminate].
      injection E as <-. simpl in *. apply bool_decide_eq_false in Hn.
      exists s. split; [reflexivity|]. split; [exact Hn|]. apply Hsub. left.
    - intros (s & -> & Hne & Hin). exists (OneName s). simpl.
      split; [reflexivity|]. split; [apply bool_decide_eq_false, Hne|].
      intros x Hx. apply list_elem_of_singleton in Hx as ->. exact Hin. }
  assert (Hlist : ∀ o, known_names (NameList <$> o) headers ↔
                       ∃ l, o = Some l ∧ l ≠ [] ∧ l ⊆ headers).
  { intros o. unfold known_names. split.
    - intros (c & E & Hn & Hsub). destruct o as [l|]; [|discriminate].
      injection E as <-. simpl in *. apply bool_decide_eq_false in Hn. eauto.
    - intros (l & -> & Hne & Hsub). exists (NameList l). simpl.
      split; [reflexivity|]. split; [apply bool_decide_eq_false, Hne|exact Hsub]. }
  rewrite <- Hone, <- !Hlist. split.
  - intros H. inversion H as [|? ? Ha H']; subst.
    inversion H' as [|? ? Hb H'']; subst. inversion H'' as [|? ? Hc _]; subst. auto.
  - intros (Ha & Hb & Hc). repeat constructor; assumption.
Qed.

(** X14.  [check_input] returns 0 exactly when the sample column, the
    condition columns and the gene columns are all given, not empty, and
    name headers only; otherwise it returns 4 or 5.  With status 0 nothing
    is written to [sys.stderr]; otherwise exactly one message is: the
    status and the message are those of the first check, in the order
    sample ID, control, genes, that fails.  A check of names that are
    missing or empty returns 4 with the message that no names are
    specified; a check of names of which some are no headers returns 5
    with the message that lists the names that are no headers.  The
    control values are not looked at: any other control values give the
    same status and the same message. *)
Theorem check_input_status (sample : option string)
    (conds : option (list string)) (control_values : option (list pyval))
    (gene_names : option (list string)) (headers : list string) :
  (fst (check_input set_iter sample conds control_values gene_names headers) = 0 ↔
   (∃ s, sample = Some s ∧ s ≠ ""%string ∧ s ∈ headers) ∧
   (∃ l, conds = Some l ∧ l ≠ [] ∧ l ⊆ headers) ∧
   (∃ l, gene_names = Some l ∧ l ≠ [] ∧ l ⊆ headers)) ∧
  (fst (check_input set_iter sample conds control_values gene_names headers) = 0 ∨
   fst (check_input set_iter sample conds control_values gene_names headers) = 4 ∨
   fst (check_input set_iter sample conds control_values gene_names headers) = 5) ∧
  (fst (check_input set_iter sample conds control_values gene_names headers) = 0 →
   snd (check_input set_iter sample conds control_values gene_names headers) = []) ∧
  (fst (check_input set_iter sample conds control_values gene_names headers) ≠ 0 →
   length (snd (check_input set_iter sample conds control_values gene_names headers)) = 1) ∧
  (∀ st msgs,
     check_column set_iter "sample ID" (OneName <$> sample) headers = (Some st, msgs) →
     check_input set_iter sample conds control_values gene_names headers = (st, msgs)) ∧
  (check_column set_iter "sample ID" (OneName <$> sample) headers = (None, []) →
   ∀ st msgs,
     check_column set_iter "control" (NameList <$> conds) headers = (Some st, msgs) →
     check_input set_iter sample conds control_values gene_names headers = (st, msgs)) ∧
  (check_column set_iter "sample ID" (OneName <$> sample) headers = (None, []) →
   check_column set_iter "control" (NameList <$> conds) headers = (None, []) →
   ∀ st msgs,
     check_column set_iter "genes" (NameList <$> gene_names) headers = (Some st, msgs) →
     check_input set_iter sample conds control_values gene_names headers = (st, msgs)) ∧
  (∀ (name : string) (cols : option col_names),
     ((cols = None ∨ ∃ c, cols = Some c ∧ no_names c = true) →
      check_column set_iter name cols headers = (Some 4, [no_names_message name])) ∧
     (∀ c, cols = Some c → no_names c = false → ¬ names_of c ⊆ headers →
        check_column set_iter name cols headers
        = (Some 5, [unknown_message set_iter name
                      (list_to_set (names_of c) ∖ list_to_set headers)])) ∧
     (∀ c, cols = Some c → no_names c = false → names_of c ⊆ headers →
        check_column set_iter name cols headers = (None, []))) ∧
  (∀ control_values' : option (list pyval),
     check_input set_iter sample conds control_values' gene_names headers
     = check_input set_iter sample conds control_values gene_names headers).
Proof.
  assert (Hst : ∀ name cols st msgs,
            check_column set_iter name cols headers = (Some st, msgs) → st ≠ 0).
  { intros name cols st msgs E.
    destruct (check_column_cases name cols headers)
      as [[_ E']|[_ [msg [E'|E']]]]; rewrite E' in E;
      [discriminate E| |]; injection E as E _; lia. }
  split; [apply check_input_zero_iff|].
  split; [|split; [|split]];
    try (unfold check_input;
         destruct (check_columns_status
                     [("sample ID"%string, OneName <$> sample);
                      ("control"%string, NameList <$> conds);
                      ("genes"%string, NameList <$> gene_names)] headers)
           as (_ & H2 & H3 & H4); auto; fail).
  split; [|split; [|split; [|split]]].
  - intros st msgs E. unfold check_input. cbn [check_columns]. rewrite E.
    destruct (decide (st = 0)) as [Z|_]; [|reflexivity].
    exfalso. exact (Hst _ _ _ _ E Z).
  - intros E1 st msgs E. unfold check_input. cbn [check_columns]. rewrite E1, E.
    destruct (decide (st = 0)) as [Z|_]; [|reflexivity].
    exfalso. exact (Hst _ _ _ _ E Z).
  - intros E1 E2 st msgs E. unfold check_input. cbn [check_columns].
    rewrite E1, E2, E.
    destruct (decide (st = 0)) as [Z|_]; [|reflexivity].
    exfalso. exact (Hst _ _ _ _ E Z).
  - intros name cols. split; [|split].
    + intros [->|(c & -> & Hn)]; unfold check_column; [reflexivity|].
      rewrite Hn. reflexivity.
    + intros c -> Hn Hsub. unfold check_column. rewrite Hn.
      destruct (decide (unknown_columns c headers = ∅)) as [E|_].
      * exfalso. apply Hsub, unknown_columns_empty, E.
      * assert (Hdiff : unknown_columns c headers
                = list_to_set (names_of c) ∖ list_to_set headers).
        { apply set_eq. intros x.
          rewrite unknown_columns_elem, elem_of_difference, !elem_of_list_to_set.
          reflexivity. }
        rewrite Hdiff. reflexivity.
    + intros c -> Hn Hsub. unfold check_column. rewrite Hn.
      destruct (decide (unknown_columns c headers = ∅)) as [_|N]; [reflexivity|].
      exfalso. apply N, unknown_columns_empty, Hsub.
  - intros cv'. reflexivity.
Qed.

(** X15.  Once [check_input] has returned 0 and the gene names are stored
    with [set_gene_col_names], as [read_file] does, [genes] returns the
    stored names whatever index list it is given: the indices that [main]
    computes from the command line are not used. *)
Theorem configured_genes_win (sample : option string)
    (conds : option (list string)) (control_values : option (list pyval))
    (gene_names : option (list string)) (headers : list string)
    (dg : DataGenes) (idx : option (list Z)) :
  fst (check_input set_iter sample conds control_values gene_names headers) = 0 →
  ∃ l, gene_names = Some l ∧ l ⊆ headers ∧
       Data_genes (set_gene_col_names dg gene_names) idx
       = Ok (l, set_gene_col_names dg gene_names).
Proof.
  intros H. apply check_input_zero_iff in H as (_ & _ & l & -> & Hne & Hsub).
  exists l. split; [reflexivity|]. split; [exact Hsub|].
  unfold Data_genes. simpl. destruct l; [congruence|reflexivity].
Qed.

End CheckInputProps.

(** ** Result rows *)

Lemma length_concat_const {A B : Type} (f : A → list B) (n : nat) (l : list A) :
  (∀ x, length (f x) = n) → length (concat (map f l)) = n * length l.
Proof.
  intros Hf. induction l as [|x l IH]; simpl; [lia|].
  rewrite length_app, Hf, IH. lia.
Qed.

Lemma header_row_length (d : Data) :
  length (header_row d) = 5 + 4 * nr_conditions d.
Proof.
  unfold header_row. rewrite !length_app, length_map, length_seq.
  rewrite (length_concat_const _ 3) by reflexivity.
  rewrite length_seq. simpl. lia.
Qed.

Lemma output_row_length (stats : gene_combination) :
  length (output_row stats) = 5 + 4 * length (conds stats).
Proof.
  unfold output_row. rewrite !length_app, length_map.
  rewrite (length_concat_const _ 3) by reflexivity. simpl. lia.
Qed.

Section ResultRows.

Variable str_vals : list pyval → string.

Lemma compute_condition_stats_length (d : Data) (g : list string)
    (stats : list cond_stat) :
  compute_condition_stats str_vals d g = Ok stats →
  length stats = nr_conditions d.
Proof.
  rewrite compute_condition_stats_unfold. intros H.
  apply bind_Ok in H as (out & _ & H). apply mapM_Ok_length in H. exact H.
Qed.

(** X16.  When [compute_all] returns, [write_results] hands [2 ^ k] rows
    to the CSV writer for [k] candidate genes (the header row and one row
    per combination), every row has 5 + 4 * (number of conditions) cells,
    and the row of a combination starts with its gene names joined by
    [" + "] and its inter-condition CV. *)
Theorem write_results_rectangular (d : Data) (cand_genes : list string)
    (res : list gene_combination) :
  compute_all str_vals d cand_genes = Ok res →
  length (write_results d res) = 2 ^ length cand_genes ∧
  Forall (λ row, length row = 5 + 4 * nr_conditions d) (write_results d res) ∧
  (∀ i r, res !! i = Some r →
     ∃ row, write_results d res !! (S i) = Some row ∧
            row !! 0 = Some (PStr (String.concat " + " (genes r))) ∧
            row !! 1 = Some (PFloat (ov_cv_inter (overall r)))).
Proof.
  intros H. unfold compute_all in H.
  apply bind_Ok in H as (recs & Hrecs & H). injection H as <-.
  pose proof (py_sort_perm sort_key recs) as Hperm.
  assert (Hlen : length recs = 2 ^ length cand_genes - 1).
  { apply mapM_Ok_length in Hrecs. rewrite Hrecs. apply gene_subsets_length. }
  assert (Hpow : 0 < 2 ^ length cand_genes).
  { apply Nat.neq_0_lt_0, Nat.pow_nonzero. lia. }
  split; [|split].
  - unfold write_results. rewrite length_cons, length_map.
    rewrite (Permutation_length Hperm), Hlen. lia.
  - unfold write_results. constructor.
    + rewrite length_map. apply header_row_length.
    + apply Forall_forall. intros row Hrow.
      apply list_elem_of_In, in_map_iff in Hrow as (r & <- & Hr).
      apply list_elem_of_In in Hr. rewrite Hperm in Hr.
      apply list_elem_of_lookup in Hr as [i Hi].
      apply mapM_Ok in Hrecs.
      destruct (Forall2_lookup_r _ _ _ _ _ Hrecs Hi) as (g & _ & Hg).
      apply bind_Ok in Hg as (cs & Hcs & Hg). apply bind_Ok in Hg as (ov & _ & Hg).
      injection Hg as <-. rewrite output_row_length. simpl.
      rewrite (compute_condition_stats_length d g cs Hcs). reflexivity.
  - intros i r Hi. exists (output_row r). split; [|split; reflexivity].
    unfold write_results. simpl.
    change (map output_row ?l) with (output_row <$> l).
    rewrite list_lookup_fmap, Hi. reflexivity.
Qed.

End ResultRows.

(** ** Gene selection *)

Lemma py_getitem_Ok {A : Type} (l : list A) (i : Z) (x : A) :
  py_getitem l i = Ok x ↔
  ((0 ≤ i)%Z ∧ l !! Z.to_nat i = Some x) ∨
  ((- Z.of_nat (length l) ≤ i < 0)%Z ∧
   l !! Z.to_nat (Z.of_nat (length l) + i) = Some x).
Proof.
  unfold py_getitem. destruct (decide (0 ≤ i)%Z) as [Hi|Hi].
  - rewrite py_index_Ok. split; [auto|]. intros [[_ H]|[H _]]; [exact H|lia].
  - destruct (decide (- Z.of_nat (length l) ≤ i)%Z) as [Hl|Hl].
    + rewrite py_index_Ok. split; [intros H; right; split; [lia|exact H]|].
      intros [[H _]|[_ H]]; [lia|exact H].
    + split; [discriminate|]. intros [[H _]|[H _]]; lia.
Qed.

Lemma py_getitem_cases {A : Type} (l : list A) (i : Z) :
  ((- Z.of_nat (length l) ≤ i < Z.of_nat (length l))%Z ∧
   ∃ x, py_getitem l i = Ok x) ∨
  (¬ (- Z.of_nat (length l) ≤ i < Z.of_nat (length l))%Z ∧
   py_getitem l i = Raise IndexError).
Proof.
  unfold py_getitem, py_index. destruct (decide (0 ≤ i)%Z) as [Hi|Hi].
  - destruct (l !! Z.to_nat i) as [x|] eqn:E.
    + left. apply lookup_lt_Some in E. split; [lia|eauto].
    + right. apply lookup_ge_None in E. split; [lia|reflexivity].
  - destruct (decide (- Z.of_nat (length l) ≤ i)%Z) as [Hl|Hl].
    + destruct (l !! Z.to_nat (Z.of_nat (length l) + i)) as [x|] eqn:E.
      * left. split; [lia|eauto].
      * apply lookup_ge_None in E. lia.
    + right. split; [lia|reflexivity].
Qed.

Lemma Data_genes_by_index (dg : DataGenes) (idx : list Z) :
  no_gene_names dg → idx ≠ [] →
  Data_genes dg (Some idx) =
  names ← mapM (py_getitem (_headers (table dg))) idx;
  Ok (names, {| table := table dg; _gene_names := _gene_names dg;
                _gene_idx := Some idx |}).
Proof.
  intros Hn Hidx. unfold Data_genes.
  destruct idx as [|i idx]; [congruence|].
  destruct Hn as [-> | ->]; simpl; destruct (_gene_idx dg); reflexivity.
Qed.

(** X17.  Without stored names, [genes] with a non-empty index list
    returns the headers at these indices (a negative index counts from the
    end) and remembers the list: a later call without indices ([None] or
    the empty list) returns the same names. *)
Theorem genes_by_index_remembered (dg dg' : DataGenes) (idx : list Z)
    (names : list string) :
  no_gene_names dg → idx ≠ [] →
  Data_genes dg (Some idx) = Ok (names, dg') →
  _gene_idx dg' = Some idx ∧
  Forall2 (λ i name,
             ((0 ≤ i)%Z ∧ _headers (table dg) !! Z.to_nat i = Some name) ∨
             ((i < 0)%Z ∧
              _headers (table dg)
                !! Z.to_nat (Z.of_nat (length (_headers (table dg))) + i)
              = Some name))
          idx names ∧
  Data_genes dg' None = Ok (names, dg') ∧
  Data_genes dg' (Some []) = Ok (names, dg').
Proof.
  intros Hn Hidx H. rewrite (Data_genes_by_index dg idx Hn Hidx) in H.
  apply bind_Ok in H as (names' & Hnames & H). injection H as -> <-.
  split; [reflexivity|]. split.
  - apply mapM_Ok in Hnames. eapply Forall2_impl; [exact Hnames|].
    intros i name Hi. simpl in Hi.
    apply py_getitem_Ok in Hi as [[? ?]|[[? ?] ?]]; [left|right]; auto.
  - assert (Hagain : ∀ o, nonempty_list o = false → o = None ∨ o = Some [] →
              Data_genes {| table := table dg; _gene_names := _gene_names dg;
                            _gene_idx := Some idx |} o
              = Ok (names, {| table := table dg; _gene_names := _gene_names dg;
                              _gene_idx := Some idx |})).
    { intros o Ho Hcase. unfold Data_genes. simpl.
      destruct Hn as [-> | ->]; destruct Hcase as [-> | ->]; simpl;
        rewrite Hnames; reflexivity. }
    split; apply Hagain; auto.
Qed.

(** X18.  How [genes] fails.  Before [set_gene_col_names] it raises
    [AttributeError].  Without stored names and without remembered indices,
    [genes(None)] exits with status 3 and [genes([])] raises [TypeError].
    With a non-empty index list it returns exactly when every index [i] has
    [-len(headers) <= i < len(headers)], and raises [IndexError]
    otherwise. *)
Theorem genes_errors (dg : DataGenes) :
  (_gene_names dg = None → ∀ idx, Data_genes dg idx = Raise AttributeError) ∧
  (no_gene_names dg →
   (_gene_idx dg = None → Data_genes dg None = Raise (SystemExit 3)) ∧
   (_gene_idx dg = None → Data_genes dg (Some []) = Raise TypeError) ∧
   (∀ idx, idx ≠ [] →
      ((∃ r, Data_genes dg (Some idx) = Ok r) ↔
       Forall (λ i, - Z.of_nat (length (_headers (table dg))) ≤ i
                    < Z.of_nat (length (_headers (table dg))))%Z idx) ∧
      (∀ e, Data_genes dg (Some idx) = Raise e → e = IndexError))).
Proof.
  split.
  - intros Hn idx. unfold Data_genes. rewrite Hn. reflexivity.
  - intros Hn. split; [|split].
    + intros Hi. unfold Data_genes. rewrite Hi.
      destruct Hn as [-> | ->]; reflexivity.
    + intros Hi. unfold Data_genes.
      destruct Hn as [-> | ->]; simpl; rewrite Hi; reflexivity.
    + intros idx Hidx. rewrite (Data_genes_by_index dg idx Hn Hidx). split.
      * split.
        -- intros [r H]. apply bind_Ok in H as (names & Hnames & _).
           apply mapM_Ok in Hnames. apply Forall_forall. intros i Hi.
           apply list_elem_of_lookup in Hi as [k Hk].
           destruct (Forall2_lookup_l _ _ _ _ _ Hnames Hk) as (x & _ & Hx).
           destruct (py_getitem_cases (_headers (table dg)) i)
             as [[Hr _]|[_ Hr]]; [exact Hr|congruence].
        -- intros Hall.
           destruct (mapM_total (py_getitem (_headers (table dg))) idx)
             as [names Hnames].
           { eapply Forall_impl; [exact Hall|]. intros i Hi. simpl in Hi.
             destruct (py_getitem_cases (_headers (table dg)) i)
               as [[_ Hr]|[Hr _]]; [exact Hr|contradiction]. }
           rewrite Hnames, bind_ret_l. eexists; reflexivity.
      * intros e H.
        destruct (mapM (py_getitem (_headers (table dg))) idx) as [names|e']
          eqn:Hm; [discriminate|].
        injection H as <-.
        induction idx as [|i idx IH]; [discriminate|]. simpl in Hm.
        destruct (py_getitem_cases (_headers (table dg)) i)
          as [[_ [x Hx]]|[_ Hx]]; rewrite Hx in Hm.
        -- rewrite bind_ret_l in Hm.
           destruct (mapM (py_getitem (_headers (table dg))) idx) as [k|e'']
             eqn:Hm'; [discriminate|].
           injection Hm as <-. destruct idx as [|j idx]; [discriminate|].
           apply IH; [discriminate|reflexivity].
        -- injection Hm as <-. reflexivity.
Qed.

(** ** The gene specification *)

Lemma is_space_cases (c : ascii) :
  is_space c = true → nat_of_ascii c ∈ [32; 9; 10; 11; 12; 13].
Proof. intros H. apply bool_decide_eq_true in H. exact H. Qed.

Lemma is_space_not_comma (c : ascii) : is_space c = true → c ≠ ","%char.
Proof. intros H ->. vm_compute in H. discriminate. Qed.

Lemma is_digit_range (c : ascii) :
  is_digit c = true → 48 ≤ nat_of_ascii c ≤ 57.
Proof. intros H. apply bool_decide_eq_true in H. exact H. Qed.

Lemma is_digit_not_comma (c : ascii) : is_digit c = true → c ≠ ","%char.
Proof. intros H ->. vm_compute in H. discriminate. Qed.

Lemma is_digit_not_hyphen (c : ascii) : is_digit c = true → c ≠ "-"%char.
Proof. intros H ->. vm_compute in H. discriminate. Qed.

Lemma is_digit_not_space (c : ascii) : is_digit c = true → is_space c = false.
Proof.
  intros H. apply is_digit_range in H. apply bool_decide_eq_false.
  intros Hs. repeat (apply elem_of_cons in Hs as [Hs|Hs]; [lia|]).
  inversion Hs.
Qed.

Lemma forallb_reverse {A : Type} (f : A → bool) (l : list A) :
  forallb f (reverse l) = forallb f l.
Proof.
  induction l as [|x l IH]; [reflexivity|].
  rewrite reverse_cons, forallb_app, IH. simpl. rewrite andb_true_r.
  apply andb_comm.
Qed.

Lemma lstrip_idemp (s : list ascii) : lstrip (lstrip s) = lstrip s.
Proof.
  induction s as [|c s IH]; simpl; [reflexivity|].
  destruct (is_space c) eqn:E; [exact IH|]. simpl. rewrite E. reflexivity.
Qed.

Lemma lstrip_app (a b : list ascii) :
  lstrip (a ++ b) = if forallb is_space a then lstrip b else lstrip a ++ b.
Proof.
  induction a as [|c a IH]; simpl; [reflexivity|].
  destruct (is_space c); simpl; [exact IH|reflexivity].
Qed.

Lemma lstrip_spaces (a : list ascii) : forallb is_space a = true → lstrip a = [].
Proof.
  intros H. rewrite <- (app_nil_r a), lstrip_app, H. reflexivity.
Qed.

Lemma rstrip_cons (c : ascii) (s : list ascii) :
  rstrip (c :: s) =
  if forallb is_space s then (if is_space c then [] else [c])
  else c :: rstrip s.
Proof.
  unfold rstrip. rewrite reverse_cons, lstrip_app, forallb_reverse.
  destruct (forallb is_space s).
  - simpl. destruct (is_space c); reflexivity.
  - rewrite reverse_app. reflexivity.
Qed.

Lemma rstrip_nil : rstrip [] = [].
Proof. reflexivity. Qed.

Lemma rstrip_spaces (a : list ascii) : forallb is_space a = true → rstrip a = [].
Proof.
  intros H. unfold rstrip. rewrite lstrip_spaces; [reflexivity|].
  rewrite forallb_reverse. exact H.
Qed.

Lemma rstrip_app_spaces (a w : list ascii) :
  forallb is_space w = true → rstrip (a ++ w) = rstrip a.
Proof.
  intros H. unfold rstrip. rewrite reverse_app, lstrip_app, forallb_reverse, H.
  reflexivity.
Qed.

Lemma lstrip_rstrip (s : list ascii) : lstrip (rstrip s) = rstrip (lstrip s).
Proof.
  induction s as [|c s IH]; [reflexivity|].
  rewrite rstrip_cons. simpl. destruct (is_space c) eqn:Ec.
  - destruct (forallb is_space s) eqn:Es.
    + rewrite (lstrip_spaces s Es). reflexivity.
    + simpl. rewrite Ec. exact IH.
  - rewrite rstrip_cons, Ec. destruct (forallb is_space s); simpl; rewrite Ec;
      reflexivity.
Qed.

Lemma rstrip_idemp (s : list ascii) : rstrip (rstrip s) = rstrip s.
Proof.
  unfold rstrip. rewrite reverse_involutive, lstrip_idemp. reflexivity.
Qed.

Lemma strip_lstrip (s : list ascii) : strip (lstrip s) = strip s.
Proof. unfold strip. rewrite lstrip_idemp. reflexivity. Qed.

Lemma strip_rstrip (s : list ascii) : strip (rstrip s) = strip s.
Proof. unfold strip. rewrite lstrip_rstrip, rstrip_idemp. reflexivity. Qed.

Lemma strip_spaces_l (w s : list ascii) :
  forallb is_space w = true → strip (w ++ s) = strip s.
Proof. intros H. unfold strip. rewrite lstrip_app, H. reflexivity. Qed.

Lemma strip_spaces_r (s w : list ascii) :
  forallb is_space w = true → strip (s ++ w) = strip s.
Proof.
  intros H. unfold strip. rewrite lstrip_app.
  destruct (forallb is_space s) eqn:Es.
  - rewrite (lstrip_spaces w H), (lstrip_spaces s Es). reflexivity.
  - apply rstrip_app_spaces, H.
Qed.

Lemma strip_digits (s : list ascii) : forallb is_digit s = true → strip s = s.
Proof.
  assert (Hl : ∀ s, forallb is_digit s = true → lstrip s = s).
  { intros [|c t] H; [reflexivity|]. simpl in *.
    apply andb_prop in H as [Hc _]. rewrite (is_digit_not_space c Hc).
    reflexivity. }
  intros H. unfold strip, rstrip. rewrite (Hl s H), Hl.
  - apply reverse_involutive.
  - rewrite forallb_reverse. exact H.
Qed.

(** *** Splitting at the commas *)

Lemma split_commas_nonempty (s : list ascii) : split_commas s ≠ [].
Proof.
  destruct s as [|c s]; simpl; [discriminate|].
  destruct (decide (c = ","%char)); [discriminate|].
  destruct (split_commas s); discriminate.
Qed.

Lemma split_commas_app (s1 s2 : list ascii) :
  split_commas (s1 ++ ","%char :: s2) = split_commas s1 ++ split_commas s2.
Proof.
  induction s1 as [|c s1 IH]; simpl.
  - destruct (decide (","%char = ","%char)); [reflexivity|congruence].
  - destruct (decide (c = ","%char)); [rewrite IH; reflexivity|].
    rewrite IH. pose proof (split_commas_nonempty s1).
    destruct (split_commas s1); [congruence|reflexivity].
Qed.

Lemma split_commas_prefix (w s : list ascii) :
  Forall (λ c, c ≠ ","%char) w →
  split_commas (w ++ s) =
  match split_commas s with
  | p :: ps => (w ++ p) :: ps
  | [] => []
  end.
Proof.
  intros H. induction H as [|c w Hc _ IH]; simpl.
  - destruct (split_commas s); reflexivity.
  - destruct (decide (c = ","%char)); [contradiction|]. rewrite IH.
    pose proof (split_commas_nonempty s).
    destruct (split_commas s); [congruence|reflexivity].
Qed.

Lemma split_commas_none (w : list ascii) :
  Forall (λ c, c ≠ ","%char) w → split_commas w = [w].
Proof.
  intros H. rewrite <- (app_nil_r w) at 1.
  rewrite (split_commas_prefix w [] H). simpl. rewrite app_nil_r. reflexivity.
Qed.

Lemma spaces_no_comma (w : list ascii) :
  forallb is_space w = true → Forall (λ c, c ≠ ","%char) w.
Proof.
  intros H. apply Forall_forall. intros c Hc.
  apply is_space_not_comma. rewrite forallb_forall in H.
  apply H, list_elem_of_In, Hc.
Qed.

Lemma digits_no_comma (w : list ascii) :
  forallb is_digit w = true → Forall (λ c, c ≠ ","%char) w.
Proof.
  intros H. apply Forall_forall. intros c Hc.
  apply is_digit_not_comma. rewrite forallb_forall in H.
  apply H, list_elem_of_In, Hc.
Qed.

Lemma split_commas_suffix (s w : list ascii) :
  forallb is_space w = true →
  Forall2 (λ p q, strip p = strip q) (split_commas (s ++ w)) (split_commas s) ∧
  Forall2 (λ p q, ∃ w', forallb is_space w' = true ∧ p = q ++ w')
          (split_commas (s ++ w)) (split_commas s).
Proof.
  intros Hw.
  assert (H : Forall2 (λ p q, ∃ w', forallb is_space w' = true ∧ p = q ++ w')
                (split_commas (s ++ w)) (split_commas s)).
  { induction s as [|c s IH]; simpl.
    - rewrite (split_commas_none w (spaces_no_comma w Hw)).
      constructor; [|constructor]. exists w. auto.
    - destruct (decide (c = ","%char)).
      + constructor; [|exact IH]. exists []. auto.
      + inversion IH as [|p q ps qs (w' & Hw' & ->) Hrest E1 E2].
        * pose proof (split_commas_nonempty s). congruence.
        * constructor; [|exact Hrest]. exists w'. auto. }
  split; [|exact H].
  eapply Forall2_impl; [exact H|]. intros p q (w' & Hw' & ->).
  apply strip_spaces_r, Hw'.
Qed.

Lemma trim_pieces_strip (first : bool) (pieces : list (list ascii)) :
  Forall2 (λ p q, strip p = strip q) (trim_pieces first pieces) pieces.
Proof.
  revert first. induction pieces as [|p rest IH]; intros first; [constructor|].
  destruct rest as [|q rest].
  - simpl. constructor; [|constructor].
    destruct first; [reflexivity|apply strip_lstrip].
  - change (trim_pieces first (p :: q :: rest))
      with ((if first then rstrip p else rstrip (lstrip p))
            :: trim_pieces false (q :: rest)).
    constructor; [|apply IH].
    destruct first; rewrite strip_rstrip; [reflexivity|apply strip_lstrip].
Qed.

Lemma part_indices_strip (g : string) (p q : list ascii) :
  strip p = strip q → part_indices g p = part_indices g q.
Proof. intros E. unfold part_indices. rewrite E. reflexivity. Qed.

Lemma part_indices_fst (g g' : string) (p : list ascii) :
  fst (part_indices g p) = fst (part_indices g' p) ∧
  length (snd (part_indices g p)) = length (snd (part_indices g' p)).
Proof.
  unfold part_indices. destruct (match_number (strip p)); [auto|].
  destruct (match_range (strip p)) as [[a b]|]; auto.
Qed.

Lemma concat_map_Forall2 {A B : Type} (f g : A → list B) (l k : list A) :
  Forall2 (λ p q, f p = g q) l k → concat (map f l) = concat (map g k).
Proof.
  intros H. induction H as [|p q l k E _ IH]; simpl; [reflexivity|].
  rewrite E, IH. reflexivity.
Qed.

Lemma length_concat_Forall2 {A B : Type} (f g : A → list B) (l k : list A) :
  Forall2 (λ p q, length (f p) = length (g q)) l k →
  length (concat (map f l)) = length (concat (map g k)).
Proof.
  intros H. induction H as [|p q l k E _ IH]; simpl; [reflexivity|].
  rewrite !length_app, E, IH. reflexivity.
Qed.

(** The indices and the messages, part by part, without the trimming that
    [re.split] does: [strip] removes the same white space. *)
Lemma compute_gene_idx_pieces (s : string) :
  compute_gene_idx s =
  (concat (map (λ p, fst (part_indices s p))
               (split_commas (list_ascii_of_string s))),
   concat (map (λ p, snd (part_indices s p))
               (split_commas (list_ascii_of_string s)))).
Proof.
  unfold compute_gene_idx, re_split_commas.
  f_equal; apply concat_map_Forall2;
    (eapply Forall2_impl; [apply trim_pieces_strip|]);
    intros p q E; simpl in E; rewrite (part_indices_strip s p q E); reflexivity.
Qed.

Lemma list_ascii_of_string_app (s1 s2 : string) :
  list_ascii_of_string (s1 +:+ s2)
  = list_ascii_of_string s1 ++ list_ascii_of_string s2.
Proof. induction s1 as [|c s1 IH]; simpl; [reflexivity|]. rewrite IH. reflexivity. Qed.

Lemma Forall2_same {A : Type} (R : A → A → Prop) (l : list A) :
  (∀ x, R x x) → Forall2 R l l.
Proof. intros H. induction l; constructor; auto. Qed.

(** X19.  [compute_gene_idx] reads the parts between commas one by one:
    the indices of [s1 + "," + s2] are those of [s1] followed by those of
    [s2], and the numbers of messages add up. *)
Theorem compute_gene_idx_comma (s1 s2 : string) :
  fst (compute_gene_idx (s1 +:+ "," +:+ s2))
  = fst (compute_gene_idx s1) ++ fst (compute_gene_idx s2) ∧
  length (snd (compute_gene_idx (s1 +:+ "," +:+ s2)))
  = length (snd (compute_gene_idx s1)) + length (snd (compute_gene_idx s2)).
Proof.
  rewrite !compute_gene_idx_pieces. simpl fst. simpl snd.
  rewrite !list_ascii_of_string_app.
  change (list_ascii_of_string ",") with [","%char].
  change ([","%char] ++ list_ascii_of_string s2)
    with (","%char :: list_ascii_of_string s2).
  rewrite split_commas_app, !map_app, !concat_app, length_app.
  split.
  - f_equal; apply concat_map_Forall2, Forall2_same; intros p;
      apply part_indices_fst.
  - f_equal; apply length_concat_Forall2, Forall2_same; intros p;
      apply part_indices_fst.
Qed.

(** X20.  White space before and after a gene specification changes
    neither the indices nor the number of messages (with the previous
    property: nor does white space around a comma). *)
Theorem compute_gene_idx_spaces (w1 w2 s : string) :
  forallb is_space (list_ascii_of_string w1) = true →
  forallb is_space (list_ascii_of_string w2) = true →
  fst (compute_gene_idx (w1 +:+ s +:+ w2)) = fst (compute_gene_idx s) ∧
  length (snd (compute_gene_idx (w1 +:+ s +:+ w2)))
  = length (snd (compute_gene_idx s)).
Proof.
  intros H1 H2. rewrite !compute_gene_idx_pieces. simpl fst. simpl snd.
  rewrite !list_ascii_of_string_app.
  set (l1 := list_ascii_of_string w1) in *.
  set (l2 := list_ascii_of_string w2) in *.
  set (l := list_ascii_of_string s).
  assert (H : Forall2 (λ p q, strip p = strip q)
                (split_commas (l1 ++ l ++ l2)) (split_commas l)).
  { rewrite (split_commas_prefix l1 _ (spaces_no_comma l1 H1)).
    destruct (split_commas_suffix l l2 H2) as [Hs _].
    inversion Hs as [|p q ps qs E Hrest E1 E2]; [constructor|].
    constructor; [|exact Hrest]. rewrite strip_spaces_l; assumption. }
  split.
  - apply concat_map_Forall2. eapply Forall2_impl; [exact H|].
    intros p q E. simpl in E. rewrite (part_indices_strip _ p q E).
    apply part_indices_fst.
  - apply length_concat_Forall2. eapply Forall2_impl; [exact H|].
    intros p q E. simpl in E. rewrite (part_indices_strip _ p q E).
    apply part_indices_fst.
Qed.

(** *** Numbers and ranges *)

Lemma int_of_digits_snoc (ds : list ascii) (c : ascii) :
  int_of_digits (ds ++ [c])
  = (10 * int_of_digits ds + (Z.of_nat (nat_of_ascii c) - 48))%Z.
Proof. unfold int_of_digits. rewrite fold_left_app. reflexivity. Qed.

Lemma int_of_digits_nonneg (ds : list ascii) :
  forallb is_digit ds = true → (0 ≤ int_of_digits ds)%Z.
Proof.
  induction ds as [|c ds IH] using rev_ind; intros H; [reflexivity|].
  rewrite forallb_app in H. apply andb_prop in H as [Hds Hc]. simpl in Hc.
  rewrite andb_true_r in Hc. apply is_digit_range in Hc.
  rewrite int_of_digits_snoc. specialize (IH Hds). lia.
Qed.

Lemma pretty_N_char_digit (x : N) :
  (x < 10)%N →
  is_digit (pretty_N_char x) = true ∧
  (Z.of_nat (nat_of_ascii (pretty_N_char x)) - 48 = Z.of_N x)%Z.
Proof.
  intros H.
  assert (x = 0 ∨ x = 1 ∨ x = 2 ∨ x = 3 ∨ x = 4 ∨ x = 5 ∨ x = 6 ∨ x = 7
          ∨ x = 8 ∨ x = 9)%N as Hx by lia.
  repeat (destruct Hx as [->|Hx]; [split; reflexivity|]).
  subst x. split; reflexivity.
Qed.

Lemma pretty_N_go_digits (x : N) (s : string) :
  ∃ ds, list_ascii_of_string (pretty_N_go x s) = ds ++ list_ascii_of_string s ∧
        forallb is_digit ds = true ∧
        int_of_digits ds = Z.of_N x ∧
        ((0 < x)%N → ds ≠ []).
Proof.
  revert s. induction (N.lt_wf_0 x) as [x _ IH]. intros s.
  destruct (decide (x = 0%N)) as [->|Hx].
  - exists []. rewrite pretty_N_go_0. repeat split; auto; lia.
  - rewrite pretty_N_go_step by lia.
    assert (Hlt : (x `div` 10 < x)%N) by (apply N.div_lt; lia).
    destruct (IH _ Hlt (String (pretty_N_char (x `mod` 10)) s))
      as (ds & E & Hd & Hv & _).
    assert (Hm : (x `mod` 10 < 10)%N) by (apply N.mod_lt; lia).
    destruct (pretty_N_char_digit _ Hm) as [Hc Hcv].
    exists (ds ++ [pretty_N_char (x `mod` 10)]). split; [|split; [|split]].
    + rewrite E. simpl. rewrite <- app_assoc. reflexivity.
    + rewrite forallb_app, Hd. simpl. rewrite Hc. reflexivity.
    + rewrite int_of_digits_snoc, Hv, Hcv.
      rewrite (N.div_mod x 10) at 3 by lia. lia.
    + intros _. destruct ds; discriminate.
Qed.

(** The decimal numeral of [n] is read back as [n]. *)
Lemma pretty_N_digits (n : N) :
  digits (list_ascii_of_string (pretty n)) = true ∧
  int_of_digits (list_ascii_of_string (pretty n)) = Z.of_N n.
Proof.
  unfold pretty, pretty_N. destruct (decide (n = 0%N)) as [->|Hn].
  - split; reflexivity.
  - destruct (pretty_N_go_digits n "") as (ds & E & Hd & Hv & Hne).
    simpl in E. rewrite app_nil_r in E. rewrite E. split; [|exact Hv].
    unfold digits. rewrite Hd, andb_true_r. apply bool_decide_eq_true.
    apply Hne. lia.
Qed.

Lemma digits_forallb (s : list ascii) :
  digits s = true → s ≠ [] ∧ forallb is_digit s = true.
Proof.
  unfold digits. intros H. apply andb_prop in H as [H1 H2].
  apply bool_decide_eq_true in H1. auto.
Qed.

Lemma strip_no_space (s : list ascii) :
  Forall (λ c, is_space c = false) s → strip s = s.
Proof.
  assert (Hl : ∀ s, Forall (λ c, is_space c = false) s → lstrip s = s).
  { intros t H. destruct H as [|c t Hc _]; [reflexivity|]. simpl.
    rewrite Hc. reflexivity. }
  intros H. unfold strip, rstrip. rewrite (Hl s H), Hl.
  - apply reverse_involutive.
  - apply Forall_reverse, H.
Qed.

Lemma digits_no_space (s : list ascii) :
  forallb is_digit s = true → Forall (λ c, is_space c = false) s.
Proof.
  intros H. apply Forall_forall. intros c Hc. apply is_digit_not_space.
  rewrite forallb_forall in H. apply H, list_elem_of_In, Hc.
Qed.

Lemma compute_gene_idx_digits (s : string) :
  digits (list_ascii_of_string s) = true →
  compute_gene_idx s = ([(int_of_digits (list_ascii_of_string s) - 1)%Z], []).
Proof.
  intros H. rewrite compute_gene_idx_pieces.
  destruct (digits_forallb _ H) as [_ Hd].
  rewrite (split_commas_none _ (digits_no_comma _ Hd)). simpl.
  unfold part_indices, match_number.
  rewrite (strip_no_space _ (digits_no_space _ Hd)), H. reflexivity.
Qed.

Lemma break_hyphen_digits (a b : list ascii) :
  forallb is_digit a = true → break_hyphen (a ++ "-"%char :: b) = Some (a, b).
Proof.
  induction a as [|c a IH]; simpl; intros H.
  - destruct (decide ("-"%char = "-"%char)); [reflexivity|congruence].
  - apply andb_prop in H as [Hc Ha].
    destruct (decide (c = "-"%char)) as [->|_]; [discriminate|].
    rewrite (IH Ha). reflexivity.
Qed.

Lemma digits_hyphen (a b : list ascii) : digits (a ++ "-"%char :: b) = false.
Proof.
  unfold digits. rewrite forallb_app. simpl.
  rewrite andb_false_r, andb_false_r. reflexivity.
Qed.

Lemma before_final_newline_digit (a b : list ascii) :
  digits b = true → before_final_newline (a ++ b) = a ++ b.
Proof.
  intros H. apply digits_forallb in H as [Hne Hd].
  unfold before_final_newline.
  destruct (reverse (a ++ b)) as [|c r] eqn:E; [reflexivity|].
  destruct (decide (nat_of_ascii c = 10)) as [Hc|_]; [|reflexivity].
  exfalso. assert (Hlast : last (a ++ b) = Some c).
  { rewrite <- (reverse_involutive (a ++ b)), E, reverse_cons. apply last_snoc. }
  rewrite last_app in Hlast. destruct (last b) as [y|] eqn:Hb.
  - injection Hlast as ->. apply last_Some_elem_of in Hb.
    rewrite forallb_forall in Hd. apply list_elem_of_In, Hd in Hb.
    apply is_digit_range in Hb. lia.
  - apply last_None in Hb. contradiction.
Qed.

Lemma compute_gene_idx_digits_range (a b : list ascii) :
  digits a = true → digits b = true →
  compute_gene_idx (string_of_list_ascii (a ++ "-"%char :: b))
  = (seqZ (int_of_digits a - 1) (int_of_digits b - (int_of_digits a - 1)), []).
Proof.
  intros Ha Hb. rewrite compute_gene_idx_pieces.
  rewrite list_ascii_of_string_of_list_ascii.
  destruct (digits_forallb _ Ha) as [_ Hda].
  destruct (digits_forallb _ Hb) as [_ Hdb].
  assert (Hnc : Forall (λ c, c ≠ ","%char) (a ++ "-"%char :: b)).
  { apply Forall_app. split; [apply digits_no_comma, Hda|].
    constructor; [discriminate|apply digits_no_comma, Hdb]. }
  assert (Hns : Forall (λ c, is_space c = false) (a ++ "-"%char :: b)).
  { apply Forall_app. split; [apply digits_no_space, Hda|].
    constructor; [reflexivity|apply digits_no_space, Hdb]. }
  rewrite (split_commas_none _ Hnc). simpl.
  unfold part_indices. rewrite (strip_no_space _ Hns).
  assert (Hn : match_number (a ++ "-"%char :: b) = None).
  { unfold match_number. rewrite digits_hyphen.
    change (a ++ "-"%char :: b) with (a ++ ["-"%char] ++ b).
    rewrite app_assoc, (before_final_newline_digit _ b Hb), <- app_assoc.
    simpl. rewrite digits_hyphen. reflexivity. }
  rewrite Hn. unfold match_range. rewrite (break_hyphen_digits a b Hda), Ha.
  unfold match_number. rewrite Hb. simpl. rewrite !app_nil_r. reflexivity.
Qed.

Lemma compute_gene_idx_number (n : N) :
  compute_gene_idx (pretty n) = ([(Z.of_N n - 1)%Z], []).
Proof.
  destruct (pretty_N_digits n) as [Hn Hv].
  rewrite (compute_gene_idx_digits _ Hn), Hv. reflexivity.
Qed.

Lemma hyphen_string (s1 s2 : string) :
  s1 +:+ "-" +:+ s2
  = string_of_list_ascii
      (list_ascii_of_string s1 ++ "-"%char :: list_ascii_of_string s2).
Proof.
  rewrite <- (string_of_list_ascii_of_string (s1 +:+ "-" +:+ s2)).
  f_equal. rewrite !list_ascii_of_string_app. reflexivity.
Qed.

Lemma compute_gene_idx_range (a b : N) :
  compute_gene_idx (pretty a +:+ "-" +:+ pretty b)
  = (seqZ (Z.of_N a - 1) (Z.of_N b - Z.of_N a + 1), []).
Proof.
  destruct (pretty_N_digits a) as [Ha Hva].
  destruct (pretty_N_digits b) as [Hb Hvb].
  rewrite hyphen_string, (compute_gene_idx_digits_range _ _ Ha Hb), Hva, Hvb.
  do 2 f_equal. lia.
Qed.

(** X21.  The decimal numeral of [a] gives the single index [a - 1] (so
    ["0"] gives [-1]), and the numerals of [a] and [b] around a hyphen give
    the indices [a - 1, ..., b - 1] (none when [b < a]); no message is
    written. *)
Theorem compute_gene_idx_numerals (a b : N) :
  compute_gene_idx (pretty a) = ([(Z.of_N a - 1)%Z], []) ∧
  compute_gene_idx (pretty a +:+ "-" +:+ pretty b)
  = (seqZ (Z.of_N a - 1) (Z.of_N b - Z.of_N a + 1), []).
Proof.
  destruct (pretty_N_digits a) as [Ha Hva].
  destruct (pretty_N_digits b) as [Hb Hvb].
  split.
  - rewrite (compute_gene_idx_digits _ Ha), Hva. reflexivity.
  - rewrite hyphen_string, (compute_gene_idx_digits_range _ _ Ha Hb).
    rewrite Hva, Hvb. do 2 f_equal. lia.
Qed.

Lemma match_number_digits (s a : list ascii) :
  match_number s = Some a → forallb is_digit a = true.
Proof.
  unfold match_number. destruct (digits s) eqn:E1.
  - intros H. injection H as <-. apply digits_forallb in E1 as [_ H]. exact H.
  - destruct (digits (before_final_newline s)) eqn:E2; [|discriminate].
    intros H. injection H as <-. apply digits_forallb in E2 as [_ H]. exact H.
Qed.

Lemma part_indices_bounds (g : string) (p : list ascii) :
  Forall (λ i, (-1 ≤ i)%Z) (fst (part_indices g p)) ∧
  Forall (λ m, m = "### error: invalid gene specs: " +:+ g +:+ newline)
         (snd (part_indices g p)).
Proof.
  unfold part_indices. destruct (match_number (strip p)) as [a|] eqn:E1.
  - split; [|constructor]. constructor; [|constructor].
    apply match_number_digits, int_of_digits_nonneg in E1. lia.
  - destruct (match_range (strip p)) as [[a b]|] eqn:E2.
    + split; [|constructor]. apply Forall_forall. intros i Hi.
      apply elem_of_seqZ in Hi. unfold match_range in E2.
      destruct (break_hyphen (strip p)) as [[a' b']|]; [|discriminate].
      destruct (digits a') eqn:Ha; [|discriminate].
      destruct (match_number b'); [|discriminate]. injection E2 as -> _.
      apply digits_forallb in Ha as [_ Ha].
      apply int_of_digits_nonneg in Ha. lia.
    + split; [constructor|]. constructor; [reflexivity|constructor].
Qed.

Lemma Forall_concat_map {A B : Type} (P : B → Prop) (f : A → list B)
    (l : list A) :
  (∀ x, Forall P (f x)) → Forall P (concat (map f l)).
Proof.
  intros H. induction l as [|x l IH]; simpl; [constructor|].
  apply Forall_app. auto.
Qed.

(** X22.  [compute_gene_idx] returns no index below [-1], and every
    message it writes names the whole specification: a part that is neither
    a number nor a range is skipped, the others still count. *)
Theorem compute_gene_idx_bounds (s : string) :
  Forall (λ i, (-1 ≤ i)%Z) (fst (compute_gene_idx s)) ∧
  Forall (λ m, m = "### error: invalid gene specs: " +:+ s +:+ newline)
         (snd (compute_gene_idx s)).
Proof.
  unfold compute_gene_idx. simpl.
  split; apply Forall_concat_map; intros p; apply part_indices_bounds.
Qed.

(** *** From the specification to the header names *)

Lemma mapM_getitem_seqZ {A : Type} (l : list A) (i k : nat) :
  i + k ≤ length l →
  mapM (py_getitem l) (seqZ (Z.of_nat i) (Z.of_nat k)) = Ok (take k (drop i l)).
Proof.
  intros H. apply mapM_Ok. apply Forall2_same_length_lookup_2.
  - rewrite length_seqZ, length_take, length_drop. lia.
  - intros j x y Hx Hy. apply lookup_seqZ in Hx as [-> Hj].
    apply py_getitem_Ok. left. split; [lia|].
    apply lookup_take_Some in Hy as [Hy _]. rewrite lookup_drop in Hy.
    rewrite <- Hy. f_equal. lia.
Qed.

(** X23.  Without stored names, the specification [a-b] with
    [1 <= a <= b <= len(headers)] makes [genes] return the headers number
    [a] to [b], counted from 1, both included, and remember the indices. *)
Theorem gene_range_selects_headers (dg : DataGenes) (a b : N) :
  no_gene_names dg →
  (1 ≤ a)%N → (a ≤ b)%N → N.to_nat b ≤ length (_headers (table dg)) →
  Data_genes dg (Some (fst (compute_gene_idx (pretty a +:+ "-" +:+ pretty b))))
  = Ok (take (N.to_nat (b - a + 1))
             (drop (N.to_nat (a - 1)) (_headers (table dg))),
        {| table := table dg; _gene_names := _gene_names dg;
           _gene_idx := Some (seqZ (Z.of_N a - 1) (Z.of_N b - Z.of_N a + 1)) |}).
Proof.
  intros Hn Ha Hab Hb.
  rewrite (compute_gene_idx_range a b). simpl fst.
  rewrite Data_genes_by_index; [|exact Hn|].
  - replace (Z.of_N a - 1)%Z with (Z.of_nat (N.to_nat (a - 1))) by lia.
    replace (Z.of_N b - Z.of_N a + 1)%Z
      with (Z.of_nat (N.to_nat (b - a + 1))) by lia.
    rewrite mapM_getitem_seqZ by lia. reflexivity.
  - rewrite seqZ_cons by lia. discriminate.
Qed.

(** X24.  Without stored names, the specification [n] makes [genes]
    return header number [n], counted from 1; [0] returns the last header;
    a number above the number of headers (or [0] with no header at all)
    raises [IndexError]. *)
Theorem gene_number_selects_header (dg : DataGenes) (n : N) :
  no_gene_names dg →
  (∀ h, (1 ≤ n)%N → _headers (table dg) !! N.to_nat (n - 1) = Some h →
     ∃ dg', Data_genes dg (Some (fst (compute_gene_idx (pretty n))))
            = Ok ([h], dg')) ∧
  (∀ h, n = 0%N → last (_headers (table dg)) = Some h →
     ∃ dg', Data_genes dg (Some (fst (compute_gene_idx (pretty n))))
            = Ok ([h], dg')) ∧
  (N.to_nat n > length (_headers (table dg)) ∨
   (n = 0%N ∧ _headers (table dg) = []) →
   Data_genes dg (Some (fst (compute_gene_idx (pretty n)))) = Raise IndexError).
Proof.
  intros Hn. rewrite (compute_gene_idx_number n). simpl fst.
  rewrite Data_genes_by_index; [|exact Hn|discriminate]. simpl.
  split; [|split].
  - intros h H1 Hh.
    assert (E : py_getitem (_headers (table dg)) (Z.of_N n - 1) = Ok h).
    { apply py_getitem_Ok. left. split; [lia|].
      rewrite <- Hh. f_equal. lia. }
    rewrite E. simpl. eexists; reflexivity.
  - intros h -> Hh.
    assert (E : py_getitem (_headers (table dg)) (Z.of_N 0 - 1) = Ok h).
    { apply py_getitem_Ok. right. apply last_Some in Hh as [l' E].
      rewrite E, length_app. simpl. split; [lia|].
      replace (Z.to_nat _) with (length l' + 0) by lia.
      rewrite lookup_app_r by lia.
      replace (length l' + 0 - length l') with 0 by lia. reflexivity. }
    rewrite E. simpl. eexists; reflexivity.
  - intros H.
    destruct (py_getitem_cases (_headers (table dg)) (Z.of_N n - 1))
      as [[Hr _]|[_ ->]]; [|reflexivity].
    destruct H as [H|[-> H]]; [lia|]. rewrite H in Hr. simpl in Hr. lia.
Qed.

(** * The further properties at the worked tables *)

Lemma loaded_rows_numeric_witness :
  Forall2 (λ raw row,
             length row = length raw ∧
             numeric_row (_non_data scenario_table) (_headers scenario_table) row ∧
             ∀ i, (∀ h, _headers scenario_table !! i = Some h →
                        h ∈ _non_data scenario_table) →
                  row !! i = raw !! i)
          scenario_rows (_data scenario_table).
Proof.
  apply (loaded_rows_numeric scenario_float scenario_str
           (new_table scenario_headers "id" ["cond"] [PStr "ctl"])
           scenario_table scenario_rows).
  - apply new_table_empty.
  - exact scenario_load.
Defined.

Lemma scenario_genes_data (g : string) :
  g ∈ ["A"; "B"] → g ∉ _non_data scenario_table.
Proof.
  intros Hg Hn. simpl in Hn.
  repeat (apply elem_of_cons in Hg as [->|Hg];
          [repeat (apply elem_of_cons in Hn as [Hn|Hn]; [discriminate Hn|]);
           inversion Hn|]).
  inversion Hg.
Qed.

Lemma compute_nf_data_columns_witness :
  (∃ nfs, compute_nf scenario_table ["A"; "B"] = Ok nfs) ∨
  compute_nf scenario_table ["A"; "B"] = Raise ValueError.
Proof.
  apply (compute_nf_data_columns scenario_float scenario_str
           scenario_table ["A"; "B"]).
  - exact scenario_loaded.
  - discriminate.
  - exact scenario_genes_data.
Defined.

Lemma add_then_condition_group_witness :
  ∃ (stored t : list pyval) (g : list nat),
    _data scenario_table = _data single_sample_table ++ [stored] ∧
    row_cond_values scenario_float scenario_table stored = Ok t ∧
    (_cond_groups single_sample_table !! scenario_str t = Some g ∨
     (_cond_groups single_sample_table !! scenario_str t = None ∧ g = [])) ∧
    condition_group scenario_str scenario_table t
    = Ok (g ++ [length (_data single_sample_table)]) ∧
    (∀ t', scenario_str t' ≠ scenario_str t →
           condition_group scenario_str scenario_table t'
           = condition_group scenario_str single_sample_table t').
Proof.
  apply (add_then_condition_group scenario_float scenario_str
           single_sample_table scenario_table
           [PStr "s4"; PStr "trt"; PStr "8"; PStr "16"]).
  reflexivity.
Defined.

Lemma compute_inv_nf_zero_witness :
  (∀ i row nf, _data scenario_table !! i = Some row →
     [2%R; 2%R; 8%R; 8%R] !! i = Some nf →
     (nf = 0%R ↔
      PFloat 0 ∈ compress row
                   (map (λ header, bool_decide (header ∈ ["A"]))
                        (_headers scenario_table)))) ∧
  ((Forall (λ nf, nf ≠ 0%R) [2%R; 2%R; 8%R; 8%R] ∧
    compute_inv_nf scenario_table ["A"]
    = Ok (map (λ nf, 1 / nf)%R [2%R; 2%R; 8%R; 8%R])) ∨
   (0%R ∈ [2%R; 2%R; 8%R; 8%R] ∧
    compute_inv_nf scenario_table ["A"] = Raise ZeroDivisionError)).
Proof.
  exact (compute_inv_nf_zero scenario_table ["A"] _ scenario_nf_A).
Defined.

Lemma compute_nf_root_nonneg_witness :
  (∀ p, (p < 0)%R → py_pow p (1 / INR (length ["A"; "B"])) = Raise ValueError) ∧
  compute_nf scenario_table ["A"; "B"] =
    Ok [Rpower (2 * 4) (1 / 2); Rpower (2 * 4) (1 / 2);
        Rpower (8 * 16) (1 / 2); Rpower (8 * 16) (1 / 2)] ∧
  (∀ i row nf, _data scenario_table !! i = Some row →
     [Rpower (2 * 4) (1 / 2); Rpower (2 * 4) (1 / 2);
      Rpower (8 * 16) (1 / 2); Rpower (8 * 16) (1 / 2)] !! i = Some nf →
     ∃ vs, compress row (map (λ header, bool_decide (header ∈ ["A"; "B"]))
                             (_headers scenario_table))
             = map PFloat vs ∧
           (0 <= Rprod vs)%R ∧ (0 <= nf)%R).
Proof.
  destruct (compute_nf_root_nonneg scenario_table ["A"; "B"]
              [Rpower (2 * 4) (1 / 2); Rpower (2 * 4) (1 / 2);
               Rpower (8 * 16) (1 / 2); Rpower (8 * 16) (1 / 2)])
    as [Hneg Hrows]; [simpl; lia|].
  split; [exact Hneg|]. split; [exact scenario_nf|].
  exact (Hrows scenario_nf).
Defined.

Lemma scenario_nf_B_scaled :
  compute_nf scenario_table ["B"]
  = Ok (map (λ nf, 2 * nf)%R [2%R; 2%R; 8%R; 8%R]).
Proof. rewrite scenario_nf_B. simpl. repeat f_equal; lra. Qed.

Lemma inv_nf_vs_control_scale_witness :
  compute_inv_nf_vs_control scenario_table ["B"]
  = compute_inv_nf_vs_control scenario_table ["A"].
Proof.
  apply (inv_nf_vs_control_scale scenario_table scenario_table ["A"] ["B"]
           [2%R; 2%R; 8%R; 8%R] 2).
  - lra.
  - exact scenario_nf_A.
  - exact scenario_nf_B_scaled.
  - reflexivity.
Defined.

Lemma compute_stats_perm_witness :
  compute_stats [1%R; 2%R; 4%R] = compute_stats [4%R; 1%R; 2%R].
Proof.
  apply compute_stats_perm. symmetry.
  apply (Permutation_cons_append [1%R; 2%R] 4%R).
Defined.

Lemma write_results_rectangular_witness :
  length (write_results scenario_table
            [scenario_record ["A"]; scenario_record ["B"];
             scenario_record ["A"; "B"]]) = 2 ^ length ["A"; "B"] ∧
  Forall (λ row, length row = 5 + 4 * nr_conditions scenario_table)
         (write_results scenario_table
            [scenario_record ["A"]; scenario_record ["B"];
             scenario_record ["A"; "B"]]) ∧
  (∀ i r, [scenario_record ["A"]; scenario_record ["B"];
           scenario_record ["A"; "B"]] !! i = Some r →
     ∃ row, write_results scenario_table
              [scenario_record ["A"]; scenario_record ["B"];
               scenario_record ["A"; "B"]] !! (S i) = Some row ∧
            row !! 0 = Some (PStr (String.concat " + " (genes r))) ∧
            row !! 1 = Some (PFloat (ov_cv_inter (overall r)))).
Proof.
  exact (write_results_rectangular scenario_str scenario_table ["A"; "B"] _
           scenario_ranking).
Defined.

Lemma genes_by_index_remembered_witness :
  _gene_idx {| table := scenario_table; _gene_names := Some None;
               _gene_idx := Some [2%Z; (-1)%Z] |} = Some [2%Z; (-1)%Z] ∧
  Forall2 (λ i name,
             ((0 ≤ i)%Z ∧
              _headers (table scenario_genes) !! Z.to_nat i = Some name) ∨
             ((i < 0)%Z ∧
              _headers (table scenario_genes)
                !! Z.to_nat (Z.of_nat (length (_headers (table scenario_genes))) + i)
              = Some name))
          [2%Z; (-1)%Z] ["A"; "B"] ∧
  Data_genes {| table := scenario_table; _gene_names := Some None;
                _gene_idx := Some [2%Z; (-1)%Z] |} None
  = Ok (["A"; "B"], {| table := scenario_table; _gene_names := Some None;
                       _gene_idx := Some [2%Z; (-1)%Z] |}) ∧
  Data_genes {| table := scenario_table; _gene_names := Some None;
                _gene_idx := Some [2%Z; (-1)%Z] |} (Some [])
  = Ok (["A"; "B"], {| table := scenario_table; _gene_names := Some None;
                       _gene_idx := Some [2%Z; (-1)%Z] |}).
Proof.
  apply (genes_by_index_remembered scenario_genes).
  - left. reflexivity.
  - discriminate.
  - reflexivity.
Defined.

Lemma configured_genes_win_witness :
  ∃ l, Some ["A"; "B"] = Some l ∧ l ⊆ scenario_headers ∧
       Data_genes (set_gene_col_names scenario_genes (Some ["A"; "B"]))
                  (Some [1%Z])
       = Ok (l, set_gene_col_names scenario_genes (Some ["A"; "B"])).
Proof.
  apply (configured_genes_win elements (Some "id"%string) (Some ["cond"])
           (Some [PStr "ctl"]) (Some ["A"; "B"]) scenario_headers
           scenario_genes (Some [1%Z])).
  vm_compute. reflexivity.
Defined.

Lemma compute_gene_idx_spaces_witness :
  fst (compute_gene_idx (" " +:+ "1 ,3-4" +:+ "  "))
  = fst (compute_gene_idx "1 ,3-4") ∧
  length (snd (compute_gene_idx (" " +:+ "1 ,3-4" +:+ "  ")))
  = length (snd (compute_gene_idx "1 ,3-4")).
Proof.
  apply (compute_gene_idx_spaces " " "  " "1 ,3-4"); reflexivity.
Defined.

Lemma gene_range_selects_headers_witness :
  Data_genes scenario_genes
    (Some (fst (compute_gene_idx (pretty 3%N +:+ "-" +:+ pretty 4%N))))
  = Ok (take (N.to_nat (4 - 3 + 1))
             (drop (N.to_nat (3 - 1)) (_headers (table scenario_genes))),
        {| table := table scenario_genes;
           _gene_names := _gene_names scenario_genes;
           _gene_idx := Some (seqZ (Z.of_N 3 - 1) (Z.of_N 4 - Z.of_N 3 + 1)) |}).
Proof.
  apply (gene_range_selects_headers scenario_genes 3 4).
  - left. reflexivity.
  - lia.
  - lia.
  - simpl. lia.
Defined.

Lemma gene_number_selects_header_witness :
  (∀ h, (1 ≤ 0)%N → _headers (table scenario_genes) !! N.to_nat (0 - 1) = Some h →
     ∃ dg', Data_genes scenario_genes (Some (fst (compute_gene_idx (pretty 0%N))))
            = Ok ([h], dg')) ∧
  (∀ h, 0%N = 0%N → last (_headers (table scenario_genes)) = Some h →
     ∃ dg', Data_genes scenario_genes (Some (fst (compute_gene_idx (pretty 0%N))))
            = Ok ([h], dg')) ∧
  (N.to_nat 0 > length (_headers (table scenario_genes)) ∨
   (0%N = 0%N ∧ _headers (table scenario_genes) = []) →
   Data_genes scenario_genes (Some (fst (compute_gene_idx (pretty 0%N))))
   = Raise IndexError).
Proof.
  apply (gene_number_selects_header scenario_genes 0). left. reflexivity.
Defined.

Lemma check_input_status_witness :
  check_input elements (Some "id") (Some ["dose"]) None (Some ["A"; "Z"])
    ["id"; "cond"; "A"]
  = (5, [unknown_message elements "control" {["dose"]}]).
Proof.
  destruct (check_input_status elements (Some "id") (Some ["dose"]) None
              (Some ["A"; "Z"]) ["id"; "cond"; "A"])
    as (_ & _ & _ & _ & _ & Hsecond & _ & Hcheck & _).
  apply Hsecond.
  - destruct (Hcheck "sample ID" (Some (OneName "id"))) as (_ & _ & Hok).
    apply (Hok (OneName "id")); [reflexivity|reflexivity|].
    intros x Hx. apply list_elem_of_singleton in Hx as ->. left.
  - destruct (Hcheck "control" (Some (NameList ["dose"]))) as (_ & Hbad & _).
    assert (Hdiff : (list_to_set (names_of (NameList ["dose"])) : gset string)
                    ∖ list_to_set ["id"; "cond"; "A"] = {["dose"]}).
    { apply set_eq. intros x.
      rewrite elem_of_difference, !elem_of_list_to_set, elem_of_singleton.
      simpl. rewrite list_elem_of_singleton. split.
      - intros [-> _]. reflexivity.
      - intros ->. split; [reflexivity|].
        intros H. repeat (apply elem_of_cons in H as [H|H]; [discriminate H|]).
        inversion H. }
    rewrite <- Hdiff. apply (Hbad (NameList ["dose"])); [reflexivity|reflexivity|].
    intros Hsub. specialize (Hsub "dose" ltac:(left)).
    repeat (apply elem_of_cons in Hsub as [Hsub|Hsub]; [discriminate Hsub|]).
    inversion Hsub.
Defined.

(** * The computation on floats *)

(** ** The order of the floats that are not NaN *)

Section FloatOrder.

Import F64.

Ltac compare_cases :=
  repeat match goal with
  | |- context [Z.compare ?a ?b] => destruct (Z.compare_spec a b)
  | |- context [Pos.compare_cont Eq ?a ?b] =>
      rewrite (Pos.compare_cont_spec a b Eq); simpl;
      destruct (Pos.compare_spec a b)
  end; simpl.

Ltac rank_solve :=
  first [ reflexivity | discriminate | lia
        | match goal with H : (_, _, _) = (_, _, _) |- _ => injection H; intros; lia end
        | (subst; reflexivity) | (exfalso; lia) ].

Lemma flt_rank (a b : float) :
  is_nan a = false → is_nan b = false →
  (flt a b = true ↔ rank_lt (float_rank a) (float_rank b)).
Proof.
  unfold flt, SFltb.
  destruct a as [sa|sa| |sa ma ea], b as [sb|sb| |sb mb eb];
    try discriminate; intros _ _;
    try destruct sa; try destruct sb; simpl; compare_cases;
    (split; intros ?; rank_solve).
Qed.

Lemma feq_rank (a b : float) :
  is_nan a = false → is_nan b = false →
  (feq a b = true ↔ float_rank a = float_rank b).
Proof.
  unfold feq, SFeqb.
  destruct a as [sa|sa| |sa ma ea], b as [sb|sb| |sb mb eb];
    try discriminate; intros _ _;
    try destruct sa; try destruct sb; simpl; compare_cases;
    (split; intros ?; rank_solve).
Qed.

Lemma fle_rank (a b : float) :
  is_nan a = false → is_nan b = false →
  (fle a b = true ↔ ¬ rank_lt (float_rank b) (float_rank a)).
Proof.
  unfold fle, SFleb.
  destruct a as [sa|sa| |sa ma ea], b as [sb|sb| |sb mb eb];
    try discriminate; intros _ _;
    try destruct sa; try destruct sb; simpl; compare_cases;
    (split; [intros ?; try discriminate; lia|intros Hn; try reflexivity; exfalso; apply Hn; lia]).
Qed.

End FloatOrder.

(** ** list.sort on keys that are totally ordered *)

Lemma StronglySorted_lookup_lt {A : Type} (R : A → A → Prop) (l : list A)
    (i j : nat) (x y : A) :
  StronglySorted R l → i < j → l !! i = Some x → l !! j = Some y → R x y.
Proof.
  intros Hs. revert i j. induction Hs as [|z l Hs IH Hz]; intros i j Hij Hi Hj.
  - rewrite lookup_nil in Hi. discriminate.
  - destruct j as [|j]; [lia|]. destruct i as [|i]; simpl in *.
    + injection Hi as <-. rewrite Forall_forall in Hz. apply Hz.
      apply list_elem_of_lookup. eauto.
    + apply (IH i j); [lia|assumption..].
Qed.

Lemma filter_none {A : Type} (P : A → Prop) `{∀ x, Decision (P x)} (l : list A) :
  Forall (λ x, ¬ P x) l → filter P l = [].
Proof.
  induction 1 as [|x l Hx _ IH]; [reflexivity|].
  rewrite filter_cons, decide_False by exact Hx. exact IH.
Qed.

Section ListSort.

Import F64.

Context {A K : Type}.
Variable key : A → K.
Variable ltk : K → K → bool.

(** The keys on which [<] is a total preorder *)
Variable total : K → Prop.
Hypothesis ltk_asym : ∀ a b, total a → total b → ltk a b = true → ltk b a = false.
Hypothesis lek_trans : ∀ a b c, total a → total b → total c →
  ltk b a = false → ltk c b = false → ltk c a = false.

Lemma ltk_lek_trans (a b c : K) :
  total a → total b → total c →
  ltk a b = true → ltk c b = false → ltk a c = true.
Proof.
  intros Ha Hb Hc Hab Hbc. destruct (ltk a c) eqn:E; [reflexivity|].
  rewrite (lek_trans b c a Hb Hc Ha Hbc E) in Hab. discriminate.
Qed.

Lemma ltk_trans (a b c : K) :
  total a → total b → total c →
  ltk a b = true → ltk b c = true → ltk a c = true.
Proof.
  intros Ha Hb Hc Hab Hbc.
  apply (ltk_lek_trans a b c Ha Hb Hc Hab). apply ltk_asym; assumption.
Qed.

Lemma list_sort_perm (lt : A → A → bool) (l : list A) : list_sort lt l ≡ₚ l.
Proof.
  assert (Hins : ∀ prefix x, binary_insert lt prefix x ≡ₚ prefix ++ [x]).
  { intros prefix x. unfold binary_insert.
    set (k := bisect lt prefix x (length prefix) 0 (length prefix)).
    rewrite <- (take_drop k prefix) at 3.
    rewrite <- app_assoc. apply Permutation_app_head.
    rewrite (Permutation_app_comm (drop k prefix) [x]). reflexivity. }
  assert (Hfold : ∀ rest run, binarysort lt run rest ≡ₚ run ++ rest).
  { induction rest as [|x rest IH]; intros run; simpl.
    - rewrite app_nil_r. reflexivity.
    - unfold binarysort in *. simpl. rewrite IH, Hins, <- app_assoc. reflexivity. }
  unfold list_sort. destruct (count_run lt l) as [n descending].
  rewrite Hfold.
  transitivity (take n l ++ drop n l); [|rewrite take_drop; reflexivity].
  apply Permutation_app_tail.
  destruct descending; [apply reverse_Permutation|reflexivity].
Qed.

Lemma bisect_spec (prefix : list A) (pivot : A) (fuel l r : nat) :
  StronglySorted (λ a b, ltk (key b) (key a) = false) prefix →
  Forall (λ a, total (key a)) prefix → total (key pivot) →
  l ≤ r → r ≤ length prefix → r - l ≤ fuel →
  (∀ i y, i < l → prefix !! i = Some y → ltk (key pivot) (key y) = false) →
  (∀ i y, r ≤ i → prefix !! i = Some y → ltk (key pivot) (key y) = true) →
  (∀ i y, i < bisect (λ a b, ltk (key a) (key b)) prefix pivot fuel l r →
          prefix !! i = Some y → ltk (key pivot) (key y) = false) ∧
  (∀ i y, bisect (λ a b, ltk (key a) (key b)) prefix pivot fuel l r ≤ i →
          prefix !! i = Some y → ltk (key pivot) (key y) = true).
Proof.
  intros Hs HP Hp. revert l r.
  induction fuel as [|fuel IH]; intros l r Hlr Hr Hfuel Hlow Hhigh;
    cbn [bisect].
  - assert (l = r) as -> by lia. auto.
  - destruct (l <? r) eqn:E; [|apply Nat.ltb_ge in E; assert (l = r) as -> by lia; auto].
    apply Nat.ltb_lt in E.
    assert (Hdiv : (r - l) / 2 < r - l) by (apply Nat.div_lt; lia).
    assert (Hdiv2 : (r - l) / 2 ≤ fuel) by lia.
    destruct (prefix !! (l + (r - l) / 2)) as [y|] eqn:Ey;
      [|apply lookup_ge_None in Ey; lia].
    assert (Hy : total (key y)).
    { rewrite Forall_forall in HP. apply HP, list_elem_of_lookup. eauto. }
    destruct (ltk (key pivot) (key y)) eqn:Ec.
    + apply IH; [lia|lia|lia|exact Hlow|].
      intros i z Hi Hz.
      assert (Hz' : total (key z)).
      { rewrite Forall_forall in HP. apply HP, list_elem_of_lookup. eauto. }
      destruct (decide (i = l + (r - l) / 2)) as [->|Hne]; [congruence|].
      apply (ltk_lek_trans _ (key y) _ Hp Hy Hz' Ec).
      apply (StronglySorted_lookup_lt _ prefix (l + (r - l) / 2) i y z Hs);
        [lia|assumption..].
    + apply IH; [lia|lia|lia| |exact Hhigh].
      intros i z Hi Hz.
      assert (Hz' : total (key z)).
      { rewrite Forall_forall in HP. apply HP, list_elem_of_lookup. eauto. }
      destruct (decide (i = l + (r - l) / 2)) as [->|Hne]; [congruence|].
      apply (lek_trans (key z) (key y) (key pivot) Hz' Hy Hp); [|exact Ec].
      apply (StronglySorted_lookup_lt _ prefix i (l + (r - l) / 2) z y Hs);
        [lia|assumption..].
Qed.

Lemma binary_insert_split (prefix : list A) (pivot : A) :
  StronglySorted (λ a b, ltk (key b) (key a) = false) prefix →
  Forall (λ a, total (key a)) prefix → total (key pivot) →
  ∃ k, binary_insert (λ a b, ltk (key a) (key b)) prefix pivot
       = take k prefix ++ pivot :: drop k prefix ∧
       Forall (λ y, ltk (key pivot) (key y) = false) (take k prefix) ∧
       Forall (λ y, ltk (key pivot) (key y) = true) (drop k prefix).
Proof.
  intros Hs HP Hp. unfold binary_insert.
  destruct (bisect_spec prefix pivot (length prefix) 0 (length prefix) Hs HP Hp)
    as [Hlow Hhigh]; [lia|lia|lia|intros; lia| |].
  { intros i y Hi Hy. apply lookup_lt_Some in Hy. lia. }
  eexists. split; [reflexivity|]. split.
  - apply Forall_forall. intros y Hy.
    apply list_elem_of_lookup in Hy as [i Hi].
    apply lookup_take_Some in Hi as [Hi Hlt]. exact (Hlow i y Hlt Hi).
  - apply Forall_forall. intros y Hy.
    apply list_elem_of_lookup in Hy as [i Hi]. rewrite lookup_drop in Hi.
    refine (Hhigh _ y _ Hi). lia.
Qed.

Lemma binary_insert_sorted (prefix : list A) (pivot : A) :
  StronglySorted (λ a b, ltk (key b) (key a) = false) prefix →
  Forall (λ a, total (key a)) prefix → total (key pivot) →
  StronglySorted (λ a b, ltk (key b) (key a) = false)
    (binary_insert (λ a b, ltk (key a) (key b)) prefix pivot).
Proof.
  intros Hs HP Hp.
  destruct (binary_insert_split prefix pivot Hs HP Hp) as (k & -> & Hlow & Hhigh).
  rewrite <- (take_drop k prefix) in Hs, HP.
  apply StronglySorted_app in Hs as (Hcross & Hs1 & Hs2).
  apply Forall_app in HP as [HP1 HP2].
  rewrite Forall_forall in Hlow, Hhigh, HP1, HP2.
  apply StronglySorted_app. split; [|split; [exact Hs1|]].
  - intros x1 x2 H1 H2. apply elem_of_cons in H2 as [->|H2].
    + apply Hlow, H1.
    + apply Hcross; assumption.
  - constructor; [exact Hs2|]. apply Forall_forall. intros y Hy.
    apply ltk_asym; [exact Hp|apply HP2, Hy|apply Hhigh, Hy].
Qed.

Lemma binary_insert_stable (prefix : list A) (pivot : A) (c : K) :
  StronglySorted (λ a b, ltk (key b) (key a) = false) prefix →
  Forall (λ a, total (key a)) prefix → total (key pivot) → total c →
  filter (λ a, ltk (key a) c = false ∧ ltk c (key a) = false)
         (binary_insert (λ a b, ltk (key a) (key b)) prefix pivot)
  = filter (λ a, ltk (key a) c = false ∧ ltk c (key a) = false)
           (prefix ++ [pivot]).
Proof.
  intros Hs HP Hp Hc.
  destruct (binary_insert_split prefix pivot Hs HP Hp) as (k & -> & Hlow & Hhigh).
  replace (prefix ++ [pivot]) with ((take k prefix ++ drop k prefix) ++ [pivot])
    by (rewrite take_drop; reflexivity).
  rewrite <- (take_drop k prefix) in HP.
  apply Forall_app in HP as [_ HP2].
  rewrite !filter_app, <- app_assoc. f_equal.
  rewrite (filter_cons _ pivot (drop k prefix)).
  destruct (decide (ltk (key pivot) c = false ∧ ltk c (key pivot) = false))
    as [[Hpc Hcp]|N].
  - assert (Hnone : filter (λ a, ltk (key a) c = false ∧ ltk c (key a) = false)
                      (drop k prefix) = []).
    { apply filter_none. rewrite Forall_forall in Hhigh, HP2.
      apply Forall_forall. intros y Hy [_ Hcy].
      pose proof (lek_trans (key y) c (key pivot) (HP2 y Hy) Hc Hp Hcy Hpc) as E.
      rewrite (Hhigh y Hy) in E. discriminate. }
    rewrite Hnone. rewrite (filter_cons _ pivot []).
    rewrite !decide_True by auto. reflexivity.
  - rewrite (filter_cons _ pivot []), !decide_False by exact N.
    rewrite filter_nil, app_nil_r. reflexivity.
Qed.

Lemma binarysort_sorted (rest run : list A) (c : K) :
  StronglySorted (λ a b, ltk (key b) (key a) = false) run →
  Forall (λ a, total (key a)) run → Forall (λ a, total (key a)) rest →
  total c →
  StronglySorted (λ a b, ltk (key b) (key a) = false)
    (binarysort (λ a b, ltk (key a) (key b)) run rest) ∧
  filter (λ a, ltk (key a) c = false ∧ ltk c (key a) = false)
         (binarysort (λ a b, ltk (key a) (key b)) run rest)
  = filter (λ a, ltk (key a) c = false ∧ ltk c (key a) = false) (run ++ rest).
Proof.
  intros Hs HP Hrest Hc. revert run Hs HP.
  induction Hrest as [|x rest Hx _ IH]; intros run Hs HP.
  - rewrite app_nil_r. auto.
  - unfold binarysort in *. simpl.
    destruct (IH (binary_insert (λ a b, ltk (key a) (key b)) run x))
      as [Hsorted Hfilter].
    + apply binary_insert_sorted; assumption.
    + destruct (binary_insert_split run x Hs HP Hx) as (k & -> & _ & _).
      rewrite <- (take_drop k run) in HP. apply Forall_app in HP as [H1 H2].
      apply Forall_app. split; [exact H1|]. constructor; assumption.
    + split; [exact Hsorted|]. rewrite Hfilter, !filter_app.
      rewrite (binary_insert_stable run x c Hs HP Hx Hc), filter_app.
      rewrite <- app_assoc, <- filter_app. reflexivity.
Qed.

Lemma run_ascending_sorted (l : list A) (prev : A) :
  Forall (λ a, total (key a)) (prev :: l) →
  StronglySorted (λ a b, ltk (key b) (key a) = false)
    (prev :: take (run_ascending (λ a b, ltk (key a) (key b)) prev l) l).
Proof.
  revert prev. induction l as [|x l IH]; intros prev HP; simpl.
  - repeat constructor.
  - inversion HP as [|? ? Hprev HP']; subst.
    destruct (ltk (key x) (key prev)) eqn:E; simpl; [repeat constructor|].
    specialize (IH x HP'). constructor; [exact IH|].
    constructor; [exact E|].
    apply StronglySorted_cons in IH as [Hx _].
    assert (HPt : Forall (λ a, total (key a))
                    (take (run_ascending (λ a b, ltk (key a) (key b)) x l) l)).
    { apply Forall_take. inversion HP'; assumption. }
    rewrite Forall_forall in Hx, HPt. apply Forall_forall. intros z Hz.
    apply (lek_trans (key prev) (key x) (key z));
      [exact Hprev|inversion HP'; assumption|apply HPt, Hz|exact E|apply Hx, Hz].
Qed.

Lemma run_descending_sorted (l : list A) (prev : A) :
  Forall (λ a, total (key a)) (prev :: l) →
  StronglySorted (λ a b, ltk (key b) (key a) = true)
    (prev :: take (run_descending (λ a b, ltk (key a) (key b)) prev l) l).
Proof.
  revert prev. induction l as [|x l IH]; intros prev HP; simpl.
  - repeat constructor.
  - inversion HP as [|? ? Hprev HP']; subst.
    destruct (ltk (key x) (key prev)) eqn:E; simpl; [|repeat constructor].
    specialize (IH x HP'). constructor; [exact IH|].
    constructor; [exact E|].
    apply StronglySorted_cons in IH as [Hx _].
    assert (HPt : Forall (λ a, total (key a))
                    (take (run_descending (λ a b, ltk (key a) (key b)) x l) l)).
    { apply Forall_take. inversion HP'; assumption. }
    rewrite Forall_forall in Hx, HPt. apply Forall_forall. intros z Hz.
    apply (ltk_trans (key z) (key x) (key prev));
      [apply HPt, Hz|inversion HP'; assumption|exact Hprev|apply Hx, Hz|exact E].
Qed.

(** A strictly descending run, reversed: sorted, and no two of its
    elements have equal keys, so nothing changes place within a class. *)
Lemma descending_reverse (run : list A) (c : K) :
  Forall (λ a, total (key a)) run → total c →
  StronglySorted (λ a b, ltk (key b) (key a) = true) run →
  StronglySorted (λ a b, ltk (key b) (key a) = false) (reverse run) ∧
  filter (λ a, ltk (key a) c = false ∧ ltk c (key a) = false) (reverse run)
  = filter (λ a, ltk (key a) c = false ∧ ltk c (key a) = false) run.
Proof.
  intros HP Hc Hs. induction Hs as [|x run Hs IH Hx].
  - split; [constructor|reflexivity].
  - inversion HP as [|? ? Hpx HP']; subst.
    destruct (IH HP') as [IHs IHf]. rewrite reverse_cons.
    rewrite Forall_forall in Hx, HP'. split.
    + apply StronglySorted_app. split; [|split; [exact IHs|repeat constructor]].
      intros z y Hz Hy. apply list_elem_of_singleton in Hy as ->.
      rewrite elem_of_reverse in Hz.
      apply ltk_asym; [apply HP', Hz|exact Hpx|apply Hx, Hz].
    + rewrite filter_app, IHf, (filter_cons _ x run), (filter_cons _ x []).
      destruct (decide (ltk (key x) c = false ∧ ltk c (key x) = false))
        as [[Hxc Hcx]|N]; [|rewrite filter_nil, app_nil_r; reflexivity].
      rewrite filter_nil. rewrite filter_none; [reflexivity|].
      apply Forall_forall. intros z Hz [Hzc Hcz].
      pose proof (lek_trans (key x) c (key z) Hpx Hc (HP' z Hz) Hcx Hzc) as E.
      rewrite (Hx z Hz) in E. discriminate.
Qed.

(** On keys that [<] orders totally, [list.sort] returns the list sorted
    by non-decreasing key, and elements with equal keys keep their
    order. *)
Lemma list_sort_sorted_stable (l : list A) (c : K) :
  Forall (λ a, total (key a)) l → total c →
  StronglySorted (λ a b, ltk (key b) (key a) = false)
    (list_sort (λ a b, ltk (key a) (key b)) l) ∧
  filter (λ a, ltk (key a) c = false ∧ ltk c (key a) = false)
         (list_sort (λ a b, ltk (key a) (key b)) l)
  = filter (λ a, ltk (key a) c = false ∧ ltk c (key a) = false) l.
Proof.
  intros HP Hc. unfold list_sort.
  destruct (count_run (λ a b, ltk (key a) (key b)) l) as [n descending] eqn:En.
  assert (Hrun : StronglySorted (λ a b, ltk (key b) (key a) = false)
                   (if descending then reverse (take n l) else take n l) ∧
                 filter (λ a, ltk (key a) c = false ∧ ltk c (key a) = false)
                        (if descending then reverse (take n l) else take n l)
                 = filter (λ a, ltk (key a) c = false ∧ ltk c (key a) = false)
                          (take n l)).
  { destruct l as [|x [|y l']]; simpl in En.
    - injection En as <- <-. split; [constructor|reflexivity].
    - injection En as <- <-. split; [repeat constructor|reflexivity].
    - inversion HP as [|? ? Hx HP']; subst.
      destruct (ltk (key y) (key x)) eqn:E; injection En as <- <-.
      + apply descending_reverse; [apply Forall_take, HP|exact Hc|].
        simpl. pose proof (run_descending_sorted l' y HP') as Hs.
        constructor; [exact Hs|]. constructor; [exact E|].
        apply StronglySorted_cons in Hs as [Hy _].
        assert (HPt : Forall (λ a, total (key a))
                  (take (run_descending (λ a b, ltk (key a) (key b)) y l') l')).
        { apply Forall_take. inversion HP'; assumption. }
        rewrite Forall_forall in Hy, HPt. apply Forall_forall. intros z Hz.
        apply (ltk_trans (key z) (key y) (key x));
          [apply HPt, Hz|inversion HP'; assumption|exact Hx|apply Hy, Hz|exact E].
      + split; [|reflexivity].
        simpl. pose proof (run_ascending_sorted l' y HP') as Hs.
        constructor; [exact Hs|]. constructor; [exact E|].
        apply StronglySorted_cons in Hs as [Hy _].
        assert (HPt : Forall (λ a, total (key a))
                  (take (run_ascending (λ a b, ltk (key a) (key b)) y l') l')).
        { apply Forall_take. inversion HP'; assumption. }
        rewrite Forall_forall in Hy, HPt. apply Forall_forall. intros z Hz.
        apply (lek_trans (key x) (key y) (key z));
          [exact Hx|inversion HP'; assumption|apply HPt, Hz|exact E|apply Hy, Hz]. }
  destruct Hrun as [Hs Hf].
  assert (HPrun : Forall (λ a, total (key a))
                    (if descending then reverse (take n l) else take n l)).
  { destruct descending; [apply Forall_reverse|]; apply Forall_take, HP. }
  destruct (binarysort_sorted (drop n l) _ c Hs HPrun (Forall_drop _ n l HP) Hc)
    as [Hsorted Hfilter].
  split; [exact Hsorted|].
  rewrite Hfilter, filter_app, Hf, <- filter_app, take_drop. reflexivity.
Qed.

(** A list in which no element is [<] its predecessor is one run:
    [list.sort] leaves it as it is. *)
Lemma list_sort_one_run (lt : A → A → bool) (x : A) (l : list A) :
  run_ascending lt x l = length l →
  list_sort lt (x :: l) = x :: l.
Proof.
  intros Hrun. unfold list_sort. destruct l as [|y l'].
  - reflexivity.
  - simpl in *. destruct (lt y x); [discriminate|].
    injection Hrun as Hrun. rewrite Hrun.
    change (S (S (length l'))) with (length (x :: y :: l')).
    rewrite firstn_all, drop_all. reflexivity.
Qed.

End ListSort.

Section FloatTotal.

Import F64.

Lemma flt_asym (a b : float) :
  is_nan a = false → is_nan b = false → flt a b = true → flt b a = false.
Proof.
  intros Ha Hb H. destruct (flt b a) eqn:E; [|reflexivity].
  apply (flt_rank a b Ha Hb) in H. apply (flt_rank b a Hb Ha) in E.
  unfold rank_lt in *.
  destruct (float_rank a) as [[a1 a2] a3], (float_rank b) as [[b1 b2] b3]. lia.
Qed.

Lemma fle_trans (a b c : float) :
  is_nan a = false → is_nan b = false → is_nan c = false →
  flt b a = false → flt c b = false → flt c a = false.
Proof.
  intros Ha Hb Hc H1 H2. destruct (flt c a) eqn:E; [|reflexivity].
  apply (flt_rank c a Hc Ha) in E.
  assert (N1 : ¬ rank_lt (float_rank b) (float_rank a)).
  { intros H. apply (flt_rank b a Hb Ha) in H. congruence. }
  assert (N2 : ¬ rank_lt (float_rank c) (float_rank b)).
  { intros H. apply (flt_rank c b Hc Hb) in H. congruence. }
  unfold rank_lt in *.
  destruct (float_rank a) as [[a1 a2] a3], (float_rank b) as [[b1 b2] b3],
    (float_rank c) as [[c1 c2] c3]. lia.
Qed.

Lemma feq_class (a c : float) :
  is_nan a = false → is_nan c = false →
  (feq a c = true ↔ flt a c = false ∧ flt c a = false).
Proof.
  intros Ha Hc. rewrite (feq_rank a c Ha Hc).
  assert (E1 : flt a c = false ↔ ¬ rank_lt (float_rank a) (float_rank c)).
  { rewrite <- (flt_rank a c Ha Hc). destruct (flt a c); split; congruence. }
  assert (E2 : flt c a = false ↔ ¬ rank_lt (float_rank c) (float_rank a)).
  { rewrite <- (flt_rank c a Hc Ha). destruct (flt c a); split; congruence. }
  rewrite E1, E2. unfold rank_lt.
  destruct (float_rank a) as [[a1 a2] a3], (float_rank c) as [[c1 c2] c3].
  split.
  - intros E. injection E as -> -> ->. lia.
  - intros [H1 H2]. f_equal; [f_equal|]; lia.
Qed.

Lemma fle_flt (a b : float) :
  is_nan a = false → is_nan b = false → fle a b = negb (flt b a).
Proof.
  intros Ha Hb. pose proof (fle_rank a b Ha Hb) as H1.
  pose proof (flt_rank b a Hb Ha) as H2.
  destruct (fle a b), (flt b a); simpl; try reflexivity; exfalso.
  - apply (proj1 H1 eq_refl), H2. reflexivity.
  - assert (E : false = true); [|discriminate]. apply H1. intros N.
    apply H2 in N. discriminate.
Qed.

Lemma feq_nan_r (a : float) : feq a S754_nan = false.
Proof. destruct a as [| | |[] ? ?]; reflexivity. Qed.

Lemma run_ascending_all {A : Type} (lt : A → A → bool) (l : list A) (x : A) :
  (∀ i a b, (x :: l) !! i = Some a → l !! i = Some b → lt b a = false) →
  run_ascending lt x l = length l.
Proof.
  revert x. induction l as [|y l IH]; intros x H; simpl; [reflexivity|].
  rewrite (H 0 x y eq_refl eq_refl). f_equal. apply IH.
  intros i a b Ha Hb. apply (H (S i) a b); assumption.
Qed.

End FloatTotal.

(** ** Ranking *)

Section RankingF64.

Import F64.

Variable str_vals : list pyval → string.
Variable libm_pow : float → float → float.

(** C1, as the code has it.  [compute_all] returns exactly when the
    overall statistics of every non-empty sub-list of the candidate genes
    return.  When it returns, it returns [2^k - 1] records for [k]
    candidates: a rearrangement of the records of the non-empty subsets,
    which are enumerated by increasing size and, within a size, in the
    order of the candidate list.  If no ranking key is NaN, the result is
    sorted by non-decreasing [cv_inter], and records of equal [cv_inter]
    keep the enumeration order.  A NaN key compares false with every key:
    when no record is below the record that the enumeration puts before
    it, [list.sort] returns the records in enumeration order, sorted or
    not. *)
Theorem compute_all_ranked_unless_nan (d : Data) (cand_genes : list string) :
  ((∃ res, compute_all str_vals libm_pow d cand_genes = Ok res) ↔
   (∀ g, g ≠ [] → g `sublist_of` cand_genes →
         ∃ o, compute_overall_stats str_vals libm_pow d g = Ok o)) ∧
  ∀ res : list gene_combination,
  compute_all str_vals libm_pow d cand_genes = Ok res →
  length res = 2 ^ length cand_genes - 1 ∧
  (∃ recs : list gene_combination,
     map genes recs = gene_subsets cand_genes ∧
     Forall (λ r, compute_condition_stats str_vals libm_pow d (genes r)
                  = Ok (conds r) ∧
                  compute_overall_stats str_vals libm_pow d (genes r)
                  = Ok (overall r))
            recs ∧
     res ≡ₚ recs ∧
     (Forall (λ r, is_nan (sort_key r) = false) res →
        StronglySorted (λ a b, fle (sort_key a) (sort_key b) = true) res ∧
        ∀ c : float, filter (λ r, feq (sort_key r) c = true) res =
                     filter (λ r, feq (sort_key r) c = true) recs) ∧
     ((∀ i a b, recs !! i = Some a → recs !! S i = Some b →
                flt (sort_key b) (sort_key a) = false) →
        res = recs)) ∧
  (∀ g, g ∈ gene_subsets cand_genes ↔ g ≠ [] ∧ g `sublist_of` cand_genes) ∧
  StronglySorted (λ a b, length a ≤ length b) (gene_subsets cand_genes) ∧
  gene_subsets cand_genes =
    concat (map (λ n, map (pick cand_genes)
                          (combinations (seq 0 (length cand_genes)) n))
                (seq 1 (length cand_genes))) ∧
  (∀ n, StronglySorted lex_lt (combinations (seq 0 (length cand_genes)) n)).
Proof.
  split.
  { unfold compute_all. split.
    - intros [res H] g Hne Hsub.
      apply bind_Ok in H as (recs & Hrecs & _).
      assert (Hin : g ∈ gene_subsets cand_genes)
        by (apply elem_of_gene_subsets; auto).
      apply list_elem_of_lookup in Hin as [i Hi].
      destruct (mapM_Ok_lookup _ _ _ _ _ Hrecs Hi) as (r & _ & Hr).
      apply bind_Ok in Hr as (cs & _ & Hr). apply bind_Ok in Hr as (o & Ho & _).
      exists o; exact Ho.
    - intros Hall.
      match goal with
      | |- ∃ res, mapM ?f ?l ≫= _ = _ =>
          destruct (mapM_total f l) as [recs Hrecs]
      end; [|rewrite Hrecs, bind_ret_l; eexists; reflexivity].
      apply Forall_forall. intros g Hg.
      apply elem_of_gene_subsets in Hg as [Hne Hsub].
      destruct (Hall g Hne Hsub) as [o Ho].
      pose proof Ho as Ho'. unfold compute_overall_stats in Ho'.
      apply bind_Ok in Ho' as (cs & Hcs & _).
      rewrite Hcs, bind_ret_l, Ho, bind_ret_l. eexists; reflexivity. }
  intros res H. unfold compute_all in H.
  apply bind_Ok in H as (recs & Hrecs & H). injection H as <-.
  apply mapM_Ok in Hrecs.
  assert (Hgenes : map genes recs = gene_subsets cand_genes).
  { clear -Hrecs. induction Hrecs as [|g r gs recs Hr _ IH]; [reflexivity|].
    simpl. rewrite IH. f_equal.
    apply bind_Ok in Hr as (cs & _ & Hr). apply bind_Ok in Hr as (ov & _ & Hr).
    injection Hr as <-. reflexivity. }
  pose proof (list_sort_perm (λ a b, flt (sort_key a) (sort_key b)) recs) as Hperm.
  split; [|split; [|split; [|split; [|split]]]].
  - rewrite (Permutation_length Hperm).
    rewrite <- (length_map genes), Hgenes. apply gene_subsets_length.
  - exists recs. split; [exact Hgenes|split; [|split; [exact Hperm|split]]].
    + clear -Hrecs. induction Hrecs as [|g r gs recs Hr _ IH]; constructor; [|exact IH].
      apply bind_Ok in Hr as (cs & Hcs & Hr). apply bind_Ok in Hr as (ov & Hov & Hr).
      injection Hr as <-. simpl. auto.
    + intros Hnan. rewrite Hperm in Hnan.
      assert (Hsorted : StronglySorted
                (λ a b, flt (sort_key b) (sort_key a) = false)
                (list_sort (λ a b, flt (sort_key a) (sort_key b)) recs)).
      { apply (list_sort_sorted_stable sort_key flt (λ x, is_nan x = false)
                 flt_asym fle_trans recs zero Hnan eq_refl). }
      split.
      * assert (Hnan' : Forall (λ r, is_nan (sort_key r) = false)
                  (list_sort (λ a b, flt (sort_key a) (sort_key b)) recs))
          by (rewrite Hperm; exact Hnan).
        clear -Hsorted Hnan'.
        induction Hsorted as [|x l Hs IH Hx]; constructor.
        -- apply IH. inversion Hnan'; assumption.
        -- inversion Hnan' as [|? ? Hxn Hln]; subst.
           rewrite Forall_forall in Hx, Hln. apply Forall_forall. intros y Hy.
           rewrite (fle_flt (sort_key x) (sort_key y) Hxn (Hln y Hy)).
           rewrite (Hx y Hy). reflexivity.
      * intros c. destruct (is_nan c) eqn:Ec.
        { destruct c; try discriminate.
          rewrite !filter_none; [reflexivity|..];
            apply Forall_forall; intros r _; rewrite feq_nan_r; discriminate. }
        destruct (list_sort_sorted_stable sort_key flt (λ x, is_nan x = false)
                    flt_asym fle_trans recs c Hnan Ec) as [_ Hst].
        assert (Hext : ∀ l, Forall (λ r, is_nan (sort_key r) = false) l →
                  filter (λ r, feq (sort_key r) c = true) l =
                  filter (λ r, flt (sort_key r) c = false ∧
                               flt c (sort_key r) = false) l).
        { intros l Hl. induction Hl as [|r l Hr _ IH]; [reflexivity|].
          rewrite !(filter_cons _ r), IH.
          pose proof (feq_class (sort_key r) c Hr Ec) as Hiff.
          destruct (decide (feq (sort_key r) c = true)) as [Y|N];
            destruct (decide (flt (sort_key r) c = false ∧
                              flt c (sort_key r) = false)) as [Y'|N'];
            try reflexivity; exfalso; tauto. }
        rewrite !Hext; [exact Hst|exact Hnan|rewrite Hperm; exact Hnan].
    + intros Hrun. destruct recs as [|x l]; [reflexivity|].
      apply list_sort_one_run, run_ascending_all.
      intros i a b Ha Hb. apply (Hrun i a b); assumption.
  - apply elem_of_gene_subsets.
  - apply gene_subsets_sizes.
  - unfold gene_subsets. f_equal. apply map_ext. intros n.
    apply combinations_positions.
  - intros n. apply combinations_lex_sorted, seq_lt_sorted.
Qed.

End RankingF64.

(** ** The table built by add, on floats *)

Lemma first_seen_by_length {A K : Type} `{EqDecision K} (key : A → K)
    (l : list A) :
  length (first_seen_by key [] l) = length (remove_dups (map key l)).
Proof.
  rewrite <- (length_map key).
  apply Permutation_length, NoDup_Permutation.
  - apply NoDup_first_seen_by_keys.
  - apply NoDup_remove_dups.
  - intros k. rewrite first_seen_by_keys, elem_of_remove_dups, elem_of_nil. tauto.
Qed.

Lemma distinct_by_first_seen {A K : Type} `{EqDecision K} (eq : A → A → bool)
    (key : A → K) (seen l : list A) :
  (∀ x y, x ∈ l → y ∈ seen ++ l → eq x y = true ↔ key x = key y) →
  distinct_by eq seen l = first_seen_by key (map key seen) l.
Proof.
  revert seen; induction l as [|z l IH]; intros seen Hagree; simpl; [reflexivity|].
  assert (Hiff : existsb (eq z) seen = true ↔ key z ∈ map key seen).
  { rewrite existsb_exists. split.
    - intros (y & Hy & E). apply list_elem_of_In in Hy.
      apply list_elem_of_In, in_map_iff. exists y.
      split; [|apply list_elem_of_In, Hy]. symmetry.
      apply (Hagree z y); [left|apply elem_of_app; left; exact Hy|exact E].
    - intros Hin. apply list_elem_of_In, in_map_iff in Hin as (y & Hy & Hin).
      exists y. split; [exact Hin|]. apply list_elem_of_In in Hin.
      apply (Hagree z y); [left|apply elem_of_app; left; exact Hin|congruence]. }
  destruct (existsb (eq z) seen) eqn:E;
    destruct (decide (key z ∈ map key seen)) as [Y|N].
  - apply IH. intros x y Hx Hy. apply Hagree; [right; exact Hx|].
    apply elem_of_app in Hy as [Hy|Hy]; apply elem_of_app;
      [left; exact Hy|right; right; exact Hy].
  - exfalso. apply N, Hiff. reflexivity.
  - apply Hiff in Y. discriminate.
  - f_equal. apply (IH (z :: seen)). intros x y Hx Hy.
    apply Hagree; [right; exact Hx|].
    apply elem_of_cons in Hy as [->|Hy]; [apply elem_of_app; right; left|].
    apply elem_of_app in Hy as [Hy|Hy]; apply elem_of_app;
      [left; exact Hy|right; right; exact Hy].
Qed.

Section TableF64.

Import F64.

Variable float_of_string : string → option float.
Variable str_vals : list pyval → string.

Lemma f64_new_table_empty (headers : list string) (sample : string)
    (conditions : list string) (control : list pyval) :
  empty_table (new_table headers sample conditions control).
Proof. repeat split. Qed.

Lemma f64_empty_table_inv (d : Data) :
  empty_table d → table_inv float_of_string str_vals d [].
Proof.
  intros (Hd & Hc & Hg & Hi). unfold table_inv.
  rewrite Hd, Hc, Hg, Hi. repeat split; constructor.
Qed.

Lemma f64_coerce_cells_Ok (non_data headers : list string) (idx : nat)
    (data data' : list pyval) :
  coerce_cells float_of_string non_data headers idx data = Ok data' →
  length data' = length data ∧
  (∀ j h, headers !! j = Some h → h ∉ non_data →
     ∃ v x, data !! (idx + j) = Some v ∧ py_float float_of_string v = Ok x ∧
            data' !! (idx + j) = Some (PFloat x)) ∧
  (∀ i, (∀ j h, headers !! j = Some h → h ∉ non_data → i ≠ idx + j) →
        data' !! i = data !! i).
Proof.
  revert idx data; induction headers as [|h0 headers IH]; intros idx data; simpl.
  - intros E; injection E as <-. split; [reflexivity|]. split; [|reflexivity].
    intros j h Hj. rewrite lookup_nil in Hj. discriminate.
  - destruct (bool_decide (h0 ∈ non_data)) eqn:Hnd.
    + apply bool_decide_eq_true in Hnd. intros H.
      destruct (IH _ _ H) as (Hlen & Hconv & Hkeep).
      split; [exact Hlen|]. split.
      * intros [|j] h Hj Hh; simpl in Hj.
        -- injection Hj as <-. contradiction.
        -- replace (idx + S j) with (S idx + j) by lia. eauto.
      * intros i Hi. apply Hkeep. intros j h Hj Hh.
        replace (S idx + j) with (idx + S j) by lia. apply (Hi (S j) h); auto.
    + apply bool_decide_eq_false in Hnd. intros H.
      apply bind_Ok in H as (v & Hv & H). apply py_index_Ok in Hv.
      apply bind_Ok in H as (x & Hx & H).
      destruct (IH _ _ H) as (Hlen & Hconv & Hkeep).
      rewrite length_insert in Hlen.
      split; [exact Hlen|]. split.
      * intros [|j] h Hj Hh; simpl in Hj.
        -- injection Hj as <-. rewrite Nat.add_0_r. exists v, x.
           split; [exact Hv|]. split; [exact Hx|].
           rewrite Hkeep.
           ++ apply list_lookup_insert_eq. apply lookup_lt_Some in Hv. exact Hv.
           ++ intros j h' _ _. lia.
        -- replace (idx + S j) with (S idx + j) by lia.
           destruct (Hconv j h Hj Hh) as (v' & x' & Hv' & Hx' & Hd').
           rewrite list_lookup_insert_ne in Hv' by lia. eauto.
      * intros i Hi. rewrite Hkeep.
        -- apply list_lookup_insert_ne. specialize (Hi 0 h0 eq_refl Hnd). lia.
        -- intros j h Hj Hh. replace (S idx + j) with (idx + S j) by lia.
           apply (Hi (S j) h); auto.
Qed.

(** The tuple [add] computes from the stored row is the tuple of the
    row as it was read: coercing a cell twice changes nothing. *)
Lemma f64_cond_value_coerced (non_data headers : list string)
    (raw data : list pyval) (x : nat) (v : pyval) :
  coerce_cells float_of_string non_data headers 0 raw = Ok data →
  cond_value float_of_string data x = Ok v →
  coerced float_of_string <$> raw !! x = Some v.
Proof.
  intros Hdata Hv.
  destruct (f64_coerce_cells_Ok _ _ _ _ _ Hdata) as (_ & Hconv & Hkeep).
  unfold cond_value in Hv. apply bind_Ok in Hv as (c & Hc & Hv).
  apply py_index_Ok in Hc.
  assert (Hcase : (∃ h, headers !! x = Some h ∧ h ∉ non_data) ∨
                  ¬ (∃ h, headers !! x = Some h ∧ h ∉ non_data)).
  { destruct (headers !! x) as [h|]; [|right; intros (h & E & _); discriminate].
    destruct (decide (h ∈ non_data)) as [Hin|Hin].
    - right. intros (h' & E & N). injection E as <-. contradiction.
    - left. eauto. }
  destruct Hcase as [(h & Hh & Hn)|N].
  - destruct (Hconv x h Hh Hn) as (c0 & f & Hc0 & Hf & Hc').
    simpl in Hc0, Hc'. rewrite Hc0. simpl.
    assert (c = PFloat f) as -> by congruence. simpl in Hv. injection Hv as <-.
    f_equal. unfold coerced. destruct c0 as [y|s]; simpl in Hf.
    + congruence.
    + destruct (float_of_string s); congruence.
  - rewrite Hkeep in Hc.
    + rewrite Hc. simpl. f_equal. unfold coerced.
      destruct c as [y|s]; simpl in Hv; [congruence|].
      destruct (float_of_string s); simpl in Hv; congruence.
    + intros j h Hj Hh ->. apply N. exists h. auto.
Qed.

Lemma f64_add_frame (d d' : Data) (row : list pyval) :
  add float_of_string str_vals d row = Ok d' →
  _headers d' = _headers d ∧ _non_data d' = _non_data d ∧
  _cond_idx d' = _cond_idx d ∧ _control_cond_vals d' = _control_cond_vals d ∧
  ∃ data t, coerce_cells float_of_string (_non_data d) (_headers d) 0 row = Ok data ∧
            _data d' = _data d ++ [data] ∧
            row_cond_values float_of_string d data = Ok t ∧
            coerced_tuple float_of_string (_cond_idx d) row = Some t.
Proof.
  unfold add. intros H.
  apply bind_Ok in H as (data & Hdata & H).
  apply bind_Ok in H as (cv & Hcv & H).
  apply bind_Ok in H as (control & Hctl & H).
  assert (Hco : coerced_tuple float_of_string (_cond_idx d) row = Some cv).
  { unfold coerced_tuple. apply mapM_Some. apply mapM_Ok in Hcv.
    eapply Forall2_impl; [exact Hcv|]. intros x v Hv. simpl in Hv.
    exact (f64_cond_value_coerced _ _ _ _ _ _ Hdata Hv). }
  destruct (_cond_groups d !! str_vals cv); injection H as <-; simpl;
    repeat split; eauto 10.
Qed.

Lemma f64_add_inv (d d' : Data) (tuples : list (list pyval)) (row : list pyval) :
  table_inv float_of_string str_vals d tuples →
  add float_of_string str_vals d row = Ok d' →
  ∃ t, table_inv float_of_string str_vals d' (tuples ++ [t]) ∧
       coerced_tuple float_of_string (_cond_idx d) row = Some t.
Proof.
  intros (Hrows & Hctl & _ & Hgrp & Hidx & Hsize) H.
  pose proof (Forall2_length _ _ _ Hrows) as Hlen.
  destruct (f64_add_frame _ _ _ H) as (_ & _ & _ & _ & data0 & t0 & Hd0 & _ & Ht0 & Hco).
  unfold add in H.
  apply bind_Ok in H as (data & Hdata & H).
  apply bind_Ok in H as (cv & Hcv & H).
  apply bind_Ok in H as (control & Hcontrol & H).
  assert (data0 = data) as -> by congruence.
  assert (t0 = cv) as -> by (unfold row_cond_values in Ht0; congruence).
  destruct (_control_cond_vals d) as [c|] eqn:Ec; [|discriminate].
  injection Hcontrol as Hc; subst control.
  exists cv. split; [|exact Hco].
  assert (Hpos : ∀ L, positions L (map str_vals (tuples ++ [cv])) =
                      positions L (map str_vals tuples) ++
                      (if decide (L = str_vals cv) then [length (_data d)] else [])).
  { intros L. rewrite map_app. simpl map. unfold positions.
    rewrite positions_from_snoc, length_map, <- Hlen. reflexivity. }
  assert (Hmem : ∀ L, L ∈ map str_vals (tuples ++ [cv]) ↔
                      L ∈ map str_vals tuples ∨ L = str_vals cv).
  { intros L. rewrite map_app, elem_of_app. simpl map.
    rewrite list_elem_of_singleton. reflexivity. }
  assert (Hcontrol : ∀ c', Some c = Some c' →
            (if py_list_eq c cv then _control_idx d ++ [length (_data d)]
             else _control_idx d)
            = positions true (map (py_list_eq c') (tuples ++ [cv]))).
  { intros c' Ec'. injection Ec' as <-. rewrite map_app. simpl map.
    unfold positions. rewrite positions_from_snoc, length_map, <- Hlen.
    fold (positions true (map (py_list_eq c) tuples)).
    rewrite <- (Hctl c eq_refl). simpl.
    destruct (py_list_eq c cv); simpl; [reflexivity|].
    rewrite app_nil_r. reflexivity. }
  specialize (Hctl c eq_refl).
  pose proof (Hgrp (str_vals cv)) as Hcur.
  destruct (_cond_groups d !! str_vals cv) as [g|] eqn:Eg;
    injection H as <-; unfold table_inv; simpl.
  - (* the label was seen before *)
    destruct (decide (str_vals cv ∈ map str_vals tuples)) as [Hin|Hin];
      [|discriminate].
    injection Hcur as ->.
    split; [|split; [|split; [|split; [|split]]]].
    + apply Forall2_app; [exact Hrows|]. constructor; [exact Hcv|constructor].
    + exact Hcontrol.
    + discriminate.
    + intros L. rewrite Hpos.
      destruct (decide (L = str_vals cv)) as [->|Hne].
      * rewrite lookup_alter_eq, Eg. simpl.
        destruct (decide (str_vals cv ∈ map str_vals (tuples ++ [cv]))) as [_|N];
          [reflexivity|].
        exfalso; apply N, Hmem; right; reflexivity.
      * rewrite lookup_alter_ne by congruence. rewrite Hgrp, app_nil_r.
        apply decide_ext. rewrite Hmem. tauto.
    + rewrite first_seen_by_snoc, Hidx. simpl.
      destruct (decide (str_vals cv ∈ map str_vals tuples)); [|contradiction].
      rewrite app_nil_r; reflexivity.
    + rewrite map_size_alter. exact Hsize.
  - (* a new label *)
    destruct (decide (str_vals cv ∈ map str_vals tuples)) as [Hin|Hin];
      [discriminate|].
    split; [|split; [|split; [|split; [|split]]]].
    + apply Forall2_app; [exact Hrows|]. constructor; [exact Hcv|constructor].
    + exact Hcontrol.
    + discriminate.
    + intros L. rewrite Hpos.
      destruct (decide (L = str_vals cv)) as [->|Hne].
      * rewrite lookup_alter_eq, lookup_insert_eq. simpl.
        destruct (decide (str_vals cv ∈ map str_vals (tuples ++ [cv]))) as [_|N].
        -- apply positions_nil_iff in Hin. rewrite Hin. reflexivity.
        -- exfalso; apply N, Hmem; right; reflexivity.
      * rewrite lookup_alter_ne by congruence.
        rewrite lookup_insert_ne by congruence. rewrite Hgrp, app_nil_r.
        apply decide_ext. rewrite Hmem. tauto.
    + rewrite first_seen_by_snoc, Hidx. simpl.
      destruct (decide (str_vals cv ∈ map str_vals tuples)); [contradiction|].
      reflexivity.
    + rewrite map_size_alter, map_size_insert_None by exact Eg.
      rewrite length_app, Hsize. simpl. lia.
Qed.

Lemma f64_add_all_inv (rows : list (list pyval)) (d d' : Data)
    (tuples : list (list pyval)) :
  table_inv float_of_string str_vals d tuples →
  add_all float_of_string str_vals d rows = Ok d' →
  ∃ new, table_inv float_of_string str_vals d' (tuples ++ new) ∧
         Forall2 (λ raw t, coerced_tuple float_of_string (_cond_idx d) raw = Some t)
                 rows new ∧
         _cond_idx d' = _cond_idx d ∧
         length (_data d') = length (_data d) + length rows.
Proof.
  revert d tuples; induction rows as [|row rows IH]; intros d tuples Hinv; simpl.
  - intros E; injection E as <-. exists []. rewrite app_nil_r.
    split; [exact Hinv|]. split; [constructor|]. split; [reflexivity|lia].
  - intros H. apply bind_Ok in H as (d1 & Hadd & H).
    destruct (f64_add_inv _ _ _ _ Hinv Hadd) as (t & Hinv1 & Ht).
    destruct (f64_add_frame _ _ _ Hadd) as (_ & _ & Hci & _ & data & _ & _ & Hd & _).
    destruct (IH _ _ Hinv1 H) as (new & Hinv' & Hnew & Hci' & Hlen').
    exists (t :: new). rewrite <- app_assoc in Hinv'.
    split; [exact Hinv'|]. split; [|split].
    + constructor; [exact Ht|]. rewrite <- Hci. exact Hnew.
    + congruence.
    + rewrite Hlen', Hd, length_app. simpl. lia.
Qed.

Lemma f64_loaded_inv (d : Data) :
  loaded float_of_string str_vals d →
  ∃ tuples, table_inv float_of_string str_vals d tuples.
Proof.
  intros (d0 & rows & He & H).
  destruct (f64_add_all_inv rows d0 d [] (f64_empty_table_inv d0 He) H)
    as (t & Hi & _).
  exists t; exact Hi.
Qed.

(** C8, as the code has it.  After [add] has read the rows into an empty
    table, with the condition tuple of a row being its cells in the
    condition columns, each coerced to a float when it parses: every row
    is in exactly one condition group, once; the groups are those of the
    labels [str(tuple)], so the group of a label holds the rows whose
    tuple has this label and there are as many groups as distinct labels;
    [condition_values] lists the first tuple of every label, in first-seen
    order.  When [==] on the tuples and equality of their labels agree,
    these are the distinct tuples: as many groups as tuples that are
    pairwise not [==], listed in first-seen order. *)
Theorem condition_groups_by_label (d0 d : Data) (rows : list (list pyval)) :
  empty_table d0 →
  add_all float_of_string str_vals d0 rows = Ok d →
  ∃ tuples : list (list pyval),
    Forall2 (λ raw t, coerced_tuple float_of_string (_cond_idx d) raw = Some t)
            rows tuples ∧
    length (_data d) = length rows ∧
    (∀ i, i < length rows →
       ∃ L g, _cond_groups d !! L = Some g ∧ i ∈ g ∧
              ∀ L' g', _cond_groups d !! L' = Some g' → i ∈ g' → L' = L) ∧
    (∀ L g, _cond_groups d !! L = Some g →
       NoDup g ∧ g ≠ [] ∧ ∀ i, i ∈ g ↔ str_vals <$> tuples !! i = Some L) ∧
    (∀ t, t ∈ tuples → ∃ g, _cond_groups d !! str_vals t = Some g) ∧
    size (_cond_groups d) = length (remove_dups (map str_vals tuples)) ∧
    condition_values d = first_seen_by str_vals [] tuples ∧
    nr_conditions d = length (remove_dups (map str_vals tuples)) ∧
    ((∀ t1 t2, t1 ∈ tuples → t2 ∈ tuples →
               py_list_eq t1 t2 = true ↔ str_vals t1 = str_vals t2) →
     size (_cond_groups d) = length (distinct_by py_list_eq [] tuples) ∧
     nr_conditions d = length (distinct_by py_list_eq [] tuples) ∧
     condition_values d = distinct_by py_list_eq [] tuples).
Proof.
  intros He Hadd.
  destruct (f64_add_all_inv rows d0 d [] (f64_empty_table_inv d0 He) Hadd)
    as (tuples & (Hrows & Hctl & _ & Hgrp & Hidx & Hsize) & Hco & Hci & Hlen).
  simpl in Hrows, Hctl, Hgrp, Hidx.
  exists tuples.
  pose proof (Forall2_length _ _ _ Hrows) as Hlt.
  destruct He as (Hd0 & _). rewrite Hd0 in Hlen. simpl in Hlen.
  assert (Hgroup : ∀ L g, _cond_groups d !! L = Some g →
            L ∈ map str_vals tuples ∧ g = positions L (map str_vals tuples)).
  { intros L g HL. rewrite Hgrp in HL.
    destruct (decide (L ∈ map str_vals tuples)); [|discriminate].
    injection HL as <-. auto. }
  split; [rewrite Hci; exact Hco|].
  split; [exact Hlen|].
  split; [|split; [|split; [|split; [|split; [|split]]]]].
  - intros i Hi.
    assert (HiL : i < length (map str_vals tuples)) by (rewrite length_map; lia).
    apply lookup_lt_is_Some in HiL as [L HL].
    exists L, (positions L (map str_vals tuples)). split; [|split].
    + rewrite Hgrp. destruct (decide (L ∈ map str_vals tuples)) as [_|N];
        [reflexivity|].
      exfalso; apply N. apply list_elem_of_lookup. exists i; exact HL.
    + apply elem_of_positions, HL.
    + intros L' g' HL' Hin. destruct (Hgroup _ _ HL') as [_ ->].
      apply elem_of_positions in Hin. congruence.
  - intros L g HL. destruct (Hgroup _ _ HL) as [Hin ->]. split; [|split].
    + apply NoDup_positions_from.
    + intros E. apply positions_nil_iff in E. contradiction.
    + intros i. rewrite elem_of_positions.
      change (map str_vals tuples) with (str_vals <$> tuples).
      rewrite list_lookup_fmap. reflexivity.
  - intros t Ht. rewrite Hgrp.
    destruct (decide (str_vals t ∈ map str_vals tuples)) as [_|N]; [eauto|].
    exfalso; apply N. apply list_elem_of_In, in_map, list_elem_of_In, Ht.
  - rewrite Hsize, Hidx. apply first_seen_by_length.
  - exact Hidx.
  - unfold nr_conditions. rewrite Hidx. apply first_seen_by_length.
  - intros Hagree.
    assert (Hcat : _cond_group_idx d = distinct_by py_list_eq [] tuples).
    { rewrite Hidx. symmetry.
      apply (distinct_by_first_seen py_list_eq str_vals [] tuples).
      intros x y Hx Hy. apply Hagree; assumption. }
    unfold nr_conditions, condition_values.
    rewrite Hsize, Hcat. auto.
Qed.

End TableF64.

(** ** Statistics on floats *)

Section StatisticsF64.

Import F64.

Variable libm_pow : float → float → float.

(** Rounding keeps the sign it is given. *)
Lemma binary_round_aux_sign (sx : bool) (mx ex : Z) (lx : location) :
  match binary_round_aux prec emax sx mx ex lx with
  | S754_zero s | S754_infinity s | S754_finite s _ _ => s = sx
  | S754_nan => True
  end.
Proof.
  unfold binary_round_aux.
  destruct (shr_fexp prec emax mx ex lx) as [mrs' e'].
  destruct (shr_fexp prec emax _ e' loc_Exact) as [mrs'' e''].
  destruct (shr_m mrs''); [reflexivity| |exact I].
  destruct (e'' <=? emax - prec)%Z; reflexivity.
Qed.

(** A square root is never below zero: it is zero, positive or NaN. *)
Lemma fsqrt_not_neg (x : float) : flt (fsqrt x) zero = false.
Proof.
  destruct x as [s|[|]| |[|] m e]; try reflexivity.
  unfold fsqrt, SFsqrt.
  destruct (SFsqrt_core_binary prec emax (Z.pos m) e) as [[mz ez] lz].
  pose proof (binary_round_aux_sign false mz ez lz) as H.
  destruct (binary_round_aux prec emax false mz ez lz) as [s|s| |s m' e'];
    try subst s; reflexivity.
Qed.

Lemma fsqrt_nonneg (x : float) :
  is_nan (fsqrt x) = false → fle zero (fsqrt x) = true.
Proof.
  destruct x as [s|[|]| |[|] m e]; try reflexivity; try discriminate.
  unfold fsqrt, SFsqrt.
  destruct (SFsqrt_core_binary prec emax (Z.pos m) e) as [[mz ez] lz].
  pose proof (binary_round_aux_sign false mz ez lz) as H.
  destruct (binary_round_aux prec emax false mz ez lz) as [s|s| |s m' e'];
    try subst s; try reflexivity; discriminate.
Qed.

Lemma f64_py_div_Ok (x y q : float) :
  py_div x y = Ok q ↔ feq y zero = false ∧ q = fdiv x y.
Proof.
  unfold py_div. destruct (feq y zero); split.
  - discriminate.
  - intros [E _]; discriminate.
  - intros E; injection E as <-; auto.
  - intros [_ ->]; reflexivity.
Qed.

Lemma f64_py_div_cases (x y : float) :
  (feq y zero = false ∧ py_div x y = Ok (fdiv x y)) ∨
  (feq y zero = true ∧ py_div x y = Raise ZeroDivisionError).
Proof. unfold py_div. destruct (feq y zero); auto. Qed.

Lemma f64_py_sqrt_Ok (x r : float) :
  py_sqrt x = Ok r ↔ flt x zero = false ∧ r = fsqrt x.
Proof.
  unfold py_sqrt. destruct (flt x zero); split.
  - discriminate.
  - intros [E _]; discriminate.
  - intros E; injection E as <-; auto.
  - intros [_ ->]; reflexivity.
Qed.

(** [x ** 2] returns or overflows; it raises nothing else. *)
Lemma py_pow_two_cases (x : float) :
  (∃ y, py_pow libm_pow x two = Ok y) ∨
  py_pow libm_pow x two = Raise OverflowError.
Proof.
  unfold py_pow.
  change (feq two zero) with false. change (is_nan two) with false.
  change (is_infinity two) with false. change (flt two zero) with false.
  change (is_integer two) with true. change (is_odd_integer two) with false.
  change (flt zero two) with true. cbv iota. cbn [negb andb].
  rewrite !andb_false_r.
  destruct (is_nan x); [eauto|].
  destruct (is_infinity x); [eauto|].
  destruct (feq x zero); [eauto|].
  destruct (feq (fabs x) one); [eauto|].
  destruct (is_infinity (libm_pow (fabs x) two)); eauto.
Qed.

Lemma mapM_py_pow_two_cases (numbers : list float) :
  (∃ squares, mapM (λ x, py_pow libm_pow x two) numbers = Ok squares) ∨
  mapM (λ x, py_pow libm_pow x two) numbers = Raise OverflowError.
Proof.
  apply mapM_cases, Forall_forall. intros x _. apply py_pow_two_cases.
Qed.

(** Below two values [compute_stats] returns nothing: with no value
    [s**2/n] divides by zero, with one value the division by [n - 1.0]
    does, unless squaring has overflowed before. *)
Lemma f64_compute_stats_short (numbers : list float) :
  length numbers < 2 →
  compute_stats libm_pow numbers = Raise ZeroDivisionError ∨
  compute_stats libm_pow numbers = Raise OverflowError.
Proof.
  destruct numbers as [|x [|y l]]; simpl length; intros H; [| |lia].
  - left. reflexivity.
  - unfold compute_stats.
    destruct (mapM_py_pow_two_cases [x]) as [[squares ->]| ->];
      [|right; reflexivity].
    rewrite bind_ret_l.
    destruct (py_pow_two_cases (py_sum [x])) as [[s_sq ->]| ->];
      [|right; reflexivity].
    rewrite bind_ret_l. left. reflexivity.
Qed.

Lemma f64_compute_stats_Ok (numbers : list float) (avg stddev stderr : float) :
  compute_stats libm_pow numbers = Ok (avg, stddev, stderr) →
  2 ≤ length numbers ∧
  ∃ (squares : list float) (s_sq : float),
    mapM (λ x, py_pow libm_pow x two) numbers = Ok squares ∧
    py_pow libm_pow (py_sum numbers) two = Ok s_sq ∧
    let n := of_Z (Z.of_nat (length numbers)) in
    avg = fdiv (py_sum numbers) n ∧
    stddev = fsqrt (fdiv (fsub (py_sum squares) (fdiv s_sq n)) (fsub n one)) ∧
    stderr = fdiv stddev (fsqrt n) ∧
    flt stddev zero = false ∧
    (is_nan stddev = false → fle zero stddev = true).
Proof.
  intros H. split.
  - destruct (le_lt_dec 2 (length numbers)) as [Hn|Hn]; [exact Hn|].
    destruct (f64_compute_stats_short numbers Hn) as [E|E];
      rewrite E in H; discriminate.
  - unfold compute_stats in H.
    apply bind_Ok in H as (squares & Hsq & H).
    apply bind_Ok in H as (s_sq & Hs & H).
    apply bind_Ok in H as (q & Hq & H). apply f64_py_div_Ok in Hq as [_ ->].
    apply bind_Ok in H as (v & Hv & H). apply f64_py_div_Ok in Hv as [_ ->].
    apply bind_Ok in H as (sd & Hsd & H). apply f64_py_sqrt_Ok in Hsd as [_ ->].
    apply bind_Ok in H as (a & Ha & H). apply f64_py_div_Ok in Ha as [_ ->].
    apply bind_Ok in H as (rn & Hrn & H). apply f64_py_sqrt_Ok in Hrn as [_ ->].
    apply bind_Ok in H as (se & Hse & H). apply f64_py_div_Ok in Hse as [_ ->].
    injection H as <- <- <-.
    exists squares, s_sq. repeat split; try assumption.
    + apply fsqrt_not_neg.
    + apply fsqrt_nonneg.
Qed.

End StatisticsF64.

(** ** Factors, groups and their statistics on floats *)

Lemma positions_from_agree {A B C : Type} `{EqDecision B} `{EqDecision C}
    (f : A → B) (g : A → C) (b : B) (c : C) (l : list A) (k : nat) :
  (∀ x, x ∈ l → f x = b ↔ g x = c) →
  positions_from k b (map f l) = positions_from k c (map g l).
Proof.
  revert k; induction l as [|x l IH]; intros k H; simpl; [reflexivity|].
  rewrite (IH (S k)) by (intros y Hy; apply H; right; exact Hy).
  destruct (H x ltac:(left)) as [H1 H2].
  destruct (decide (b = f x)) as [E|N], (decide (c = g x)) as [E'|N'];
    try reflexivity.
  - exfalso; apply N'. symmetry; apply H1; congruence.
  - exfalso; apply N. symmetry; apply H2; congruence.
Qed.

Section GroupsF64.

Import F64.

Variable float_of_string : string → option float.
Variable str_vals : list pyval → string.
Variable libm_pow : float → float → float.

Lemma f64_compute_nf_length (d : Data) (genes : list string) (nfs : list float) :
  compute_nf libm_pow d genes = Ok nfs → length nfs = length (_data d).
Proof. unfold compute_nf. apply mapM_Ok_length. Qed.

Lemma f64_mapM_inv_cases (nfs : list float) :
  (Forall (λ nf, feq nf zero = false) nfs ∧
   mapM (λ x, py_div one x) nfs = Ok (map (λ nf, fdiv one nf) nfs)) ∨
  (Exists (λ nf, feq nf zero = true) nfs ∧
   mapM (λ x, py_div one x) nfs = Raise ZeroDivisionError).
Proof.
  induction nfs as [|x nfs IH]; simpl.
  - left. split; [constructor|reflexivity].
  - destruct (f64_py_div_cases one x) as [[Hx ->]|[Hx ->]].
    + rewrite bind_ret_l. destruct IH as [[Hall ->]|[Hex ->]].
      * left. split; [constructor; assumption|reflexivity].
      * right. split; [right; exact Hex|reflexivity].
    + right. split; [left; exact Hx|reflexivity].
Qed.

(** [compute_inv_nf] after [compute_nf]: the reciprocals, unless a factor
    [== 0.0]. *)
Lemma f64_compute_inv_nf_cases (d : Data) (genes : list string) (nfs : list float) :
  compute_nf libm_pow d genes = Ok nfs →
  (Forall (λ nf, feq nf zero = false) nfs ∧
   compute_inv_nf libm_pow d genes = Ok (map (λ nf, fdiv one nf) nfs)) ∨
  (Exists (λ nf, feq nf zero = true) nfs ∧
   compute_inv_nf libm_pow d genes = Raise ZeroDivisionError).
Proof.
  intros H. unfold compute_inv_nf. rewrite H, bind_ret_l.
  apply f64_mapM_inv_cases.
Qed.

Lemma f64_mapM_div_cases (c : float) (l : list float) :
  (feq c zero = false ∧ mapM (λ x, py_div x c) l = Ok (map (λ x, fdiv x c) l)) ∨
  (feq c zero = true ∧ (l = [] ∨ mapM (λ x, py_div x c) l = Raise ZeroDivisionError)).
Proof.
  destruct (feq c zero) eqn:Hc; [right|left]; (split; [reflexivity|]).
  - destruct l as [|x l]; [left; reflexivity|right].
    assert (E : py_div x c = Raise ZeroDivisionError)
      by (unfold py_div; rewrite Hc; reflexivity).
    simpl. rewrite E. reflexivity.
  - apply mapM_pure, Forall_forall. intros x _. unfold py_div. rewrite Hc.
    reflexivity.
Qed.

Lemma f64_table_inv_control_lt (d : Data) (tuples : list (list pyval)) :
  table_inv float_of_string str_vals d tuples →
  Forall (λ i, i < length (_data d)) (control_rows d).
Proof.
  intros (Hrows & Hctl & Hnone & _). apply Forall2_length in Hrows.
  unfold control_rows. destruct (_control_cond_vals d) as [c|] eqn:Ec.
  - rewrite (Hctl c eq_refl). apply Forall_forall. intros i Hi.
    apply positions_lt in Hi. rewrite length_map in Hi. lia.
  - rewrite (Hnone eq_refl). constructor.
Qed.

(** [compute_inv_nf_vs_control] after [compute_inv_nf] on a loaded table:
    the division by the number of control rows or by the control average
    is the only step left that can raise. *)
Lemma f64_compute_inv_nf_vs_control_cases (d : Data) (genes : list string)
    (invs : list float) :
  loaded float_of_string str_vals d →
  compute_inv_nf libm_pow d genes = Ok invs →
  ∃ ctrl : list float,
    mapM (py_index invs) (control_rows d) = Ok ctrl ∧
    let n := of_Z (Z.of_nat (length (control_rows d))) in
    let avg_control := fdiv (py_sum ctrl) n in
    compute_inv_nf_vs_control libm_pow d genes =
      if feq n zero then Raise ZeroDivisionError
      else if feq avg_control zero
           then (match invs with [] => Ok [] | _ => Raise ZeroDivisionError end)
           else Ok (map (λ x, fdiv x avg_control) invs).
Proof.
  intros Hl Hinv.
  destruct (f64_loaded_inv _ _ d Hl) as [tuples Hti].
  pose proof (f64_table_inv_control_lt d tuples Hti) as Hlt.
  assert (Hlen : length invs = length (_data d)).
  { unfold compute_inv_nf in Hinv. apply bind_Ok in Hinv as (nfs & Hnf & Hinv).
    apply mapM_Ok_length in Hinv. apply f64_compute_nf_length in Hnf. congruence. }
  rewrite <- Hlen in Hlt.
  destruct (mapM_index_lt invs (control_rows d) Hlt) as (ctrl & Hctrl & _).
  exists ctrl. split; [exact Hctrl|]. cbv zeta.
  unfold compute_inv_nf_vs_control. rewrite Hinv, bind_ret_l, Hctrl, bind_ret_l.
  destruct (f64_py_div_cases (py_sum ctrl)
              (of_Z (Z.of_nat (length (control_rows d))))) as [[-> ->]|[-> ->]];
    [|reflexivity].
  rewrite bind_ret_l.
  destruct (f64_mapM_div_cases
              (fdiv (py_sum ctrl) (of_Z (Z.of_nat (length (control_rows d))))) invs)
    as [[-> ->]|[-> [->|E]]]; try reflexivity.
  destruct invs as [|x invs]; [reflexivity|]. rewrite E. reflexivity.
Qed.

Lemma f64_compute_inv_nf_vs_control_length (d : Data) (genes : list string)
    (out : list float) :
  compute_inv_nf_vs_control libm_pow d genes = Ok out →
  length out = length (_data d).
Proof.
  unfold compute_inv_nf_vs_control, compute_inv_nf. intros H.
  apply bind_Ok in H as (invs & Hinv & H).
  apply bind_Ok in Hinv as (nfs & Hnf & Hinv).
  apply bind_Ok in H as (ctrl & _ & H).
  apply bind_Ok in H as (avg & _ & H).
  apply mapM_Ok_length in H, Hinv. apply f64_compute_nf_length in Hnf. congruence.
Qed.

Lemma f64_catalogue_group (d : Data) (tuples : list (list pyval)) (cv : list pyval) :
  table_inv float_of_string str_vals d tuples →
  cv ∈ condition_values d →
  condition_group str_vals d cv =
    Ok (positions (str_vals cv) (map str_vals tuples)).
Proof.
  intros (_ & _ & _ & Hgrp & Hidx & _) Hcv. unfold condition_values in Hcv.
  rewrite Hidx in Hcv. apply elem_of_first_seen_by in Hcv as [Hin _].
  unfold condition_group. rewrite Hgrp.
  destruct (decide (str_vals cv ∈ map str_vals tuples)) as [_|N]; [reflexivity|].
  exfalso; apply N. apply list_elem_of_In, in_map, list_elem_of_In, Hin.
Qed.

Lemma f64_group_stat_single (d : Data) (tuples : list (list pyval))
    (out : list float) (cv : list pyval) :
  table_inv float_of_string str_vals d tuples →
  length out = length (_data d) →
  cv ∈ condition_values d →
  length (positions (str_vals cv) (map str_vals tuples)) < 2 →
  group_stat str_vals libm_pow d out cv = Raise ZeroDivisionError ∨
  group_stat str_vals libm_pow d out cv = Raise OverflowError.
Proof.
  intros Hinv Hlen Hcv Hsmall. unfold group_stat.
  rewrite (f64_catalogue_group d tuples cv Hinv Hcv), bind_ret_l.
  destruct (mapM_index_lt out (positions (str_vals cv) (map str_vals tuples)))
    as (numbers & Hn & _).
  { destruct Hinv as (Hrows & _). apply Forall2_length in Hrows.
    apply Forall_forall. intros i Hi. apply positions_lt in Hi.
    rewrite length_map in Hi. lia. }
  rewrite Hn, bind_ret_l. apply mapM_Ok_length in Hn.
  destruct (f64_compute_stats_short libm_pow numbers) as [-> | ->];
    [lia|left|right]; reflexivity.
Qed.

(** A group of one row leaves the statistics without a result. *)
Lemma f64_single_row_group (d : Data) (genes : list string) (L : string)
    (g : list nat) :
  loaded float_of_string str_vals d →
  _cond_groups d !! L = Some g →
  length g = 1 →
  (∃ e, compute_condition_stats str_vals libm_pow d genes = Raise e) ∧
  (∃ e, compute_overall_stats str_vals libm_pow d genes = Raise e) ∧
  (∀ out, compute_inv_nf_vs_control libm_pow d genes = Ok out →
      ∃ cv, cv ∈ condition_values d ∧ str_vals cv = L ∧
            (group_stat str_vals libm_pow d out cv = Raise ZeroDivisionError ∨
             group_stat str_vals libm_pow d out cv = Raise OverflowError)).
Proof.
  intros Hl HL Hg.
  destruct (f64_loaded_inv _ _ d Hl) as [tuples Hinv].
  assert (Hgroup : ∀ out, compute_inv_nf_vs_control libm_pow d genes = Ok out →
      ∃ cv, cv ∈ condition_values d ∧ str_vals cv = L ∧
            (group_stat str_vals libm_pow d out cv = Raise ZeroDivisionError ∨
             group_stat str_vals libm_pow d out cv = Raise OverflowError)).
  { intros out Hout.
    pose proof (f64_compute_inv_nf_vs_control_length d genes out Hout) as Hlen.
    pose proof Hinv as (Hrows & Hctl & Hnone & Hgrp & Hidx & Hsize).
    pose proof HL as HL'. rewrite Hgrp in HL'.
    destruct (decide (L ∈ map str_vals tuples)) as [Hin|]; [|discriminate].
    injection HL' as <-.
    assert (HLc : L ∈ map str_vals (condition_values d)).
    { unfold condition_values. rewrite Hidx. apply first_seen_by_keys.
      split; [exact Hin|apply not_elem_of_nil]. }
    apply list_elem_of_In, in_map_iff in HLc as (cv & <- & Hcv).
    apply list_elem_of_In in Hcv.
    exists cv. split; [exact Hcv|]. split; [reflexivity|].
    apply (f64_group_stat_single d tuples out cv Hinv Hlen Hcv). lia. }
  assert (Hcs : ∃ e, compute_condition_stats str_vals libm_pow d genes = Raise e).
  { destruct (compute_condition_stats str_vals libm_pow d genes) as [stats|e] eqn:E;
      [exfalso|eauto].
    unfold compute_condition_stats in E. apply bind_Ok in E as (out & Hout & E).
    destruct (Hgroup out Hout) as (cv & Hcv & _ & Hraise).
    apply mapM_Ok in E. apply list_elem_of_lookup in Hcv as [i Hi].
    destruct (Forall2_lookup_l _ _ _ _ _ E Hi) as (st & _ & Hst).
    destruct Hraise as [R|R]; rewrite R in Hst; discriminate. }
  split; [exact Hcs|]. split; [|exact Hgroup].
  destruct Hcs as [e He]. exists e.
  unfold compute_overall_stats. rewrite He. reflexivity.
Qed.

End GroupsF64.

(** ** The statistics, in exact arithmetic and on floats *)

(** C4, as the code has it.  In exact arithmetic, for a sequence of
    [n >= 2] numbers [compute_stats] returns the mean [sum/n], the
    standard deviation [sqrt((sum of squares - sum^2/n)/(n-1))] and the
    standard error [stddev/sqrt(n)], and the standard deviation is not
    negative.  On floats [compute_stats] does not return for every such
    sequence (the rounded radicand can be negative, a square can
    overflow); whenever it returns, there are two numbers or more, the
    three values are these formulas as the floats evaluate them, and the
    standard deviation is not below zero: it is zero, positive or NaN. *)
Theorem compute_stats_exact_and_float (libm_pow : F64.float → F64.float → F64.float) :
  (∀ numbers : list R,
     2 ≤ length numbers →
     ∃ avg stddev stderr : R,
       compute_stats numbers = Ok (avg, stddev, stderr) ∧
       avg = (Rsum numbers / INR (length numbers))%R ∧
       stddev = sqrt ((Rsum (map (λ v, v ^ 2)%R numbers)
                       - Rsum numbers ^ 2 / INR (length numbers))
                      / (INR (length numbers) - 1)) ∧
       stderr = (stddev / sqrt (INR (length numbers)))%R ∧
       (0 <= stddev)%R) ∧
  (∀ (numbers : list F64.float) (avg stddev stderr : F64.float),
     F64.compute_stats libm_pow numbers = Ok (avg, stddev, stderr) →
     2 ≤ length numbers ∧
     ∃ (squares : list F64.float) (s_sq : F64.float),
       mapM (λ x, F64.py_pow libm_pow x F64.two) numbers = Ok squares ∧
       F64.py_pow libm_pow (F64.py_sum numbers) F64.two = Ok s_sq ∧
       let n := F64.of_Z (Z.of_nat (length numbers)) in
       avg = F64.fdiv (F64.py_sum numbers) n ∧
       stddev = F64.fsqrt
                  (F64.fdiv (F64.fsub (F64.py_sum squares) (F64.fdiv s_sq n))
                            (F64.fsub n F64.one)) ∧
       stderr = F64.fdiv stddev (F64.fsqrt n) ∧
       F64.flt stddev F64.zero = false ∧
       (F64.is_nan stddev = false → F64.fle F64.zero stddev = true)).
Proof.
  split.
  - intros numbers Hn. eexists _, _, _.
    split; [apply compute_stats_total, Hn|].
    repeat split; try reflexivity. apply sqrt_pos.
  - intros numbers avg stddev stderr H.
    destruct (f64_compute_stats_Ok libm_pow numbers avg stddev stderr H)
      as (Hn & squares & s_sq & Hsq & Hs & Ha & Hsd & Hse & Hneg & Hpos).
    split; [exact Hn|]. exists squares, s_sq.
    split; [exact Hsq|]. split; [exact Hs|].
    cbv zeta. auto.
Qed.

Section DegenerateF64.

Import F64.

Variable float_of_string : string → option float.
Variable str_vals : list pyval → string.
Variable libm_pow : float → float → float.

(** C7, as the code has it.  For fewer than two values [compute_stats]
    returns nothing: it raises [ZeroDivisionError] ([s**2/n] for no value,
    the division by [n - 1.0] for one value), or [OverflowError] when the
    square of the one value overflows.  In a loaded table with a condition
    group of a single row, [compute_condition_stats] and
    [compute_overall_stats] return nothing for any genes: once the
    control-normalized inverse factors are computed, the statistics of
    that group raise [ZeroDivisionError] or [OverflowError], unless an
    earlier group has raised before. *)
Theorem degenerate_sample_no_result :
  (∀ numbers : list float,
     length numbers < 2 →
     compute_stats libm_pow numbers = Raise ZeroDivisionError ∨
     compute_stats libm_pow numbers = Raise OverflowError) ∧
  compute_stats libm_pow [] = Raise ZeroDivisionError ∧
  (∀ x sq s_sq : float,
     py_pow libm_pow x two = Ok sq →
     py_pow libm_pow (py_sum [x]) two = Ok s_sq →
     compute_stats libm_pow [x] = Raise ZeroDivisionError) ∧
  (∀ (d : Data) (genes : list string) (L : string) (g : list nat),
     loaded float_of_string str_vals d →
     _cond_groups d !! L = Some g →
     length g = 1 →
     (∃ e, compute_condition_stats str_vals libm_pow d genes = Raise e) ∧
     (∃ e, compute_overall_stats str_vals libm_pow d genes = Raise e) ∧
     (∀ out, compute_inv_nf_vs_control libm_pow d genes = Ok out →
        ∃ cv, cv ∈ condition_values d ∧ str_vals cv = L ∧
              (group_stat str_vals libm_pow d out cv = Raise ZeroDivisionError ∨
               group_stat str_vals libm_pow d out cv = Raise OverflowError))).
Proof.
  split; [|split; [|split]].
  - intros numbers Hn. apply f64_compute_stats_short, Hn.
  - reflexivity.
  - intros x sq s_sq Hsq Hs. unfold compute_stats.
    change (mapM (λ x0, py_pow libm_pow x0 two) [x])
      with (py_pow libm_pow x two ≫= λ y, Ok [y]).
    rewrite Hsq, !bind_ret_l, Hs, bind_ret_l. reflexivity.
  - intros d genes L g Hl HL Hg.
    apply (f64_single_row_group float_of_string str_vals libm_pow d genes L g);
      assumption.
Qed.

(** X4.  On a table that [add] has filled from an empty one, the control
    rows are the rows whose condition tuple [==] the control values, and
    [condition_group] of the control values returns the rows whose tuple
    has the label of the control values.  When [==] with the control
    values and having their label agree on the tuples of the table,
    [condition_group] of the control values returns [control_rows] if
    there is a control row, and exits with status 1 if there is none. *)
Theorem control_rows_condition_group (d0 d : Data) (rows : list (list pyval))
    (c : list pyval) :
  empty_table d0 →
  add_all float_of_string str_vals d0 rows = Ok d →
  _control_cond_vals d = Some c →
  ∃ tuples : list (list pyval),
    Forall2 (λ raw t, coerced_tuple float_of_string (_cond_idx d) raw = Some t)
            rows tuples ∧
    control_rows d = positions true (map (py_list_eq c) tuples) ∧
    condition_group str_vals d c =
      (if decide (str_vals c ∈ map str_vals tuples)
       then Ok (positions (str_vals c) (map str_vals tuples))
       else Raise (SystemExit 1)) ∧
    ((∀ t, t ∈ tuples → py_list_eq c t = true ↔ str_vals t = str_vals c) →
     (control_rows d ≠ [] → condition_group str_vals d c = Ok (control_rows d)) ∧
     (control_rows d = [] → condition_group str_vals d c = Raise (SystemExit 1))).
Proof.
  intros He Hadd Hc.
  destruct (f64_add_all_inv _ _ rows d0 d [] (f64_empty_table_inv _ _ d0 He) Hadd)
    as (tuples & (Hrows & Hctl & _ & Hgrp & _) & Hco & Hci & _).
  simpl in Hctl, Hgrp.
  exists tuples. split; [rewrite Hci; exact Hco|].
  assert (Hcg : condition_group str_vals d c =
      (if decide (str_vals c ∈ map str_vals tuples)
       then Ok (positions (str_vals c) (map str_vals tuples))
       else Raise (SystemExit 1))).
  { unfold condition_group. rewrite Hgrp.
    destruct (decide (str_vals c ∈ map str_vals tuples)); reflexivity. }
  split; [exact (Hctl c Hc)|]. split; [exact Hcg|].
  intros Hagree. unfold control_rows. rewrite (Hctl c Hc), Hcg.
  assert (Hpos : positions true (map (py_list_eq c) tuples) =
                 positions (str_vals c) (map str_vals tuples)).
  { unfold positions. apply positions_from_agree. exact Hagree. }
  rewrite Hpos. split.
  - intros Hne. destruct (decide (str_vals c ∈ map str_vals tuples)) as [_|N];
      [reflexivity|].
    exfalso. apply Hne. apply positions_nil_iff. exact N.
  - intros E. apply positions_nil_iff in E.
    destruct (decide (str_vals c ∈ map str_vals tuples)); [contradiction|reflexivity].
Qed.

End DegenerateF64.

Section PositiveMeasurements.

Variable float_of_string : string → option R.
Variable str_vals : list pyval → string.
Variable float_of_string64 : string → option F64.float.
Variable str_vals64 : list F64.pyval → string.
Variable libm_pow : F64.float → F64.float → F64.float.

(** C9, as the code has it.  In exact arithmetic, with strictly positive
    measurements in the columns of a non-empty subset and a non-empty
    control group, every normalization factor is strictly positive, so
    neither the reciprocals nor the division by the control average
    divide by zero: the three computations return.  On floats positive
    measurements do not suffice (their product can underflow to [0.0]);
    whenever [compute_nf] returns on a loaded table, [compute_inv_nf]
    returns the reciprocals if no factor [== 0.0] and raises
    [ZeroDivisionError] if one does, and [compute_inv_nf_vs_control]
    after it raises [ZeroDivisionError] exactly when the number of control
    rows or the control average [== 0.0]. *)
Theorem positive_measurements_exact_and_float :
  (∀ (d : Data) (genes : list string),
     loaded float_of_string str_vals d →
     genes ≠ [] →
     positive_columns d genes →
     control_rows d ≠ [] →
     ∃ nfs invs out : list R,
       compute_nf d genes = Ok nfs ∧ Forall (λ x, 0 < x)%R nfs ∧
       compute_inv_nf d genes = Ok invs ∧ invs = map (λ nf, 1 / nf)%R nfs ∧
       compute_inv_nf_vs_control d genes = Ok out ∧ Forall (λ x, 0 < x)%R out) ∧
  (∀ (d : F64.Data) (genes : list string) (nfs : list F64.float),
     F64.loaded float_of_string64 str_vals64 d →
     F64.compute_nf libm_pow d genes = Ok nfs →
     ((Forall (λ nf, F64.feq nf F64.zero = false) nfs ∧
       F64.compute_inv_nf libm_pow d genes
       = Ok (map (λ nf, F64.fdiv F64.one nf) nfs)) ∨
      (Exists (λ nf, F64.feq nf F64.zero = true) nfs ∧
       F64.compute_inv_nf libm_pow d genes = Raise ZeroDivisionError)) ∧
     (∀ invs, F64.compute_inv_nf libm_pow d genes = Ok invs →
        ∃ ctrl : list F64.float,
          mapM (py_index invs) (F64.control_rows d) = Ok ctrl ∧
          let n := F64.of_Z (Z.of_nat (length (F64.control_rows d))) in
          let avg_control := F64.fdiv (F64.py_sum ctrl) n in
          F64.compute_inv_nf_vs_control libm_pow d genes =
            if F64.feq n F64.zero then Raise ZeroDivisionError
            else if F64.feq avg_control F64.zero
                 then (match invs with
                       | [] => Ok []
                       | _ => Raise ZeroDivisionError
                       end)
                 else Ok (map (λ x, F64.fdiv x avg_control) invs))).
Proof.
  split.
  - intros d genes Hl Hne Hpos Hctl.
    destruct (loaded_inv _ _ d Hl) as [tuples Hinv].
    pose proof (table_inv_control_lt _ _ d tuples Hinv) as Hlt.
    destruct (compute_nf_positive d genes Hne Hpos) as (nfs & Hnf & Hnfs).
    destruct (compute_inv_nf_positive d genes Hne Hpos) as (invs & Hi & _ & _).
    destruct (compute_inv_nf_vs_control_positive d genes Hne Hpos Hctl Hlt)
      as (out & Hout & Hopos & _).
    exists nfs, invs, out. repeat split; try assumption.
    apply (compute_inv_nf_Ok d genes nfs invs Hnf Hi).
  - intros d genes nfs Hl Hnf. split.
    + apply f64_compute_inv_nf_cases, Hnf.
    + intros invs Hinv.
      apply (f64_compute_inv_nf_vs_control_cases float_of_string64 str_vals64
               libm_pow d genes invs Hl Hinv).
Qed.

End PositiveMeasurements.

(** * The worked tables on floats, evaluated *)

Lemma dose_load :
  F64.add_all b64_float b64_str
    (F64.new_table dose_headers "id" ["dose"] [F64.PFloat (F64.of_Z 2)]) dose_rows
  = Ok dose_table.
Proof. vm_compute. reflexivity. Qed.

Lemma dose_loaded : F64.loaded b64_float b64_str dose_table.
Proof.
  eexists _, dose_rows. split; [apply f64_new_table_empty|exact dose_load].
Qed.

Lemma zero_load :
  F64.add_all b64_float b64_str
    (F64.new_table dose_headers "id" ["dose"] [F64.PFloat F64.zero]) zero_rows
  = Ok zero_table.
Proof. vm_compute. reflexivity. Qed.

Lemma tiny_load :
  F64.add_all b64_float b64_str
    (F64.new_table dose_headers "id" ["dose"] [F64.PFloat (F64.of_Z 2)]) tiny_rows
  = Ok tiny_table.
Proof. vm_compute. reflexivity. Qed.

Lemma lone_load :
  F64.add_all b64_float b64_str
    (F64.new_table dose_headers "id" ["dose"] [F64.PFloat (F64.of_Z 2)]) lone_rows
  = Ok lone_table.
Proof. vm_compute. reflexivity. Qed.

Lemma lone_loaded : F64.loaded b64_float b64_str lone_table.
Proof.
  eexists _, lone_rows. split; [apply f64_new_table_empty|exact lone_load].
Qed.

Lemma nan_load :
  F64.add_all b64_float b64_str
    (F64.new_table nan_headers "id" ["dose"] [F64.PFloat (F64.of_Z 2)]) nan_rows
  = Ok nan_table.
Proof. vm_compute. reflexivity. Qed.

Lemma b64_float_literals :
  b64_float "0.1" = Some tenth ∧ b64_float "1e200" = Some huge ∧
  b64_float "1e-200" = Some tiny.
Proof. vm_compute. auto. Qed.

(** ** The theorems on floats at the worked tables *)

(** With a [nan] measurement the ranking comes back in enumeration
    order, although the key of C is below the key of A. *)
Lemma compute_all_nan_counterexample :
  F64.add_all b64_float b64_str
    (F64.new_table nan_headers "id" ["dose"] [F64.PFloat (F64.of_Z 2)]) nan_rows
  = Ok nan_table ∧
  map F64.genes <$> F64.compute_all b64_str b64_pow nan_table ["A"; "B"; "C"]
  = Ok [["A"]; ["B"]; ["C"]; ["A"; "B"]; ["A"; "C"]; ["B"; "C"]; ["A"; "B"; "C"]] ∧
  map F64.sort_key <$> F64.compute_all b64_str b64_pow nan_table ["A"; "B"; "C"]
  = Ok [key_A; S754_nan; F64.zero; S754_nan; key_AC; S754_nan; S754_nan] ∧
  F64.flt F64.zero key_A = true ∧
  F64.fle key_A F64.zero = false ∧
  F64.flt key_AC key_A = true.
Proof.
  split; [exact nan_load|]. vm_compute. repeat split.
Qed.

Lemma dose_ranking :
  map F64.genes <$> F64.compute_all b64_str b64_pow dose_table ["A"; "B"]
  = Ok [["B"]; ["A"; "B"]; ["A"]] ∧
  map F64.sort_key <$> F64.compute_all b64_str b64_pow dose_table ["A"; "B"]
  = Ok [F64.zero; key_AC; key_A].
Proof. vm_compute. split; reflexivity. Qed.

Lemma compute_all_ranked_unless_nan_witness :
  ∃ res,
    F64.compute_all b64_str b64_pow dose_table ["A"; "B"] = Ok res ∧
    map F64.genes res = [["B"]; ["A"; "B"]; ["A"]] ∧
    length res = 2 ^ length ["A"; "B"] - 1 ∧
    StronglySorted (λ a b, F64.fle (F64.sort_key a) (F64.sort_key b) = true) res.
Proof.
  destruct (F64.compute_all b64_str b64_pow dose_table ["A"; "B"])
    as [res|e] eqn:Hres; [|vm_compute in Hres; discriminate].
  exists res. split; [reflexivity|].
  destruct (proj2 (compute_all_ranked_unless_nan b64_str b64_pow dose_table
                     ["A"; "B"]) res Hres)
    as (Hlen & (recs & _ & _ & _ & Hsorted & _) & _).
  assert (Hres' : res = match F64.compute_all b64_str b64_pow dose_table ["A"; "B"]
                        with Ok r => r | Raise _ => [] end)
    by (rewrite Hres; reflexivity).
  split; [rewrite Hres'; vm_compute; reflexivity|].
  split; [exact Hlen|].
  apply Hsorted. rewrite Hres'. vm_compute. repeat constructor.
Defined.

(** Three times [0.1]: the radicand is rounded below zero; twice
    [1e200]: the squares overflow. *)
Lemma compute_stats_float_counterexample :
  2 ≤ length [tenth; tenth; tenth] ∧
  F64.compute_stats b64_pow [tenth; tenth; tenth] = Raise ValueError ∧
  F64.compute_stats b64_pow [huge; huge] = Raise OverflowError.
Proof. vm_compute. repeat split. lia. Qed.

Lemma compute_stats_exact_and_float_witness :
  (∃ avg stddev stderr : R,
     compute_stats [1%R; 3%R] = Ok (avg, stddev, stderr) ∧
     avg = (Rsum [1%R; 3%R] / INR (length [1%R; 3%R]))%R ∧
     stddev = sqrt ((Rsum (map (λ v, v ^ 2)%R [1%R; 3%R])
                     - Rsum [1%R; 3%R] ^ 2 / INR (length [1%R; 3%R]))
                    / (INR (length [1%R; 3%R]) - 1)) ∧
     stderr = (stddev / sqrt (INR (length [1%R; 3%R])))%R ∧
     (0 <= stddev)%R) ∧
  F64.compute_stats b64_pow [F64.of_Z 1; F64.of_Z 3]
  = Ok (F64.of_Z 2, F64.fsqrt (F64.of_Z 2), F64.of_Z 1) ∧
  F64.flt (F64.fsqrt (F64.of_Z 2)) F64.zero = false.
Proof.
  destruct (compute_stats_exact_and_float b64_pow) as [Hexact Hfloat].
  split; [apply (Hexact [1%R; 3%R]); simpl; lia|].
  assert (H : F64.compute_stats b64_pow [F64.of_Z 1; F64.of_Z 3]
              = Ok (F64.of_Z 2, F64.fsqrt (F64.of_Z 2), F64.of_Z 1))
    by (vm_compute; reflexivity).
  split; [exact H|].
  destruct (Hfloat _ _ _ _ H) as (_ & squares & s_sq & _ & _ & _ & _ & _ & Hneg & _).
  exact Hneg.
Defined.

Lemma degenerate_sample_no_result_witness :
  F64.compute_stats b64_pow [F64.of_Z 2] = Raise ZeroDivisionError ∧
  F64._cond_groups lone_table !! "[10.0]" = Some [2] ∧
  (∃ e, F64.compute_condition_stats b64_str b64_pow lone_table ["A"] = Raise e) ∧
  F64.compute_condition_stats b64_str b64_pow lone_table ["A"]
  = Raise ZeroDivisionError.
Proof.
  destruct (degenerate_sample_no_result b64_float b64_str b64_pow)
    as (_ & _ & Hone & Htable).
  split; [apply (Hone (F64.of_Z 2) (F64.of_Z 4) (F64.of_Z 4)); vm_compute; reflexivity|].
  split; [reflexivity|].
  split; [|vm_compute; reflexivity].
  apply (Htable lone_table ["A"] "[10.0]" [2]).
  - exact lone_loaded.
  - reflexivity.
  - reflexivity.
Defined.

(** The doses [0] and [-0] are [==], and [==] to the control value, but
    their labels differ: one distinct tuple, two groups. *)
Lemma condition_groups_counterexample :
  F64.add_all b64_float b64_str
    (F64.new_table dose_headers "id" ["dose"] [F64.PFloat F64.zero]) zero_rows
  = Ok zero_table ∧
  mapM (F64.coerced_tuple b64_float [1]) zero_rows = Some zero_tuples ∧
  F64.py_list_eq [F64.PFloat (S754_zero false)] [F64.PFloat (S754_zero true)]
  = true ∧
  length (distinct_by F64.py_list_eq [] zero_tuples) = 1 ∧
  size (F64._cond_groups zero_table) = 2 ∧
  F64.nr_conditions zero_table = 2 ∧
  F64.condition_values zero_table = zero_tuples ∧
  map b64_str zero_tuples = ["[0.0]"; "[-0.0]"].
Proof.
  split; [exact zero_load|]. vm_compute. repeat split.
Qed.

Lemma condition_groups_by_label_witness :
  mapM (F64.coerced_tuple b64_float (F64._cond_idx dose_table)) dose_rows
  = Some dose_tuples ∧
  length (F64._data dose_table) = length dose_rows ∧
  size (F64._cond_groups dose_table)
  = length (remove_dups (map b64_str dose_tuples)) ∧
  F64.condition_values dose_table = first_seen_by b64_str [] dose_tuples ∧
  size (F64._cond_groups dose_table)
  = length (distinct_by F64.py_list_eq [] dose_tuples) ∧
  F64.nr_conditions dose_table = 2 ∧
  F64.condition_values dose_table
  = [[F64.PFloat (F64.of_Z 2)]; [F64.PFloat (F64.of_Z 10)]].
Proof.
  destruct (condition_groups_by_label b64_float b64_str
              (F64.new_table dose_headers "id" ["dose"] [F64.PFloat (F64.of_Z 2)])
              dose_table dose_rows)
    as (tuples & Hco & Hlen & _ & _ & _ & Hsize & Hcat & Hnr & Hdistinct).
  - apply f64_new_table_empty.
  - exact dose_load.
  - apply mapM_Some in Hco.
    assert (E : tuples = dose_tuples).
    { vm_compute in Hco. injection Hco as <-. vm_compute. reflexivity. }
    subst tuples.
    split; [exact Hco|]. split; [exact Hlen|].
    split; [exact Hsize|]. split; [exact Hcat|].
    destruct Hdistinct as (Hd & _ & Hc).
    { intros t1 t2 H1 H2.
      repeat (apply elem_of_cons in H1 as [->|H1];
              [repeat (apply elem_of_cons in H2 as [->|H2];
                       [vm_compute; split; intros H;
                        first [reflexivity|discriminate H]|]);
               inversion H2|]).
      inversion H1. }
    split; [exact Hd|]. split; [rewrite Hnr; vm_compute; reflexivity|].
    rewrite Hc. vm_compute. reflexivity.
Defined.

(** Measurements of [1e-200]: positive, yet their product is [0.0]. *)
Lemma positive_measurements_float_counterexample :
  F64.add_all b64_float b64_str
    (F64.new_table dose_headers "id" ["dose"] [F64.PFloat (F64.of_Z 2)]) tiny_rows
  = Ok tiny_table ∧
  positive_columns64 tiny_table ["A"; "B"] = true ∧
  F64.control_rows tiny_table = [0; 1] ∧
  F64.fmul tiny tiny = F64.zero ∧
  F64.compute_nf b64_pow tiny_table ["A"; "B"] = Ok [F64.zero; F64.zero] ∧
  F64.compute_inv_nf b64_pow tiny_table ["A"; "B"] = Raise ZeroDivisionError ∧
  F64.compute_inv_nf_vs_control b64_pow tiny_table ["A"; "B"]
  = Raise ZeroDivisionError.
Proof.
  split; [exact tiny_load|]. vm_compute. repeat split.
Qed.

Lemma positive_measurements_exact_and_float_witness :
  (∃ nfs invs out : list R,
     compute_nf scenario_table ["A"; "B"] = Ok nfs ∧ Forall (λ x, 0 < x)%R nfs ∧
     compute_inv_nf scenario_table ["A"; "B"] = Ok invs ∧
     invs = map (λ nf, 1 / nf)%R nfs ∧
     compute_inv_nf_vs_control scenario_table ["A"; "B"] = Ok out ∧
     Forall (λ x, 0 < x)%R out) ∧
  F64.compute_nf b64_pow dose_table ["A"; "B"]
  = Ok [F64.of_Z 2; F64.of_Z 2; F64.of_Z 4; F64.of_Z 4] ∧
  F64.compute_inv_nf b64_pow dose_table ["A"; "B"]
  = Ok (map (λ nf, F64.fdiv F64.one nf)
            [F64.of_Z 2; F64.of_Z 2; F64.of_Z 4; F64.of_Z 4]).
Proof.
  destruct (positive_measurements_exact_and_float scenario_float scenario_str
              b64_float b64_str b64_pow) as [Hexact Hfloat].
  split.
  { apply (Hexact scenario_table ["A"; "B"]).
    - exact scenario_loaded.
    - discriminate.
    - exact scenario_positive.
    - exact scenario_control. }
  assert (Hnf : F64.compute_nf b64_pow dose_table ["A"; "B"]
                = Ok [F64.of_Z 2; F64.of_Z 2; F64.of_Z 4; F64.of_Z 4])
    by (vm_compute; reflexivity).
  split; [exact Hnf|].
  destruct (Hfloat dose_table ["A"; "B"] _ dose_loaded Hnf) as [[[_ Hinv]|[Hz _]] _].
  - exact Hinv.
  - exfalso. vm_compute in Hz.
    repeat (apply Exists_cons in Hz as [Hz|Hz]; [discriminate Hz|]).
    inversion Hz.
Defined.

Lemma control_rows_condition_group_witness :
  F64.control_rows dose_table = [0; 1] ∧
  F64.condition_group b64_str dose_table [F64.PFloat (F64.of_Z 2)] = Ok [0; 1].
Proof.
  destruct (control_rows_condition_group b64_float b64_str
              (F64.new_table dose_headers "id" ["dose"] [F64.PFloat (F64.of_Z 2)])
              dose_table dose_rows [F64.PFloat (F64.of_Z 2)])
    as (tuples & Hco & Hctl & _ & Hagree).
  - apply f64_new_table_empty.
  - exact dose_load.
  - reflexivity.
  - apply mapM_Some in Hco.
    assert (E : tuples = dose_tuples).
    { vm_compute in Hco. injection Hco as <-. vm_compute. reflexivity. }
    subst tuples. split; [reflexivity|].
    destruct Hagree as [Hsome _].
    + intros t Ht.
      repeat (apply elem_of_cons in Ht as [->|Ht];
              [vm_compute; split; intros H; first [reflexivity|discriminate H]|]).
      inversion Ht.
    + apply Hsome. discriminate.
Defined.

(** With the control [dose = 0] the rows [0] and [-0] are both control
    rows, and the group of the control values holds the first alone. *)
Lemma zero_control_rows :
  F64.control_rows zero_table = [0; 1] ∧
  F64.condition_group b64_str zero_table [F64.PFloat F64.zero] = Ok [0].
Proof. vm_compute. split; reflexivity. Qed.
